(** * LiveEdit text differencer (src/debug/liveedit.cc) and the output
      stream writer (src/profiler/output-stream-writer.h)

    A shallow embedding of the comparison core of V8's LiveEdit:
    [Differencer] (dynamic-programming table, path reconstruction and the
    chunk-merging [ResultWriter]), [NarrowDownInput], the line and token
    views of two strings, [LiveEdit::CompareStrings] and
    [TranslatePosition]; and of the profiler's [utoa] and
    [OutputStreamWriter].

    Conventions of the embedding.
    - A C++ [int] is a [Z].  Signed overflow is undefined in C++, so the
      development describes the executions in which no [int] operation
      overflows; bit operations are the ones of [Z] (two's complement).
      A theorem that says that a comparison returns carries the hypothesis
      that its table stays within [int] ([table_fits],
      [CompareStrings_fits]), unless the sizes are bounded otherwise.
    - Mutable objects are passed explicitly: a method that mutates its
      receiver returns the new receiver.
    - A raw array access outside the array, and a loop or recursion that the
      model cuts off, is the failure [None]; the theorems show where neither
      happens, and where one does.
    - [Comparator::Input] and [Comparator::Output] are type classes. *)

From Stdlib Require Import ZArith Lia Bool List.
From stdpp Require Import base option list.

Open Scope Z_scope.

(** ** Interfaces *)

(** [Comparator::Input]. *)
Class Input (I : Type) := {
  GetLength1 : I -> Z;
  GetLength2 : I -> Z;
  Equals : I -> Z -> Z -> bool
}.

(** [Comparator::Output]; the sink may itself run a nested comparison, so
    adding a chunk is fallible in the model. *)
Class Output (O : Type) := {
  AddChunk : Z -> Z -> Z -> Z -> O -> option O
}.

(** The two methods that [SubrangableInput] and [SubrangableOutput] add. *)
Class Subrangable (X : Type) := {
  SetSubrange1 : Z -> Z -> X -> X;
  SetSubrange2 : Z -> Z -> X -> X
}.

(** A chunk as passed to [AddChunk] and [WriteChunk]. *)
Record Chunk := mkChunk {
  c_pos1 : Z;
  c_pos2 : Z;
  c_len1 : Z;
  c_len2 : Z
}.

(** ** Differencer *)

(** [enum Direction]. *)
Inductive Direction := EQ | SKIP1 | SKIP2 | SKIP_ANY.

Definition Direction_to_int (d : Direction) : Z :=
  match d with EQ => 0 | SKIP1 => 1 | SKIP2 => 2 | SKIP_ANY => 3 end.

(** [static_cast<Direction>] of a value already masked to two bits. *)
Definition Direction_of_int (z : Z) : option Direction :=
  if z =? 0 then Some EQ
  else if z =? 1 then Some SKIP1
  else if z =? 2 then Some SKIP2
  else if z =? 3 then Some SKIP_ANY
  else None.

Definition MAX_DIRECTION_FLAG_VALUE : Z := Direction_to_int SKIP_ANY.

Definition kMaxUInt32 : Z := 2 ^ 32 - 1.

(** Conversion of a 32-bit pattern to [int]. *)
Definition to_int32 (z : Z) : Z := (z + 2 ^ 31) mod 2 ^ 32 - 2 ^ 31.

Definition kDirectionSizeBits : Z := 2.
Definition kDirectionMask : Z := Z.shiftl 1 kDirectionSizeBits - 1.
(** [~0u << kDirectionSizeBits], an unsigned 32-bit value, stored in an
    [int]. *)
Definition kEmptyCellValue : Z :=
  to_int32 (Z.shiftl kMaxUInt32 kDirectionSizeBits mod 2 ^ 32).

(** [ResultWriter]: the chunk merger. *)
Module ResultWriter.
Record t (O : Type) := mk {
  chunk_writer_ : O;
  pos1_ : Z;
  pos2_ : Z;
  pos1_begin_ : Z;
  pos2_begin_ : Z;
  has_open_chunk_ : bool
}.
Arguments mk {O}.
Arguments chunk_writer_ {O}.
Arguments pos1_ {O}.
Arguments pos2_ {O}.
Arguments pos1_begin_ {O}.
Arguments pos2_begin_ {O}.
Arguments has_open_chunk_ {O}.

Section Methods.
Context {O : Type} `{Output O}.

Definition new (chunk_writer : O) : t O :=
  mk chunk_writer 0 0 (-1) (-1) false.

Definition StartChunk (w : t O) : t O :=
  if negb (has_open_chunk_ w) then
    mk (chunk_writer_ w) (pos1_ w) (pos2_ w) (pos1_ w) (pos2_ w) true
  else w.

Definition FlushChunk (w : t O) : option (t O) :=
  if has_open_chunk_ w then
    cw ← AddChunk (pos1_begin_ w) (pos2_begin_ w)
                  (pos1_ w - pos1_begin_ w) (pos2_ w - pos2_begin_ w)
                  (chunk_writer_ w);
    Some (mk cw (pos1_ w) (pos2_ w) (pos1_begin_ w) (pos2_begin_ w) false)
  else Some w.

Definition eq (w : t O) : option (t O) :=
  w ← FlushChunk w;
  Some (mk (chunk_writer_ w) (pos1_ w + 1) (pos2_ w + 1)
           (pos1_begin_ w) (pos2_begin_ w) (has_open_chunk_ w)).

Definition skip1 (len1 : Z) (w : t O) : t O :=
  let w := StartChunk w in
  mk (chunk_writer_ w) (pos1_ w + len1) (pos2_ w)
     (pos1_begin_ w) (pos2_begin_ w) (has_open_chunk_ w).

Definition skip2 (len2 : Z) (w : t O) : t O :=
  let w := StartChunk w in
  mk (chunk_writer_ w) (pos1_ w) (pos2_ w + len2)
     (pos1_begin_ w) (pos2_begin_ w) (has_open_chunk_ w).

Definition close (w : t O) : option (t O) := FlushChunk w.
End Methods.
End ResultWriter.

(** One turn of the [while (true)] loop of [SaveResult]. *)
Inductive LoopState (O : Type) :=
| Continue (pos1 pos2 : Z) (writer : ResultWriter.t O)
| Break (writer : ResultWriter.t O).
Arguments Continue {O}.
Arguments Break {O}.

Section Differencer.
Context {I : Type} `{Input I} (input_ : I).

Definition len1_ : Z := GetLength1 input_.
Definition len2_ : Z := GetLength2 input_.

(** [buffer_[idx]] read; [None] outside the array. *)
Definition buffer_get (buffer_ : list Z) (idx : Z) : option Z :=
  if idx <? 0 then None else buffer_ !! Z.to_nat idx.

(** [buffer_[idx] = v]; [None] outside the array. *)
Definition buffer_set (buffer_ : list Z) (idx v : Z) : option (list Z) :=
  if idx <? 0 then None
  else if Z.of_nat (length buffer_) <=? idx then None
  else Some (<[Z.to_nat idx := v]> buffer_).

(** The index of [get_cell]. *)
Definition cell_index (i1 i2 : Z) : Z := i1 + i2 * len1_.

Definition get_cell (buffer_ : list Z) (i1 i2 : Z) : option Z :=
  buffer_get buffer_ (cell_index i1 i2).

(** The constructor allocates [len1_ * len2_] cells and [Initialize]
    fills them.  The code computes the product in an [int]; the product
    here is the one of the integers, so the definition follows the code as
    long as the product is at most [kMaxInt] ([table_fits] below). *)
Definition Initialize : list Z :=
  replicate (Z.to_nat (len1_ * len2_)) kEmptyCellValue.

Definition set_value4_and_dir (buffer_ : list Z) (i1 i2 value4 : Z)
    (dir : Direction) : option (list Z) :=
  buffer_set buffer_ (cell_index i1 i2)
             (Z.lor value4 (Direction_to_int dir)).

(** [get_cell(i1, i2) & (kMaxUInt32 ^ kDirectionMask)]: the mask is the
    32-bit pattern of an [int]. *)
Definition get_value4 (buffer_ : list Z) (i1 i2 : Z) : option Z :=
  c ← get_cell buffer_ i1 i2;
  Some (Z.land c (to_int32 (Z.lxor kMaxUInt32 kDirectionMask))).

Definition get_direction (buffer_ : list Z) (i1 i2 : Z)
    : option Direction :=
  c ← get_cell buffer_ i1 i2;
  Direction_of_int (Z.land c kDirectionMask).

(** The memoised recursion; [fuel] bounds its depth. *)
Fixpoint CompareUpToTail (fuel : nat) (pos1 pos2 : Z) (buffer_ : list Z)
    : option (Z * list Z) :=
  match fuel with
  | 0%nat => None
  | S fuel =>
    if pos1 <? len1_ then
      if pos2 <? len2_ then
        cached_res ← get_value4 buffer_ pos1 pos2;
        if cached_res =? kEmptyCellValue then
          '(res, dir, buffer_) ←
            (if Equals input_ pos1 pos2 then
               '(res, buffer_) ←
                 CompareUpToTail fuel (pos1 + 1) (pos2 + 1) buffer_;
               Some (res, EQ, buffer_)
             else
               '(r1, buffer_) ← CompareUpToTail fuel (pos1 + 1) pos2 buffer_;
               let res1 := r1 + Z.shiftl 1 kDirectionSizeBits in
               '(r2, buffer_) ← CompareUpToTail fuel pos1 (pos2 + 1) buffer_;
               let res2 := r2 + Z.shiftl 1 kDirectionSizeBits in
               if res1 =? res2 then Some (res1, SKIP_ANY, buffer_)
               else if res1 <? res2 then Some (res1, SKIP1, buffer_)
               else Some (res2, SKIP2, buffer_));
          buffer_ ← set_value4_and_dir buffer_ pos1 pos2 res dir;
          Some (res, buffer_)
        else Some (cached_res, buffer_)
      else Some (Z.shiftl (len1_ - pos1) kDirectionSizeBits, buffer_)
    else Some (Z.shiftl (len2_ - pos2) kDirectionSizeBits, buffer_)
  end.

(** A depth that the recursion from (0, 0) cannot exceed. *)
Definition table_fuel : nat := S (Z.to_nat len1_ + Z.to_nat len2_).

Definition FillTable (buffer_ : list Z) : option (list Z) :=
  '(_, buffer_) ← CompareUpToTail table_fuel 0 0 buffer_;
  Some buffer_.

Context {O : Type} `{Output O}.

Definition SaveResult_step (buffer_ : list Z) (pos1 pos2 : Z)
    (writer : ResultWriter.t O) : option (LoopState O) :=
  if pos1 <? len1_ then
    if pos2 <? len2_ then
      dir ← get_direction buffer_ pos1 pos2;
      match dir with
      | EQ =>
          writer ← ResultWriter.eq writer;
          Some (Continue (pos1 + 1) (pos2 + 1) writer)
      | SKIP1 =>
          Some (Continue (pos1 + 1) pos2 (ResultWriter.skip1 1 writer))
      | SKIP2 | SKIP_ANY =>
          Some (Continue pos1 (pos2 + 1) (ResultWriter.skip2 1 writer))
      end
    else Some (Break (ResultWriter.skip1 (len1_ - pos1) writer))
  else
    Some (Break (if negb (len2_ =? pos2)
                 then ResultWriter.skip2 (len2_ - pos2) writer else writer)).

Fixpoint SaveResult_loop (fuel : nat) (buffer_ : list Z) (pos1 pos2 : Z)
    (writer : ResultWriter.t O) : option (ResultWriter.t O) :=
  match fuel with
  | 0%nat => None
  | S fuel =>
    st ← SaveResult_step buffer_ pos1 pos2 writer;
    match st with
    | Continue pos1 pos2 writer =>
        SaveResult_loop fuel buffer_ pos1 pos2 writer
    | Break writer => Some writer
    end
  end.

Definition SaveResult (buffer_ : list Z) (chunk_writer : O) : option O :=
  writer ← SaveResult_loop table_fuel buffer_ 0 0
                           (ResultWriter.new chunk_writer);
  writer ← ResultWriter.close writer;
  Some (ResultWriter.chunk_writer_ writer).

(** [Comparator::CalculateDifference]. *)
Definition CalculateDifference (result_writer : O) : option O :=
  let buffer_ := Initialize in
  buffer_ ← FillTable buffer_;
  SaveResult buffer_ result_writer.
End Differencer.


(** ** Strings and line ends *)

(** A flat V8 string: its UTF-16 code units. *)
Definition String : Type := list Z.

Definition String_length (s : String) : Z := Z.of_nat (length s).

(** [String::Get]; the index is only checked by a DCHECK, the model reads 0
    outside the string. *)
Definition Get (s : String) (index : Z) : Z := nth (Z.to_nat index) s 0.

Definition IsLineTerminator (c : Z) : bool :=
  (c =? 10) || (c =? 13) || (c =? 8232) || (c =? 8233).

Definition IsLineTerminatorSequence (c next : Z) : bool :=
  if negb (IsLineTerminator c) then false
  else if negb (c =? 13) then true
  else if negb (next =? 10) then true
  else false.

(** The scan of [CalculateLineEnds] from index [i] over [n] positions. *)
Fixpoint CalculateLineEnds_scan (src : String) (n : nat) (i : Z)
    (line_ends : list Z) : list Z :=
  match n with
  | 0%nat => line_ends
  | S n =>
      let current := Get src i in
      let next := Get src (i + 1) in
      CalculateLineEnds_scan src n (i + 1)
        (if IsLineTerminatorSequence current next
         then line_ends ++ [i] else line_ends)
  end.

(** Modelled from the spec: [String::CalculateLineEnds] is declared outside
    the files at hand.  It scans the text once for line-terminator positions
    and stores them in increasing order; a carriage return directly followed
    by a line feed ends one line, at the line feed.  With
    [include_ending_line] the text length is appended. *)
Definition CalculateLineEnds (src : String) (include_ending_line : bool)
    : list Z :=
  let src_len := String_length src in
  let line_ends :=
    CalculateLineEnds_scan src (Z.to_nat (src_len - 1)) 0 [] in
  let line_ends :=
    if (0 <? src_len) && IsLineTerminatorSequence (Get src (src_len - 1)) 0
    then line_ends ++ [src_len - 1] else line_ends in
  if include_ending_line then line_ends ++ [src_len] else line_ends.

(** The [for] loop of [CompareSubstrings], [n] turns from index [i]. *)
Fixpoint CompareSubstrings_loop (s1 : String) (pos1 : Z) (s2 : String)
    (pos2 : Z) (n : nat) (i : Z) : bool :=
  match n with
  | 0%nat => true
  | S n =>
      if negb (Get s1 (i + pos1) =? Get s2 (i + pos2)) then false
      else CompareSubstrings_loop s1 pos1 s2 pos2 n (i + 1)
  end.

Definition CompareSubstrings (s1 : String) (pos1 : Z) (s2 : String)
    (pos2 len : Z) : bool :=
  CompareSubstrings_loop s1 pos1 s2 pos2 (Z.to_nat len) 0.

Definition min (a b : Z) : Z := if a <? b then a else b.

(** ** NarrowDownInput *)

Section NarrowDownInput.
Context {I : Type} `{Input I} `{Subrangable I}.
Context {O : Type} `{Subrangable O}.

(** [while (common_prefix_len < prefix_limit && Equals(...))]; [n] is the
    number of turns left before the limit. *)
Fixpoint common_prefix_loop (input : I) (prefix_limit : Z) (n : nat)
    (common_prefix_len : Z) : Z :=
  match n with
  | 0%nat => common_prefix_len
  | S n =>
      if (common_prefix_len <? prefix_limit)
         && Equals input common_prefix_len common_prefix_len
      then common_prefix_loop input prefix_limit n (common_prefix_len + 1)
      else common_prefix_len
  end.

Fixpoint common_suffix_loop (input : I) (len1 len2 suffix_limit : Z)
    (n : nat) (common_suffix_len : Z) : Z :=
  match n with
  | 0%nat => common_suffix_len
  | S n =>
      if (common_suffix_len <? suffix_limit)
         && Equals input (len1 - common_suffix_len - 1)
                         (len2 - common_suffix_len - 1)
      then common_suffix_loop input len1 len2 suffix_limit n
                              (common_suffix_len + 1)
      else common_suffix_len
  end.

(** The value of [common_prefix_len] after the first loop. *)
Definition common_prefix_len (input : I) : Z :=
  let len1 := GetLength1 input in
  let len2 := GetLength2 input in
  let prefix_limit := min len1 len2 in
  common_prefix_loop input prefix_limit (Z.to_nat prefix_limit) 0.

(** The value of [common_suffix_len] after the second loop. *)
Definition common_suffix_len (input : I) : Z :=
  let len1 := GetLength1 input in
  let len2 := GetLength2 input in
  let suffix_limit :=
    min (len1 - common_prefix_len input) (len2 - common_prefix_len input) in
  common_suffix_loop input len1 len2 suffix_limit (Z.to_nat suffix_limit) 0.

Definition NarrowDownInput (input : I) (output : O) : I * O :=
  let len1 := GetLength1 input in
  let len2 := GetLength2 input in
  let common_prefix_len := common_prefix_len input in
  let common_suffix_len := common_suffix_len input in
  if (0 <? common_prefix_len) || (0 <? common_suffix_len) then
    let new_len1 := len1 - common_suffix_len - common_prefix_len in
    let new_len2 := len2 - common_suffix_len - common_prefix_len in
    let input := SetSubrange1 common_prefix_len new_len1 input in
    let input := SetSubrange2 common_prefix_len new_len2 input in
    let output := SetSubrange1 common_prefix_len new_len1 output in
    let output := SetSubrange2 common_prefix_len new_len2 output in
    (input, output)
  else (input, output).
End NarrowDownInput.

(** ** The array writer *)

(** An element of the result [JSArray]: a small integer or a hole. *)
Inductive Object := Smi (value : Z) | the_hole.

(** Storing an element at or past the end of a JS array extends it. *)
Definition SetElementSloppy (object : list Object) (index : Z)
    (value : Object) : list Object :=
  if index <? Z.of_nat (length object)
  then <[Z.to_nat index := value]> object
  else object ++ replicate (Z.to_nat index - length object) the_hole
              ++ [value].

Module CompareOutputArrayWriter.
(** [written_] is a ghost member: the arguments of the [WriteChunk] calls so
    far, in order.  The C++ class only keeps [array_] and [current_size_]. *)
Record t := mk {
  array_ : list Object;
  current_size_ : Z;
  written_ : list Chunk
}.

Definition new : t := mk [] 0 [].

Definition GetResult (w : t) : list Object := array_ w.

Definition WriteChunk (char_pos1 char_pos2 char_len1 char_len2 : Z) (w : t)
    : t :=
  let a := array_ w in
  let a := SetElementSloppy a (current_size_ w) (Smi char_pos1) in
  let a := SetElementSloppy a (current_size_ w + 1)
                            (Smi (char_pos1 + char_len1)) in
  let a := SetElementSloppy a (current_size_ w + 2)
                            (Smi (char_pos2 + char_len2)) in
  mk a (current_size_ w + 3)
     (written_ w ++ [mkChunk char_pos1 char_pos2 char_len1 char_len2]).
End CompareOutputArrayWriter.

(** ** Token view *)

Module TokensCompareInput.
Record t := mk {
  s1_ : String; offset1_ : Z; len1_ : Z;
  s2_ : String; offset2_ : Z; len2_ : Z
}.

#[global] Instance input : Input t := {
  GetLength1 x := len1_ x;
  GetLength2 x := len2_ x;
  Equals x index1 index2 :=
    Get (s1_ x) (offset1_ x + index1) =? Get (s2_ x) (offset2_ x + index2)
}.
End TokensCompareInput.

Module TokensCompareOutput.
Record t := mk {
  array_writer_ : CompareOutputArrayWriter.t;
  offset1_ : Z;
  offset2_ : Z
}.

#[global] Instance output : Output t := {
  AddChunk pos1 pos2 len1 len2 x :=
    Some (mk (CompareOutputArrayWriter.WriteChunk
                (pos1 + offset1_ x) (pos2 + offset2_ x) len1 len2
                (array_writer_ x))
             (offset1_ x) (offset2_ x))
}.
End TokensCompareOutput.

(** ** Line view *)

Module LineEndsWrapper.
Record t := mk {
  ends_array_ : list Z;
  string_len_ : Z
}.

Definition new (string : String) : t :=
  mk (CalculateLineEnds string false) (String_length string).

Definition length (w : t) : Z := Z.of_nat (List.length (ends_array_ w)) + 1.

Definition GetPosAfterNewLine (w : t) (index : Z) : Z :=
  nth (Z.to_nat index) (ends_array_ w) 0 + 1.

Definition GetLineEnd (w : t) (index : Z) : Z :=
  if index =? Z.of_nat (List.length (ends_array_ w)) then string_len_ w
  else GetPosAfterNewLine w index.

Definition GetLineStart (w : t) (index : Z) : Z :=
  if index =? 0 then 0 else GetLineEnd w (index - 1).
End LineEndsWrapper.

Module LineArrayCompareInput.
Record t := mk {
  s1_ : String;
  s2_ : String;
  line_ends1_ : LineEndsWrapper.t;
  line_ends2_ : LineEndsWrapper.t;
  subrange_offset1_ : Z;
  subrange_offset2_ : Z;
  subrange_len1_ : Z;
  subrange_len2_ : Z
}.

Definition new (s1 s2 : String) (line_ends1 line_ends2 : LineEndsWrapper.t)
    : t :=
  mk s1 s2 line_ends1 line_ends2 0 0
     (LineEndsWrapper.length line_ends1) (LineEndsWrapper.length line_ends2).

#[global] Instance input : Input t := {
  GetLength1 x := subrange_len1_ x;
  GetLength2 x := subrange_len2_ x;
  Equals x index1 index2 :=
    let index1 := index1 + subrange_offset1_ x in
    let index2 := index2 + subrange_offset2_ x in
    let line_start1 := LineEndsWrapper.GetLineStart (line_ends1_ x) index1 in
    let line_start2 := LineEndsWrapper.GetLineStart (line_ends2_ x) index2 in
    let line_end1 := LineEndsWrapper.GetLineEnd (line_ends1_ x) index1 in
    let line_end2 := LineEndsWrapper.GetLineEnd (line_ends2_ x) index2 in
    let len1 := line_end1 - line_start1 in
    let len2 := line_end2 - line_start2 in
    if negb (len1 =? len2) then false
    else CompareSubstrings (s1_ x) line_start1 (s2_ x) line_start2 len1
}.

#[global] Instance subrangable : Subrangable t := {
  SetSubrange1 offset len x :=
    mk (s1_ x) (s2_ x) (line_ends1_ x) (line_ends2_ x)
       offset (subrange_offset2_ x) len (subrange_len2_ x);
  SetSubrange2 offset len x :=
    mk (s1_ x) (s2_ x) (line_ends1_ x) (line_ends2_ x)
       (subrange_offset1_ x) offset (subrange_len1_ x) len
}.
End LineArrayCompareInput.

Module TokenizingLineArrayCompareOutput.
Record t := mk {
  array_writer_ : CompareOutputArrayWriter.t;
  line_ends1_ : LineEndsWrapper.t;
  line_ends2_ : LineEndsWrapper.t;
  s1_ : String;
  s2_ : String;
  subrange_offset1_ : Z;
  subrange_offset2_ : Z
}.

Definition CHUNK_LEN_LIMIT : Z := 800.

Definition new (line_ends1 line_ends2 : LineEndsWrapper.t) (s1 s2 : String)
    : t :=
  mk CompareOutputArrayWriter.new line_ends1 line_ends2 s1 s2 0 0.

Definition set_array_writer (w : CompareOutputArrayWriter.t) (x : t) : t :=
  mk w (line_ends1_ x) (line_ends2_ x) (s1_ x) (s2_ x)
     (subrange_offset1_ x) (subrange_offset2_ x).

#[global] Instance output : Output t := {
  AddChunk line_pos1 line_pos2 line_len1 line_len2 x :=
    let line_pos1 := line_pos1 + subrange_offset1_ x in
    let line_pos2 := line_pos2 + subrange_offset2_ x in
    let char_pos1 := LineEndsWrapper.GetLineStart (line_ends1_ x) line_pos1 in
    let char_pos2 := LineEndsWrapper.GetLineStart (line_ends2_ x) line_pos2 in
    let char_len1 :=
      LineEndsWrapper.GetLineStart (line_ends1_ x) (line_pos1 + line_len1)
      - char_pos1 in
    let char_len2 :=
      LineEndsWrapper.GetLineStart (line_ends2_ x) (line_pos2 + line_len2)
      - char_pos2 in
    if (char_len1 <? CHUNK_LEN_LIMIT) && (char_len2 <? CHUNK_LEN_LIMIT) then
      let tokens_input :=
        TokensCompareInput.mk (s1_ x) char_pos1 char_len1
                              (s2_ x) char_pos2 char_len2 in
      let tokens_output :=
        TokensCompareOutput.mk (array_writer_ x) char_pos1 char_pos2 in
      tokens_output ← CalculateDifference tokens_input tokens_output;
      Some (set_array_writer
              (TokensCompareOutput.array_writer_ tokens_output) x)
    else
      Some (set_array_writer
              (CompareOutputArrayWriter.WriteChunk
                 char_pos1 char_pos2 char_len1 char_len2 (array_writer_ x))
              x)
}.

#[global] Instance subrangable : Subrangable t := {
  SetSubrange1 offset len x :=
    mk (array_writer_ x) (line_ends1_ x) (line_ends2_ x) (s1_ x) (s2_ x)
       offset (subrange_offset2_ x);
  SetSubrange2 offset len x :=
    mk (array_writer_ x) (line_ends1_ x) (line_ends2_ x) (s1_ x) (s2_ x)
       (subrange_offset1_ x) offset
}.

Definition GetResult (x : t) : list Object :=
  CompareOutputArrayWriter.GetResult (array_writer_ x).
End TokenizingLineArrayCompareOutput.

(** ** LiveEdit::CompareStrings *)

(** The pipeline up to the final state of the output object. *)
Definition CompareStrings_output (s1 s2 : String)
    : option TokenizingLineArrayCompareOutput.t :=
  let line_ends1 := LineEndsWrapper.new s1 in
  let line_ends2 := LineEndsWrapper.new s2 in
  let input := LineArrayCompareInput.new s1 s2 line_ends1 line_ends2 in
  let output :=
    TokenizingLineArrayCompareOutput.new line_ends1 line_ends2 s1 s2 in
  let '(input, output) := NarrowDownInput input output in
  CalculateDifference input output.

(** The array that [LiveEdit::CompareStrings] returns. *)
Definition CompareStrings (s1 s2 : String) : option (list Object) :=
  TokenizingLineArrayCompareOutput.GetResult <$> CompareStrings_output s1 s2.

(** The chunks that [LiveEdit::CompareStrings] writes, in order. *)
Definition CompareStrings_chunks (s1 s2 : String) : option (list Chunk) :=
  output ← CompareStrings_output s1 s2;
  Some (CompareOutputArrayWriter.written_
          (TokenizingLineArrayCompareOutput.array_writer_ output)).

(** ** Translating positions *)

(** [GetArrayLength]: the length of a [JSArray] of this size is a small
    integer, so the check in it holds. *)
Definition GetArrayLength (array : list Object) : Z :=
  Z.of_nat (length array).

(** [JSReceiver::GetElement] followed by [CHECK(element->IsSmi())] and the
    cast to [Smi]: outside the array and at a hole the element is
    [undefined] and the check fails. *)
Definition GetSmiElement (array : list Object) (i : Z) : option Z :=
  if i <? 0 then None
  else match array !! Z.to_nat i with
       | Some (Smi value) => Some value
       | _ => None
       end.

(** The [for] loop of [TranslatePosition], from index [i]; the result is
    [position_diff] at the end of the loop.  This is the loop of a release
    build: [DCHECK(original_position >= chunk_end)] is compiled out of it,
    the three [CHECK]s (in [GetSmiElement]) are not. *)
Fixpoint TranslatePosition_loop (fuel : nat) (original_position : Z)
    (position_change_array : list Object) (array_len i position_diff : Z)
    : option Z :=
  match fuel with
  | 0%nat => None
  | S fuel =>
      if i <? array_len then
        chunk_start ← GetSmiElement position_change_array i;
        if original_position <? chunk_start then Some position_diff
        else
          chunk_end ← GetSmiElement position_change_array (i + 1);
          chunk_changed_end ← GetSmiElement position_change_array (i + 2);
          TranslatePosition_loop fuel original_position
            position_change_array array_len (i + 3)
            (chunk_changed_end - chunk_end)
      else Some position_diff
  end.

Definition TranslatePosition (original_position : Z)
    (position_change_array : list Object) : option Z :=
  let array_len := GetArrayLength position_change_array in
  position_diff ←
    TranslatePosition_loop (S (Z.to_nat array_len)) original_position
      position_change_array array_len 0 0;
  Some (original_position + position_diff).

(** The loop of a build with DCHECKs:
    [DCHECK(original_position >= chunk_end)] is a failure. *)
Fixpoint TranslatePosition_loop_dcheck (fuel : nat) (original_position : Z)
    (position_change_array : list Object) (array_len i position_diff : Z)
    : option Z :=
  match fuel with
  | 0%nat => None
  | S fuel =>
      if i <? array_len then
        chunk_start ← GetSmiElement position_change_array i;
        if original_position <? chunk_start then Some position_diff
        else
          chunk_end ← GetSmiElement position_change_array (i + 1);
          if negb (chunk_end <=? original_position) then None
          else
            chunk_changed_end ← GetSmiElement position_change_array (i + 2);
            TranslatePosition_loop_dcheck fuel original_position
              position_change_array array_len (i + 3)
              (chunk_changed_end - chunk_end)
      else Some position_diff
  end.

Definition TranslatePosition_dcheck (original_position : Z)
    (position_change_array : list Object) : option Z :=
  let array_len := GetArrayLength position_change_array in
  position_diff ←
    TranslatePosition_loop_dcheck (S (Z.to_nat array_len)) original_position
      position_change_array array_len 0 0;
  Some (original_position + position_diff).

(** ** Decimal output (src/profiler/output-stream-writer.h) *)

(** [MaxDecimalDigitsIn<bytes>]. *)
Definition MaxDecimalDigitsIn_kSigned (bytes : Z) : Z :=
  if bytes =? 4 then 11 else 20.
Definition MaxDecimalDigitsIn_kUnsigned (bytes : Z) : Z :=
  if bytes =? 4 then 10 else 20.

(** [buffer[index] = c] on a [Vector<char>]; [None] outside the vector. *)
Definition Vector_set (buffer : list Z) (index c : Z) : option (list Z) :=
  if index <? 0 then None
  else if Z.of_nat (length buffer) <=? index then None
  else Some (<[Z.to_nat index := c]> buffer).

(** [do { ++number_of_digits; } while (t /= 10);] *)
Fixpoint utoa_count_digits (fuel : nat) (t number_of_digits : Z)
    : option Z :=
  match fuel with
  | 0%nat => None
  | S fuel =>
      let number_of_digits := number_of_digits + 1 in
      let t := t / 10 in
      if negb (t =? 0) then utoa_count_digits fuel t number_of_digits
      else Some number_of_digits
  end.

(** [do { ... buffer[--buffer_pos] = '0' + last_digit; value /= 10; }
    while (value);] *)
Fixpoint utoa_write_digits (fuel : nat) (value : Z) (buffer : list Z)
    (buffer_pos : Z) : option (list Z) :=
  match fuel with
  | 0%nat => None
  | S fuel =>
      let last_digit := value mod 10 in
      let buffer_pos := buffer_pos - 1 in
      buffer ← Vector_set buffer buffer_pos (48 + last_digit);
      let value := value / 10 in
      if negb (value =? 0)
      then utoa_write_digits fuel value buffer buffer_pos
      else Some buffer
  end.

(** [utoa_impl] for an unsigned type [T] of [bits] bits; a value of [T] has
    at most [bits] decimal digits, which bounds the turns of both loops.
    The result is the buffer and the returned position. *)
Definition utoa_impl (bits : nat) (value : Z) (buffer : list Z)
    (buffer_pos : Z) : option (list Z * Z) :=
  number_of_digits ← utoa_count_digits bits value 0;
  let buffer_pos := buffer_pos + number_of_digits in
  let result := buffer_pos in
  buffer ← utoa_write_digits bits value buffer buffer_pos;
  Some (buffer, result).

(** [utoa]: the value is first converted to the unsigned type of its
    size. *)
Definition utoa (bits : nat) (value : Z) (buffer : list Z) (buffer_pos : Z)
    : option (list Z * Z) :=
  let unsigned_value := value mod 2 ^ Z.of_nat bits in
  utoa_impl bits unsigned_value buffer buffer_pos.

(** ** OutputStreamWriter (src/profiler/output-stream-writer.h)

    The [v8::OutputStream] behind the writer is not part of this code.
    It is kept as the list of calls made on it, oldest first, and its
    answer to [WriteAsciiChunk] is a function of the calls it has seen
    and of the data it is given.  [unibrow::Utf8::CalculateValue] and
    [unibrow::Utf8::kBadChar] are left open in the same way.  Characters
    are their codes.  [DCHECK]s are not compiled into release builds and
    are not modelled: where one would fail, the code runs on, and an
    access outside [chunk_] or outside a string is [None]. *)

Inductive WriteResult := kContinue | kAbort.

Inductive StreamCall :=
  | WriteAsciiChunk (data : list Z)
  | EndOfStream.

(** [MemCopy(dest + pos, src, size)], [src] being the [size] bytes read. *)
Definition MemCopy (dest : list Z) (pos : Z) (src : list Z)
    : option (list Z) :=
  if pos <? 0 then None
  else if Z.of_nat (length dest) <? pos + Z.of_nat (length src) then None
  else Some (take (Z.to_nat pos) dest ++ src
             ++ drop (Z.to_nat pos + length src) dest).

(** The [size] bytes at [s + pos] of a string [s]; a negative [size] is a
    huge [size_t]. *)
Definition read_bytes (s : list Z) (pos size : Z) : option (list Z) :=
  if (pos <? 0) || (size <? 0) then None
  else if Z.of_nat (length s) <? pos + size then None
  else Some (take (Z.to_nat size) (drop (Z.to_nat pos) s)).

(** [*(s + pos)] for a NUL-terminated string [s]: the terminator sits at
    [length s]. *)
Definition char_at (s : list Z) (pos : Z) : option Z :=
  if pos <? 0 then None
  else if pos =? Z.of_nat (length s) then Some 0
  else s !! Z.to_nat pos.

Module OutputStreamWriter.

Record t := mk {
  stream_ : list StreamCall;
  chunk_size_ : Z;
  chunk_ : list Z;
  chunk_pos_ : Z;
  aborted_ : bool
}.

(** The constructor, [GetChunkSize] being the stream's answer; the chunk
    starts with arbitrary contents, zeros here. *)
Definition new (GetChunkSize : Z) : t :=
  mk [] GetChunkSize (replicate (Z.to_nat GetChunkSize) 0) 0 false.

Definition aborted (w : t) : bool := aborted_ w.

Definition hex_chars : list Z :=
  [48; 49; 50; 51; 52; 53; 54; 55; 56; 57; 65; 66; 67; 68; 69; 70].

Section Methods.
Variable stream_answer : list StreamCall -> list Z -> WriteResult.
Variable Utf8_CalculateValue : list Z -> Z * Z.
Variable Utf8_kBadChar : Z.

Definition WriteChunk (w : t) : t :=
  if aborted_ w then w
  else
    let data := take (Z.to_nat (chunk_pos_ w)) (chunk_ w) in
    let aborted :=
      match stream_answer (stream_ w) data with
      | kAbort => true
      | kContinue => aborted_ w
      end in
    mk (stream_ w ++ [WriteAsciiChunk data]) (chunk_size_ w) (chunk_ w)
       0 aborted.

Definition MaybeWriteChunk (w : t) : t :=
  if chunk_pos_ w =? chunk_size_ w then WriteChunk w else w.

Definition AddCharacter (w : t) (c : Z) : option t :=
  chunk ← Vector_set (chunk_ w) (chunk_pos_ w) c;
  Some (MaybeWriteChunk
          (mk (stream_ w) (chunk_size_ w) chunk (chunk_pos_ w + 1)
              (aborted_ w))).

(** The loop of [AddSubstring]; [s] and [s_end] are offsets into [str]. *)
Fixpoint AddSubstring_loop (fuel : nat) (w : t) (str : list Z)
    (s s_end : Z) : option t :=
  match fuel with
  | 0%nat => None
  | S fuel =>
      if s <? s_end then
        let s_chunk_size :=
          Z.min (chunk_size_ w - chunk_pos_ w) (s_end - s) in
        src ← read_bytes str s s_chunk_size;
        chunk ← MemCopy (chunk_ w) (chunk_pos_ w) src;
        let s := s + s_chunk_size in
        let w :=
          MaybeWriteChunk
            (mk (stream_ w) (chunk_size_ w) chunk
                (chunk_pos_ w + s_chunk_size) (aborted_ w)) in
        AddSubstring_loop fuel w str s s_end
      else Some w
  end.

(** One turn of that loop on its own: the writer and [s] after the body
    of the [while]. *)
Definition AddSubstring_turn (w : t) (str : list Z) (s s_end : Z)
    : option (t * Z) :=
  let s_chunk_size :=
    Z.min (chunk_size_ w - chunk_pos_ w) (s_end - s) in
  src ← read_bytes str s s_chunk_size;
  chunk ← MemCopy (chunk_ w) (chunk_pos_ w) src;
  let s := s + s_chunk_size in
  let w :=
    MaybeWriteChunk
      (mk (stream_ w) (chunk_size_ w) chunk
          (chunk_pos_ w + s_chunk_size) (aborted_ w)) in
  Some (w, s).

Definition AddSubstring (fuel : nat) (w : t) (s : list Z) (n : Z)
    : option t :=
  if n <=? 0 then Some w
  else AddSubstring_loop fuel w s 0 (0 + n).

(** [strlen(s)] is the length of the list: the list holds the characters
    before the terminator. *)
Definition AddString (fuel : nat) (w : t) (s : list Z) : option t :=
  let len := Z.of_nat (length s) in
  AddSubstring fuel w s len.

Definition Finalize (w : t) : t :=
  if aborted_ w then w
  else
    let w := if negb (chunk_pos_ w =? 0) then WriteChunk w else w in
    mk (stream_ w ++ [EndOfStream]) (chunk_size_ w) (chunk_ w)
       (chunk_pos_ w) (aborted_ w).

Definition AddUChar (fuel : nat) (w : t) (u : Z) : option t :=
  w ← AddString fuel w [92; 117];
  w ← AddCharacter w (nth (Z.to_nat (Z.land (Z.shiftr u 12) 15)) hex_chars 0);
  w ← AddCharacter w (nth (Z.to_nat (Z.land (Z.shiftr u 8) 15)) hex_chars 0);
  w ← AddCharacter w (nth (Z.to_nat (Z.land (Z.shiftr u 4) 15)) hex_chars 0);
  AddCharacter w (nth (Z.to_nat (Z.land u 15)) hex_chars 0).

(** [for (; length <= 4 && *(s + length) != '\0'; ++length) {}] *)
Fixpoint SerializeString_length (fuel : nat) (str : list Z) (s length : Z)
    : option Z :=
  match fuel with
  | 0%nat => None
  | S fuel =>
      if length <=? 4 then
        c ← char_at str (s + length);
        if negb (c =? 0)
        then SerializeString_length fuel str s (length + 1)
        else Some length
      else Some length
  end.

(** The loop of [SerializeString]; [s] is an offset into [str]. *)
Fixpoint SerializeString_loop (fuel : nat) (w : t) (str : list Z) (s : Z)
    {struct fuel} : option t :=
  match fuel with
  | 0%nat => None
  | S fuel' =>
      c ← char_at str s;
      if c =? 0 then Some w
      else if c =? 8 then
        w ← AddString fuel w [92; 98];
        SerializeString_loop fuel' w str (s + 1)
      else if c =? 12 then
        w ← AddString fuel w [92; 102];
        SerializeString_loop fuel' w str (s + 1)
      else if c =? 10 then
        w ← AddString fuel w [92; 110];
        SerializeString_loop fuel' w str (s + 1)
      else if c =? 13 then
        w ← AddString fuel w [92; 114];
        SerializeString_loop fuel' w str (s + 1)
      else if c =? 9 then
        w ← AddString fuel w [92; 116];
        SerializeString_loop fuel' w str (s + 1)
      else if (c =? 34) || (c =? 92) then
        w ← AddCharacter w 92;
        w ← AddCharacter w c;
        SerializeString_loop fuel' w str (s + 1)
      else if (31 <? c) && (c <? 128) then
        w ← AddCharacter w c;
        SerializeString_loop fuel' w str (s + 1)
      else if c <=? 31 then
        w ← AddUChar fuel w c;
        SerializeString_loop fuel' w str (s + 1)
      else
        length ← SerializeString_length 5 str s 1;
        bytes ← read_bytes str s length;
        let '(c, cursor) := Utf8_CalculateValue bytes in
        if negb (c =? Utf8_kBadChar) then
          w ← AddUChar fuel w c;
          let s := s + (cursor - 1) in
          SerializeString_loop fuel' w str (s + 1)
        else
          w ← AddCharacter w 63;
          SerializeString_loop fuel' w str (s + 1)
  end.

Definition SerializeString (fuel : nat) (w : t) (s : list Z) : option t :=
  w ← AddCharacter w 10;
  w ← AddCharacter w 34;
  w ← SerializeString_loop fuel w s 0;
  AddCharacter w 34.

End Methods.
End OutputStreamWriter.

(** * Specification-level definitions *)

(** A classification step handed to the chunk merger. *)
Inductive Step := StepEq | StepSkip1 (n : Z) | StepSkip2 (n : Z).

(** Driving a [ResultWriter] with a classification stream. *)
Fixpoint run_steps {O : Type} `{Output O} (steps : list Step)
    (w : ResultWriter.t O) : option (ResultWriter.t O) :=
  match steps with
  | [] => Some w
  | StepEq :: steps => w ← ResultWriter.eq w; run_steps steps w
  | StepSkip1 n :: steps => run_steps steps (ResultWriter.skip1 n w)
  | StepSkip2 n :: steps => run_steps steps (ResultWriter.skip2 n w)
  end.

(** Handing a list of chunks to a sink, in order. *)
Fixpoint feed {O : Type} `{Output O} (cs : list Chunk) (o : O) : option O :=
  match cs with
  | [] => Some o
  | c :: cs =>
      o ← AddChunk (c_pos1 c) (c_pos2 c) (c_len1 c) (c_len2 c) o;
      feed cs o
  end.

(** The chunk that is open at cursors [(p1, p2)], if any, as a list. *)
Definition flush_open (p1 p2 : Z) (o : option (Z * Z)) : list Chunk :=
  match o with
  | Some (b1, b2) => [mkChunk b1 b2 (p1 - b1) (p2 - b2)]
  | None => []
  end.

(** The chunks that a classification stream merges into, from cursors
    [(p1, p2)] with the open chunk (if any) begun at [o]; the end of the
    stream closes the open chunk. *)
Fixpoint chunks_of_steps (steps : list Step) (p1 p2 : Z)
    (o : option (Z * Z)) : list Chunk :=
  match steps with
  | [] => flush_open p1 p2 o
  | StepEq :: steps =>
      flush_open p1 p2 o ++ chunks_of_steps steps (p1 + 1) (p2 + 1) None
  | StepSkip1 n :: steps =>
      chunks_of_steps steps (p1 + n) p2 (Some (default (p1, p2) o))
  | StepSkip2 n :: steps =>
      chunks_of_steps steps p1 (p2 + n) (Some (default (p1, p2) o))
  end.

(** Number of skipped elements and of matched pairs of a stream. *)
Fixpoint skips (steps : list Step) : Z :=
  match steps with
  | [] => 0
  | StepEq :: steps => skips steps
  | StepSkip1 n :: steps => n + skips steps
  | StepSkip2 n :: steps => n + skips steps
  end.

Fixpoint matches (steps : list Step) : Z :=
  match steps with
  | [] => 0
  | StepEq :: steps => 1 + matches steps
  | _ :: steps => matches steps
  end.

(** Number of elements a chunk list skips on either side. *)
Definition total_skipped (cs : list Chunk) : Z :=
  foldr (fun c acc => c_len1 c + c_len2 c + acc) 0 cs.

(** Another measure of a chunk list: every chunk counts each of its sides
    as at least one. *)
Definition padded_cost (cs : list Chunk) : Z :=
  foldr (fun c acc => Z.max (c_len1 c) 1 + Z.max (c_len2 c) 1 + acc) 0 cs.

Definition shift_chunk (d1 d2 : Z) (c : Chunk) : Chunk :=
  mkChunk (c_pos1 c + d1) (c_pos2 c + d2) (c_len1 c) (c_len2 c).

(** [Cover eqb i j cs i' j']: the chunks [cs], in order, together with runs
    of pairwise equal elements between them, lead from position [(i, j)] to
    position [(i', j')] of the two sequences. *)
Inductive Cover (eqb : Z -> Z -> bool)
    : Z -> Z -> list Chunk -> Z -> Z -> Prop :=
| cover_nil i j : Cover eqb i j [] i j
| cover_eq i j cs i' j' :
    eqb i j = true ->
    Cover eqb (i + 1) (j + 1) cs i' j' ->
    Cover eqb i j cs i' j'
| cover_chunk i j a b cs i' j' :
    0 <= a -> 0 <= b ->
    Cover eqb (i + a) (j + b) cs i' j' ->
    Cover eqb i j (mkChunk i j a b :: cs) i' j'.

Section Spec.
Context {I : Type} `{Input I} (input_ : I).

Definition measure (i j : Z) : nat :=
  (Z.to_nat (len1_ input_ - i) + Z.to_nat (len2_ input_ - j))%nat.

(** The cost recurrence of the table, as a function of the position. *)
Fixpoint cost_aux (n : nat) (i j : Z) : Z :=
  match n with
  | 0%nat => 0
  | S n =>
      if i <? len1_ input_ then
        if j <? len2_ input_ then
          if Equals input_ i j then cost_aux n (i + 1) (j + 1)
          else 1 + Z.min (cost_aux n (i + 1) j) (cost_aux n i (j + 1))
        else len1_ input_ - i
      else len2_ input_ - j
  end.

Definition cost (i j : Z) : Z := cost_aux (S (measure i j)) i j.

Definition dir (i j : Z) : Direction :=
  if Equals input_ i j then EQ
  else
    let r1 := cost (i + 1) j in
    let r2 := cost i (j + 1) in
    if r1 =? r2 then SKIP_ANY else if r1 <? r2 then SKIP1 else SKIP2.

Definition cell_value (i j : Z) : Z :=
  Z.lor (4 * cost i j) (Direction_to_int (dir i j)).

Definition in_grid (i j : Z) : Prop :=
  (0 <= i < len1_ input_) /\ (0 <= j < len2_ input_).

Definition filled (buffer_ : list Z) (i j : Z) : Prop :=
  get_cell input_ buffer_ i j = Some (cell_value i j).

(** The table invariant: every cell is empty or holds its cost and
    direction, and the cells that a filled cell was computed from are
    filled. *)
Record table_ok (buffer_ : list Z) : Prop := {
  tk_len : length buffer_ = Z.to_nat (len1_ input_ * len2_ input_);
  tk_cell : forall a b, in_grid a b ->
    get_cell input_ buffer_ a b = Some kEmptyCellValue \/ filled buffer_ a b;
  tk_eq : forall a b, in_grid a b -> filled buffer_ a b ->
    Equals input_ a b = true -> in_grid (a + 1) (b + 1) ->
    filled buffer_ (a + 1) (b + 1);
  tk_skip1 : forall a b, in_grid a b -> filled buffer_ a b ->
    Equals input_ a b = false -> in_grid (a + 1) b ->
    filled buffer_ (a + 1) b;
  tk_skip2 : forall a b, in_grid a b -> filled buffer_ a b ->
    Equals input_ a b = false -> in_grid a (b + 1) ->
    filled buffer_ a (b + 1)
}.

(** The classification stream that the directions of the table spell out
    from position [(i, j)]. *)
Fixpoint path_aux (n : nat) (i j : Z) : list Step :=
  match n with
  | 0%nat => []
  | S n =>
      if i <? len1_ input_ then
        if j <? len2_ input_ then
          match dir i j with
          | EQ => StepEq :: path_aux n (i + 1) (j + 1)
          | SKIP1 => StepSkip1 1 :: path_aux n (i + 1) j
          | SKIP2 | SKIP_ANY => StepSkip2 1 :: path_aux n i (j + 1)
          end
        else [StepSkip1 (len1_ input_ - i)]
      else if negb (len2_ input_ =? j) then [StepSkip2 (len2_ input_ - j)]
      else []
  end.

Definition path (i j : Z) : list Step := path_aux (S (measure i j)) i j.

(** The chunks of the comparison of [input_]. *)
Definition diff_chunks : list Chunk := chunks_of_steps (path 0 0) 0 0 None.

(** [Alignment i j steps]: the stream aligns the tails of the two sequences
    from [(i, j)]: equal steps pair equal elements, skip steps drop
    elements of one side, and both sequences are used up at the end. *)
Inductive Alignment : Z -> Z -> list Step -> Prop :=
| al_end : Alignment (len1_ input_) (len2_ input_) []
| al_eq i j p :
    0 <= i < len1_ input_ -> 0 <= j < len2_ input_ ->
    Equals input_ i j = true ->
    Alignment (i + 1) (j + 1) p -> Alignment i j (StepEq :: p)
| al_skip1 i j n p :
    0 < n -> Alignment (i + n) j p -> Alignment i j (StepSkip1 n :: p)
| al_skip2 i j n p :
    0 < n -> Alignment i (j + n) p -> Alignment i j (StepSkip2 n :: p).
End Spec.

(** The open chunk of a writer, if any. *)
Definition open_of {O : Type} (w : ResultWriter.t O) : option (Z * Z) :=
  if ResultWriter.has_open_chunk_ w
  then Some (ResultWriter.pos1_begin_ w, ResultWriter.pos2_begin_ w)
  else None.

(** A chunk replaces, deletes or inserts at least one element. *)
Definition nondegenerate (c : Chunk) : Prop :=
  0 <= c_len1 c /\ 0 <= c_len2 c /\ 1 <= c_len1 c + c_len2 c.

(** Equality of single code units of two whole strings. *)
Definition char_eqb (s1 s2 : String) (a b : Z) : bool :=
  Get s1 a =? Get s2 b.

(** Writing a list of chunks, in order. *)
Definition write_all (cs : list Chunk) (w : CompareOutputArrayWriter.t)
    : CompareOutputArrayWriter.t :=
  foldl (fun w c =>
           CompareOutputArrayWriter.WriteChunk
             (c_pos1 c) (c_pos2 c) (c_len1 c) (c_len2 c) w) w cs.

(** The three array elements of a chunk. *)
Definition encode_chunk (c : Chunk) : list Object :=
  [Smi (c_pos1 c); Smi (c_pos1 c + c_len1 c); Smi (c_pos2 c + c_len2 c)].

(** Reading the chunks back from the array: the start in the second text
    is not stored, it is the end of the previous chunk in the second text
    plus the distance from the end of the previous chunk in the first
    text. *)
Fixpoint decode_chunks (end1 end2 : Z) (a : list Object)
    : option (list Chunk) :=
  match a with
  | [] => Some []
  | Smi b1 :: Smi e1 :: Smi e2 :: a =>
      let b2 := end2 + (b1 - end1) in
      cs ← decode_chunks e1 e2 a;
      Some (mkChunk b1 b2 (e1 - b1) (e2 - b2) :: cs)
  | _ => None
  end.

(** Line ends are increasing positions inside the string. *)
Definition ends_below (ends : list Z) (bound : Z) : Prop :=
  (forall k, (k < length ends)%nat -> 0 <= nth k ends 0 < bound)
  /\ (forall k, (S k < length ends)%nat -> nth k ends 0 < nth (S k) ends 0).

Definition wf_line_ends (w : LineEndsWrapper.t) : Prop :=
  ends_below (LineEndsWrapper.ends_array_ w) (LineEndsWrapper.string_len_ w)
  /\ 0 <= LineEndsWrapper.string_len_ w.

(** The chunks that the line-level output writes for one line chunk: the
    chunks of the token comparison of the two character spans, moved to the
    spans, or the character span itself. *)
Definition expand_chunk (x : TokenizingLineArrayCompareOutput.t) (c : Chunk)
    : list Chunk :=
  let line_pos1 :=
    c_pos1 c + TokenizingLineArrayCompareOutput.subrange_offset1_ x in
  let line_pos2 :=
    c_pos2 c + TokenizingLineArrayCompareOutput.subrange_offset2_ x in
  let le1 := TokenizingLineArrayCompareOutput.line_ends1_ x in
  let le2 := TokenizingLineArrayCompareOutput.line_ends2_ x in
  let char_pos1 := LineEndsWrapper.GetLineStart le1 line_pos1 in
  let char_pos2 := LineEndsWrapper.GetLineStart le2 line_pos2 in
  let char_len1 :=
    LineEndsWrapper.GetLineStart le1 (line_pos1 + c_len1 c) - char_pos1 in
  let char_len2 :=
    LineEndsWrapper.GetLineStart le2 (line_pos2 + c_len2 c) - char_pos2 in
  if (char_len1 <? TokenizingLineArrayCompareOutput.CHUNK_LEN_LIMIT)
     && (char_len2 <? TokenizingLineArrayCompareOutput.CHUNK_LEN_LIMIT)
  then
    shift_chunk char_pos1 char_pos2 <$>
      diff_chunks (TokensCompareInput.mk
                     (TokenizingLineArrayCompareOutput.s1_ x)
                     char_pos1 char_len1
                     (TokenizingLineArrayCompareOutput.s2_ x)
                     char_pos2 char_len2)
  else [mkChunk char_pos1 char_pos2 char_len1 char_len2].

(** Consecutive chunks do not overlap, on either side. *)
Definition chunks_ordered (cs : list Chunk) : Prop :=
  forall (k : nat) c c',
    cs !! k = Some c -> cs !! S k = Some c' ->
    c_pos1 c + c_len1 c <= c_pos1 c' /\ c_pos2 c + c_len2 c <= c_pos2 c'.

(** The growth of the text over a list of chunks. *)
Definition length_delta (cs : list Chunk) : Z :=
  foldr (fun c acc => (c_len2 c - c_len1 c) + acc) 0 cs.

(** Applying chunks to [A] from position [cur] on: the text up to a chunk
    is kept, the span of the chunk is replaced by the span of [B]. *)
Fixpoint apply_chunks (A B : String) (cur : Z) (cs : list Chunk) : String :=
  match cs with
  | [] => drop (Z.to_nat cur) A
  | c :: cs =>
      take (Z.to_nat (c_pos1 c - cur)) (drop (Z.to_nat cur) A)
      ++ take (Z.to_nat (c_len2 c)) (drop (Z.to_nat (c_pos2 c)) B)
      ++ apply_chunks A B (c_pos1 c + c_len1 c) cs
  end.

(** The pipeline of [LiveEdit::CompareStrings] with the call of
    [NarrowDownInput] left out. *)
Definition CompareStrings_chunks_without_narrowing (s1 s2 : String)
    : option (list Chunk) :=
  let line_ends1 := LineEndsWrapper.new s1 in
  let line_ends2 := LineEndsWrapper.new s2 in
  let input := LineArrayCompareInput.new s1 s2 line_ends1 line_ends2 in
  let output :=
    TokenizingLineArrayCompareOutput.new line_ends1 line_ends2 s1 s2 in
  output ← CalculateDifference input output;
  Some (CompareOutputArrayWriter.written_
          (TokenizingLineArrayCompareOutput.array_writer_ output)).

(** The line view that [LiveEdit::CompareStrings] starts from. *)
Definition line_input (s1 s2 : String) : LineArrayCompareInput.t :=
  LineArrayCompareInput.new s1 s2 (LineEndsWrapper.new s1)
                            (LineEndsWrapper.new s2).

(** A sink that only records the chunks it is given. *)
#[global] Instance ChunkLog : Output (list Chunk) := {
  AddChunk pos1 pos2 len1 len2 log :=
    Some (log ++ [mkChunk pos1 pos2 len1 len2])
}.

(** The number of maximal runs of skip steps of a stream; [in_run] tells
    whether the stream continues a run. *)
Fixpoint skip_runs_from (in_run : bool) (steps : list Step) : nat :=
  match steps with
  | [] => 0
  | StepEq :: steps => skip_runs_from false steps
  | _ :: steps => ((if in_run then 0 else 1) + skip_runs_from true steps)%nat
  end.

(** A skip step of the first ([true]) or second ([false]) kind. *)
Definition skip_step (s : bool * Z) : Step :=
  if fst s then StepSkip1 (snd s) else StepSkip2 (snd s).

(** The elements that a run of skip steps skips on one side. *)
Definition skipped (side : bool) (run : list (bool * Z)) : Z :=
  foldr (fun s acc => (if eqb (fst s) side then snd s else 0) + acc) 0 run.

(** The token view and its output with the subrange methods that the
    trimming step needs; the code has them for the line view only. *)
#[global] Instance tokens_input_subrangable
    : Subrangable TokensCompareInput.t := {
  SetSubrange1 offset len x :=
    TokensCompareInput.mk
      (TokensCompareInput.s1_ x) (TokensCompareInput.offset1_ x + offset) len
      (TokensCompareInput.s2_ x) (TokensCompareInput.offset2_ x)
      (TokensCompareInput.len2_ x);
  SetSubrange2 offset len x :=
    TokensCompareInput.mk
      (TokensCompareInput.s1_ x) (TokensCompareInput.offset1_ x)
      (TokensCompareInput.len1_ x)
      (TokensCompareInput.s2_ x) (TokensCompareInput.offset2_ x + offset) len
}.

#[global] Instance tokens_output_subrangable
    : Subrangable TokensCompareOutput.t := {
  SetSubrange1 offset len x :=
    TokensCompareOutput.mk (TokensCompareOutput.array_writer_ x)
      (TokensCompareOutput.offset1_ x + offset)
      (TokensCompareOutput.offset2_ x);
  SetSubrange2 offset len x :=
    TokensCompareOutput.mk (TokensCompareOutput.array_writer_ x)
      (TokensCompareOutput.offset1_ x)
      (TokensCompareOutput.offset2_ x + offset)
}.

(** [AddChunk] of the line-level output as the specification words it:
    the nested token comparison is run with the trimming step first. *)
Definition AddChunk_with_trimmer (line_pos1 line_pos2 line_len1 line_len2 : Z)
    (x : TokenizingLineArrayCompareOutput.t)
    : option TokenizingLineArrayCompareOutput.t :=
  let line_pos1 :=
    line_pos1 + TokenizingLineArrayCompareOutput.subrange_offset1_ x in
  let line_pos2 :=
    line_pos2 + TokenizingLineArrayCompareOutput.subrange_offset2_ x in
  let le1 := TokenizingLineArrayCompareOutput.line_ends1_ x in
  let le2 := TokenizingLineArrayCompareOutput.line_ends2_ x in
  let char_pos1 := LineEndsWrapper.GetLineStart le1 line_pos1 in
  let char_pos2 := LineEndsWrapper.GetLineStart le2 line_pos2 in
  let char_len1 :=
    LineEndsWrapper.GetLineStart le1 (line_pos1 + line_len1) - char_pos1 in
  let char_len2 :=
    LineEndsWrapper.GetLineStart le2 (line_pos2 + line_len2) - char_pos2 in
  if (char_len1 <? TokenizingLineArrayCompareOutput.CHUNK_LEN_LIMIT)
     && (char_len2 <? TokenizingLineArrayCompareOutput.CHUNK_LEN_LIMIT)
  then
    let tokens_input :=
      TokensCompareInput.mk (TokenizingLineArrayCompareOutput.s1_ x)
                            char_pos1 char_len1
                            (TokenizingLineArrayCompareOutput.s2_ x)
                            char_pos2 char_len2 in
    let tokens_output :=
      TokensCompareOutput.mk
        (TokenizingLineArrayCompareOutput.array_writer_ x)
        char_pos1 char_pos2 in
    let '(tokens_input, tokens_output) :=
      NarrowDownInput tokens_input tokens_output in
    tokens_output ← CalculateDifference tokens_input tokens_output;
    Some (TokenizingLineArrayCompareOutput.set_array_writer
            (TokensCompareOutput.array_writer_ tokens_output) x)
  else
    Some (TokenizingLineArrayCompareOutput.set_array_writer
            (CompareOutputArrayWriter.WriteChunk
               char_pos1 char_pos2 char_len1 char_len2
               (TokenizingLineArrayCompareOutput.array_writer_ x))
            x).

(** The chunks written so far by a line-level output. *)
Definition written_chunks (x : TokenizingLineArrayCompareOutput.t)
    : list Chunk :=
  CompareOutputArrayWriter.written_
    (TokenizingLineArrayCompareOutput.array_writer_ x).

(** The scan of [TranslatePosition] over the rest of the array, as a
    recursion on the list of elements. *)
Fixpoint translate_scan (original_position : Z) (a : list Object)
    (position_diff : Z) : option Z :=
  match a with
  | [] => Some position_diff
  | Smi chunk_start :: a =>
      if original_position <? chunk_start then Some position_diff
      else match a with
           | Smi chunk_end :: Smi chunk_changed_end :: a =>
               translate_scan original_position a
                              (chunk_changed_end - chunk_end)
           | _ => None
           end
  | the_hole :: _ => None
  end.

(** A position of the first text that no chunk replaces. *)
Definition outside_chunks (p : Z) (cs : list Chunk) : Prop :=
  Forall (fun c => ~ (c_pos1 c <= p < c_pos1 c + c_len1 c)) cs.

(** The chunks that begin at or before a position. *)
Definition chunks_upto (p : Z) (cs : list Chunk) : list Chunk :=
  List.filter (fun c => c_pos1 c <=? p) cs.

(** A chunk lies inside the two sequences between two positions. *)
Definition chunk_within (i j i' j' : Z) (c : Chunk) : Prop :=
  (i <= c_pos1 c /\ 0 <= c_len1 c /\ c_pos1 c + c_len1 c <= i')
  /\ (j <= c_pos2 c /\ 0 <= c_len2 c /\ c_pos2 c + c_len2 c <= j').

(** Consecutive chunks are apart: at least one element of either sequence
    lies between them. *)
Definition chunks_separated (cs : list Chunk) : Prop :=
  forall (k : nat) c c',
    cs !! k = Some c -> cs !! S k = Some c' ->
    c_pos1 c + c_len1 c < c_pos1 c' /\ c_pos2 c + c_len2 c < c_pos2 c'.

(** The same, as a recursion: every chunk begins after the position
    [(e1, e2)] at which the previous one ended. *)
Fixpoint separated_from (e1 e2 : Z) (cs : list Chunk) : Prop :=
  match cs with
  | [] => True
  | c :: cs =>
      e1 < c_pos1 c /\ e2 < c_pos2 c
      /\ separated_from (c_pos1 c + c_len1 c) (c_pos2 c + c_len2 c) cs
  end.

(** The characters of line [k] of a string, its terminator included. *)
Definition line_text (s : String) (w : LineEndsWrapper.t) (k : Z) : String :=
  take (Z.to_nat (LineEndsWrapper.GetLineEnd w k
                  - LineEndsWrapper.GetLineStart w k))
       (drop (Z.to_nat (LineEndsWrapper.GetLineStart w k)) s).

(** The decimal digits of a value as characters, last digit first. *)
Fixpoint digits_rev (fuel : nat) (value : Z) : list Z :=
  match fuel with
  | 0%nat => []
  | S fuel =>
      (48 + value mod 10)
      :: (if value / 10 =? 0 then [] else digits_rev fuel (value / 10))
  end.

(** Reading a decimal number, first digit first. *)
Fixpoint parse_decimal (acc : Z) (ds : list Z) : Z :=
  match ds with
  | [] => acc
  | d :: ds => parse_decimal (10 * acc + (d - 48)) ds
  end.

(** ** The range of [int] *)

(** [kMaxInt], the largest [int]. *)
Definition kMaxInt : Z := 2 ^ 31 - 1.

(** The table of a comparison of [len1] with [len2] elements stays within
    [int]: the number of cells [len1 * len2], which the constructor and
    [Initialize] compute, and the largest value that a cell or a result of
    [CompareUpToTail] takes, four times [len1 + len2] with both direction
    bits set.  Beyond it the code overflows an [int]; the embedding, on
    unbounded integers, does not show that. *)
Definition table_fits (len1 len2 : Z) : Prop :=
  len1 * len2 <= kMaxInt /\ 4 * (len1 + len2) + 3 <= kMaxInt.

(** The same for the table of lines of [LiveEdit::CompareStrings], which is
    built for the lines that [NarrowDownInput] leaves.  The tables of the
    nested token comparisons have fewer than 800 by 800 cells and fit. *)
Definition CompareStrings_fits (s1 s2 : String) : Prop :=
  let '(input, _) :=
    NarrowDownInput (line_input s1 s2)
      (TokenizingLineArrayCompareOutput.new
         (LineEndsWrapper.new s1) (LineEndsWrapper.new s2) s1 s2) in
  table_fits (GetLength1 input) (GetLength2 input).

(** The line that begins the common suffix found by [NarrowDownInput]
    occurs in neither text between the common prefix and the common
    suffix. *)
Definition suffix_start_apart (s1 s2 : String) : Prop :=
  let input := line_input s1 s2 in
  let p := common_prefix_len input in
  let q := common_suffix_len input in
  0 < q ->
  (forall j, p <= j < GetLength2 input - q ->
     Equals input (GetLength1 input - q) j = false)
  /\ (forall i, p <= i < GetLength1 input - q ->
        Equals input i (GetLength2 input - q) = false).

(** The scan of [TranslatePosition] in a build with DCHECKs, as a
    recursion on the list of elements. *)
Fixpoint translate_scan_dcheck (original_position : Z) (a : list Object)
    (position_diff : Z) : option Z :=
  match a with
  | [] => Some position_diff
  | Smi chunk_start :: a =>
      if original_position <? chunk_start then Some position_diff
      else match a with
           | Smi chunk_end :: a' =>
               if negb (chunk_end <=? original_position) then None
               else match a' with
                    | Smi chunk_changed_end :: a =>
                        translate_scan_dcheck original_position a
                          (chunk_changed_end - chunk_end)
                    | _ => None
                    end
           | _ => None
           end
  | the_hole :: _ => None
  end.

(** ** The output stream writer *)

(** The characters a stream has been given, in order. *)
Fixpoint received (calls : list StreamCall) : list Z :=
  match calls with
  | [] => []
  | WriteAsciiChunk data :: calls => data ++ received calls
  | EndOfStream :: calls => received calls
  end.

(** The characters a writer holds back in its chunk. *)
Definition pending (w : OutputStreamWriter.t) : list Z :=
  take (Z.to_nat (OutputStreamWriter.chunk_pos_ w))
       (OutputStreamWriter.chunk_ w).

(** Everything added to a writer: what the stream has got and what is
    held back. *)
Definition contents (w : OutputStreamWriter.t) : list Z :=
  received (OutputStreamWriter.stream_ w) ++ pending w.

(** The state between two calls: the chunk has its size and is not
    full. *)
Definition healthy (w : OutputStreamWriter.t) : Prop :=
  Z.of_nat (length (OutputStreamWriter.chunk_ w))
  = OutputStreamWriter.chunk_size_ w
  /\ 0 <= OutputStreamWriter.chunk_pos_ w < OutputStreamWriter.chunk_size_ w.

(** A state in the middle of a call: the chunk may be full. *)
Definition loaded (w : OutputStreamWriter.t) : Prop :=
  Z.of_nat (length (OutputStreamWriter.chunk_ w))
  = OutputStreamWriter.chunk_size_ w
  /\ 0 <= OutputStreamWriter.chunk_pos_ w <= OutputStreamWriter.chunk_size_ w
  /\ 0 < OutputStreamWriter.chunk_size_ w.

(** Every call so far handed over one full chunk. *)
Definition full_chunks (size : Z) (calls : list StreamCall) : Prop :=
  Forall (fun call =>
            match call with
            | WriteAsciiChunk data => Z.of_nat (length data) = size
            | EndOfStream => False
            end) calls.

(** The state between two calls of a writer whose stream has not aborted
    and has been handed full chunks only. *)
Definition steady (w : OutputStreamWriter.t) : Prop :=
  healthy w /\ OutputStreamWriter.aborted_ w = false
  /\ full_chunks (OutputStreamWriter.chunk_size_ w)
                 (OutputStreamWriter.stream_ w).

(** [w'] is [w] with the characters [added] added. *)
Definition grows (w w' : OutputStreamWriter.t) (added : list Z) : Prop :=
  steady w'
  /\ OutputStreamWriter.chunk_size_ w' = OutputStreamWriter.chunk_size_ w
  /\ contents w' = contents w ++ added.

(** ** Reading back an escaped string *)

(** The value of a hexadecimal digit. *)
Definition hex_value (c : Z) : option Z :=
  if (48 <=? c) && (c <=? 57) then Some (c - 48)
  else if (65 <=? c) && (c <=? 70) then Some (c - 55)
  else if (97 <=? c) && (c <=? 102) then Some (c - 87)
  else None.

Definition hex4 (a b c d : Z) : option Z :=
  ha ← hex_value a;
  hb ← hex_value b;
  hc ← hex_value c;
  hd ← hex_value d;
  Some (((ha * 16 + hb) * 16 + hc) * 16 + hd).

(** The character that a backslash and [e] stand for in a JSON string. *)
Definition simple_escape (e : Z) : option Z :=
  if e =? 98 then Some 8
  else if e =? 102 then Some 12
  else if e =? 110 then Some 10
  else if e =? 114 then Some 13
  else if e =? 116 then Some 9
  else if e =? 34 then Some 34
  else if e =? 92 then Some 92
  else if e =? 47 then Some 47
  else None.

(** Reading the inside of a JSON string literal kept in seven-bit
    characters: the code units it stands for, or [None] when it is not
    well formed (a bare quote, a control character, a character above 127,
    an unknown or cut-off escape). *)
Fixpoint unescape (l : list Z) : option (list Z) :=
  match l with
  | [] => Some []
  | c :: l1 =>
      if c =? 92 then
        match l1 with
        | [] => None
        | e :: l2 =>
            if e =? 117 then
              match l2 with
              | a :: b :: c' :: d :: l3 =>
                  v ← hex4 a b c' d; r ← unescape l3; Some (v :: r)
              | _ => None
              end
            else v ← simple_escape e; r ← unescape l2; Some (v :: r)
        end
      else if (c <? 32) || (c =? 34) || (127 <? c) then None
      else r ← unescape l1; Some (c :: r)
  end.

(** [body] is made of whole characters and escapes, all between space
    and 127, that stand for the code units [dec]. *)
Definition encodes (body dec : list Z) : Prop :=
  Forall (fun c => 32 <= c <= 127) body
  /\ forall rest, unescape (body ++ rest)
                  = (r ← unescape rest; Some (dec ++ r)).

(** What [AddUChar] adds for [u]. *)
Definition uchar_escape (u : Z) : list Z :=
  [92; 117;
   nth (Z.to_nat (Z.land (Z.shiftr u 12) 15)) OutputStreamWriter.hex_chars 0;
   nth (Z.to_nat (Z.land (Z.shiftr u 8) 15)) OutputStreamWriter.hex_chars 0;
   nth (Z.to_nat (Z.land (Z.shiftr u 4) 15)) OutputStreamWriter.hex_chars 0;
   nth (Z.to_nat (Z.land u 15)) OutputStreamWriter.hex_chars 0].

(** * Proofs *)

(** ** Cells: packing a cost and a direction *)

Lemma kEmptyCellValue_eq : kEmptyCellValue = -4.
Proof. reflexivity. Qed.

Lemma value_mask_eq : to_int32 (Z.lxor kMaxUInt32 kDirectionMask) = Z.lnot 3.
Proof. reflexivity. Qed.

(** The static assertion of [StaticAssertHolder]. *)
Lemma StaticAssertHolder :
  MAX_DIRECTION_FLAG_VALUE < Z.shiftl 1 kDirectionSizeBits.
Proof. reflexivity. Qed.

Lemma Direction_to_int_range d : 0 <= Direction_to_int d < 4.
Proof. destruct d; simpl; lia. Qed.

Lemma Direction_of_to_int d : Direction_of_int (Direction_to_int d) = Some d.
Proof. by destruct d. Qed.

Lemma lor_value_dir c d :
  0 <= d < 4 -> Z.lor (4 * c) d = 4 * c + d.
Proof.
  intros Hd.
  rewrite <- Z.lxor_lor, <- Z.add_nocarry_lxor; try done.
  all: replace (4 * c) with (Z.shiftl c 2) by (rewrite Z.shiftl_mul_pow2; lia).
  all: apply Z.bits_inj'; intros n Hn; rewrite Z.land_spec, Z.bits_0.
  all: destruct (Z.ltb_spec n 2).
  all: try (rewrite Z.shiftl_spec_low by lia; done).
  all: rewrite (Z.bits_above_log2 d n), andb_false_r; try done; try lia.
  all: destruct (Z.eq_dec d 0) as [->|]; [simpl; lia|].
  all: apply Z.log2_lt_pow2; [lia|].
  all: apply Z.lt_le_trans with (2 ^ 2); [simpl; lia|].
  all: apply Z.pow_le_mono_r; lia.
Qed.

Lemma land_value4 c d :
  0 <= d < 4 -> Z.land (Z.lor (4 * c) d) (Z.lnot 3) = 4 * c.
Proof.
  intros Hd. rewrite lor_value_dir by done.
  rewrite <- Z.ldiff_land.
  change 3 with (Z.ones 2). rewrite Z.ldiff_ones_r by lia.
  rewrite Z.shiftr_div_pow2, Z.shiftl_mul_pow2 by lia.
  change (2 ^ 2) with 4.
  replace ((4 * c + d) / 4) with c; [lia|].
  apply Z.div_unique with d; lia.
Qed.

Lemma land_direction c d :
  0 <= d < 4 -> Z.land (Z.lor (4 * c) d) kDirectionMask = d.
Proof.
  intros Hd. rewrite lor_value_dir by done.
  change kDirectionMask with (Z.ones 2). rewrite Z.land_ones by lia.
  change (2 ^ 2) with 4.
  symmetry. apply Z.mod_unique with c; lia.
Qed.

Lemma shiftl_bits z : Z.shiftl z kDirectionSizeBits = 4 * z.
Proof. unfold kDirectionSizeBits. rewrite Z.shiftl_mul_pow2; lia. Qed.

Lemma shiftr_value4 c : Z.shiftr (4 * c) kDirectionSizeBits = c.
Proof.
  unfold kDirectionSizeBits. rewrite Z.shiftr_div_pow2 by lia.
  change (2 ^ 2) with 4. symmetry. apply Z.div_unique with 0; lia.
Qed.

(** ** The cost recurrence *)

Section CostTheory.
Context {I : Type} `{Input I} (input_ : I).
Local Abbreviation L1 := (len1_ input_).
Local Abbreviation L2 := (len2_ input_).

Lemma cost_aux_stable n : forall m i j,
  (measure input_ i j < n)%nat -> (measure input_ i j < m)%nat ->
  cost_aux input_ n i j = cost_aux input_ m i j.
Proof.
  unfold measure.
  induction n as [|n IH]; intros [|m] i j Hn Hm; try lia.
  simpl.
  destruct (Z.ltb_spec i L1); [|done].
  destruct (Z.ltb_spec j L2); [|done].
  rewrite (IH m (i + 1) (j + 1)), (IH m (i + 1) j), (IH m i (j + 1));
    try done; lia.
Qed.

Lemma cost_unfold i j :
  cost input_ i j =
    if i <? L1 then
      if j <? L2 then
        if Equals input_ i j then cost input_ (i + 1) (j + 1)
        else 1 + Z.min (cost input_ (i + 1) j) (cost input_ i (j + 1))
      else L1 - i
    else L2 - j.
Proof.
  unfold cost at 1. simpl.
  destruct (Z.ltb_spec i L1); [|done].
  destruct (Z.ltb_spec j L2); [|done].
  unfold cost.
  rewrite (cost_aux_stable _ (S (measure input_ (i + 1) (j + 1)))
             (i + 1) (j + 1)),
          (cost_aux_stable _ (S (measure input_ (i + 1) j)) (i + 1) j),
          (cost_aux_stable _ (S (measure input_ i (j + 1))) i (j + 1));
    try done; unfold measure; lia.
Qed.

Lemma cost_eq_step i j :
  i < L1 -> j < L2 -> Equals input_ i j = true ->
  cost input_ i j = cost input_ (i + 1) (j + 1).
Proof.
  intros Hi Hj He. rewrite cost_unfold, He.
  destruct (Z.ltb_spec i L1); [|lia]. destruct (Z.ltb_spec j L2); [done|lia].
Qed.

Lemma cost_neq_step i j :
  i < L1 -> j < L2 -> Equals input_ i j = false ->
  cost input_ i j =
    1 + Z.min (cost input_ (i + 1) j) (cost input_ i (j + 1)).
Proof.
  intros Hi Hj He. rewrite cost_unfold, He.
  destruct (Z.ltb_spec i L1); [|lia]. destruct (Z.ltb_spec j L2); [done|lia].
Qed.

Lemma cost_end1 i j : L1 <= i -> cost input_ i j = L2 - j.
Proof.
  intros Hi. rewrite cost_unfold. destruct (Z.ltb_spec i L1); [lia|done].
Qed.

Lemma cost_end2 i j : i < L1 -> L2 <= j -> cost input_ i j = L1 - i.
Proof.
  intros Hi Hj. rewrite cost_unfold.
  destruct (Z.ltb_spec i L1); [|lia]. destruct (Z.ltb_spec j L2); [lia|done].
Qed.

(** The cost is at least the difference of the remaining lengths. *)
Lemma cost_lower n : forall i j,
  (measure input_ i j <= n)%nat -> i <= L1 -> j <= L2 ->
  Z.abs ((L1 - i) - (L2 - j)) <= cost input_ i j.
Proof.
  induction n as [|n IH]; intros i j Hm Hi Hj.
  - unfold measure in Hm. rewrite cost_end1 by lia. lia.
  - destruct (Z.eq_dec i L1) as [->|]; [rewrite cost_end1 by lia; lia|].
    destruct (Z.eq_dec j L2) as [->|]; [rewrite cost_end2 by lia; lia|].
    unfold measure in Hm.
    assert (H1 := IH (i + 1) (j + 1)). assert (H2 := IH (i + 1) j).
    assert (H3 := IH i (j + 1)). unfold measure in H1, H2, H3.
    destruct (Equals input_ i j) eqn:He.
    + rewrite cost_eq_step by (done || lia). lia.
    + rewrite cost_neq_step by (done || lia). lia.
Qed.

Lemma cost_nonneg i j : i <= L1 -> j <= L2 -> 0 <= cost input_ i j.
Proof.
  intros Hi Hj. pose proof (cost_lower _ i j (le_n _) Hi Hj). lia.
Qed.

(** Moving one element further on either side changes the cost by at most
    one. *)
Lemma cost_lipschitz n : forall i j,
  (measure input_ i j <= n)%nat -> i <= L1 -> j <= L2 ->
  (i < L1 -> cost input_ i j <= 1 + cost input_ (i + 1) j
             /\ cost input_ (i + 1) j <= 1 + cost input_ i j) /\
  (j < L2 -> cost input_ i j <= 1 + cost input_ i (j + 1)
             /\ cost input_ i (j + 1) <= 1 + cost input_ i j).
Proof.
  induction n as [|n IH]; intros i j Hm Hi Hj.
  - unfold measure in Hm. split; intros; lia.
  - destruct (Z.eq_dec i L1) as [->|Hi'].
    { split; [lia|]. intros. rewrite !cost_end1 by lia. lia. }
    destruct (Z.eq_dec j L2) as [->|Hj'].
    { split; [|lia]. intros.
      rewrite cost_end2 by lia.
      destruct (Z.eq_dec (i + 1) L1) as [E|];
        [rewrite cost_end1 by lia | rewrite cost_end2 by lia]; lia. }
    unfold measure in Hm.
    assert (Hd : (measure input_ (i + 1) j <= n)%nat
                 /\ (measure input_ i (j + 1) <= n)%nat
                 /\ (measure input_ (i + 1) (j + 1) <= n)%nat)
      by (unfold measure; lia).
    destruct Hd as (Hd1 & Hd2 & Hd3).
    destruct (IH (i + 1) j Hd1 ltac:(lia) ltac:(lia)) as [_ A2].
    destruct (IH i (j + 1) Hd2 ltac:(lia) ltac:(lia)) as [B1 _].
    specialize (A2 ltac:(lia)). specialize (B1 ltac:(lia)).
    destruct (Equals input_ i j) eqn:He.
    + rewrite (cost_eq_step i j) by (done || lia). lia.
    + rewrite (cost_neq_step i j) by (done || lia). lia.
Qed.

Lemma cost_skip1 i j n :
  0 <= n -> i + n <= L1 -> j <= L2 ->
  cost input_ i j <= n + cost input_ (i + n) j.
Proof.
  intros Hn. revert i. pattern n. apply natlike_ind; [| |done].
  - intros i _ _. rewrite Z.add_0_r. lia.
  - intros k Hk IH i Hi Hj.
    destruct (cost_lipschitz _ i j (le_n _) ltac:(lia) Hj) as [A _].
    specialize (A ltac:(lia)). specialize (IH (i + 1) ltac:(lia) Hj).
    replace (i + Z.succ k) with (i + 1 + k) by lia. lia.
Qed.

Lemma cost_skip2 i j n :
  0 <= n -> i <= L1 -> j + n <= L2 ->
  cost input_ i j <= n + cost input_ i (j + n).
Proof.
  intros Hn. revert j. pattern n. apply natlike_ind; [| |done].
  - intros j _ _. rewrite Z.add_0_r. lia.
  - intros k Hk IH j Hi Hj.
    destruct (cost_lipschitz _ i j (le_n _) Hi ltac:(lia)) as [_ A].
    specialize (A ltac:(lia)). specialize (IH (j + 1) Hi ltac:(lia)).
    replace (j + Z.succ k) with (j + 1 + k) by lia. lia.
Qed.

(** Pairing two equal elements is never worse than skipping one. *)
Lemma cost_eq_le i j :
  i < L1 -> j < L2 ->
  cost input_ (i + 1) (j + 1) <= 1 + cost input_ (i + 1) j /\
  cost input_ (i + 1) (j + 1) <= 1 + cost input_ i (j + 1).
Proof.
  intros Hi Hj.
  destruct (cost_lipschitz _ (i + 1) j (le_n _) ltac:(lia) ltac:(lia))
    as [_ A].
  destruct (cost_lipschitz _ i (j + 1) (le_n _) ltac:(lia) ltac:(lia))
    as [B _].
  specialize (A ltac:(lia)). specialize (B ltac:(lia)). lia.
Qed.
End CostTheory.

(** ** The table *)

Section TableTheory.
Context {I : Type} `{Input I} (input_ : I).
Local Abbreviation L1 := (len1_ input_).
Local Abbreviation L2 := (len2_ input_).

Lemma cell_index_range a b :
  in_grid input_ a b -> 0 <= cell_index input_ a b < L1 * L2.
Proof.
  unfold in_grid, cell_index. intros [Ha Hb].
  assert (0 <= b * L1) by (apply Z.mul_nonneg_nonneg; lia).
  assert (b * L1 <= (L2 - 1) * L1)
    by (apply Z.mul_le_mono_nonneg_r; lia).
  lia.
Qed.

Lemma cell_index_inj a b a' b' :
  in_grid input_ a b -> in_grid input_ a' b' ->
  cell_index input_ a b = cell_index input_ a' b' -> a = a' /\ b = b'.
Proof.
  unfold in_grid, cell_index. intros [Ha Hb] [Ha' Hb'] E.
  assert (b = b'); [|subst; lia].
  destruct (Z.lt_trichotomy b b') as [Hlt|[->|Hlt]]; [|done|].
  - assert ((b + 1) * L1 <= b' * L1)
      by (apply Z.mul_le_mono_nonneg_r; lia). lia.
  - assert ((b' + 1) * L1 <= b * L1)
      by (apply Z.mul_le_mono_nonneg_r; lia). lia.
Qed.

Lemma get_cell_lookup buffer_ a b :
  in_grid input_ a b ->
  get_cell input_ buffer_ a b
  = buffer_ !! Z.to_nat (cell_index input_ a b).
Proof.
  intros Hg. unfold get_cell, buffer_get.
  pose proof (cell_index_range a b Hg).
  destruct (Z.ltb_spec (cell_index input_ a b) 0); [lia|done].
Qed.

Lemma Initialize_ok : table_ok input_ (Initialize input_).
Proof.
  assert (Hempty : forall a b, in_grid input_ a b ->
            get_cell input_ (Initialize input_) a b = Some kEmptyCellValue).
  { intros a b Hg. rewrite get_cell_lookup by done.
    apply lookup_replicate_2. pose proof (cell_index_range a b Hg). lia. }
  assert (Hnot : forall a b, in_grid input_ a b ->
            ~ filled input_ (Initialize input_) a b).
  { intros a b Hg. unfold filled. rewrite Hempty by done.
    unfold cell_value.
    pose proof (Direction_to_int_range (dir input_ a b)).
    rewrite lor_value_dir by done. intros [= E].
    destruct Hg as [Ha Hb].
    assert (0 <= cost input_ a b) by (apply cost_nonneg; lia).
    rewrite kEmptyCellValue_eq in E. lia. }
  split.
  - apply length_replicate.
  - intros a b Hg. left. by apply Hempty.
  - intros a b Hg Hf. by destruct (Hnot a b).
  - intros a b Hg Hf. by destruct (Hnot a b).
  - intros a b Hg Hf. by destruct (Hnot a b).
Qed.

Lemma filled_not_empty buffer_ a b :
  in_grid input_ a b -> filled input_ buffer_ a b ->
  get_value4 input_ buffer_ a b = Some (4 * cost input_ a b)
  /\ 4 * cost input_ a b <> kEmptyCellValue.
Proof.
  intros Hg Hf. unfold get_value4. rewrite Hf. simpl.
  rewrite value_mask_eq. unfold cell_value.
  rewrite land_value4 by apply Direction_to_int_range.
  split; [done|].
  destruct Hg as [Ha Hb].
  assert (0 <= cost input_ a b) by (apply cost_nonneg; lia).
  rewrite kEmptyCellValue_eq. lia.
Qed.

Lemma filled_direction buffer_ a b :
  filled input_ buffer_ a b ->
  get_direction input_ buffer_ a b = Some (dir input_ a b).
Proof.
  intros Hf. unfold get_direction. rewrite Hf. simpl. unfold cell_value.
  rewrite land_direction by apply Direction_to_int_range.
  apply Direction_of_to_int.
Qed.

(** Storing the cost and direction of a cell whose predecessors are filled
    keeps the table invariant. *)
Lemma store_cell_ok buffer_ i j :
  table_ok input_ buffer_ -> in_grid input_ i j ->
  (Equals input_ i j = true -> in_grid input_ (i + 1) (j + 1) ->
   filled input_ buffer_ (i + 1) (j + 1)) ->
  (Equals input_ i j = false -> in_grid input_ (i + 1) j ->
   filled input_ buffer_ (i + 1) j) ->
  (Equals input_ i j = false -> in_grid input_ i (j + 1) ->
   filled input_ buffer_ i (j + 1)) ->
  exists buffer',
    set_value4_and_dir input_ buffer_ i j (4 * cost input_ i j)
                       (dir input_ i j) = Some buffer'
    /\ table_ok input_ buffer'
    /\ (forall a b, in_grid input_ a b -> filled input_ buffer_ a b ->
        filled input_ buffer' a b)
    /\ filled input_ buffer' i j.
Proof.
  intros Hok Hg He Hs1 Hs2.
  pose proof (cell_index_range i j Hg) as Hr.
  pose proof (tk_len _ _ Hok) as Hlen.
  set (idx := Z.to_nat (cell_index input_ i j)).
  assert (Hidx : (idx < length buffer_)%nat) by (unfold idx; lia).
  exists (<[idx := cell_value input_ i j]> buffer_).
  assert (Hsame : filled input_ (<[idx := cell_value input_ i j]> buffer_)
                         i j).
  { unfold filled. rewrite get_cell_lookup by done.
    by apply list_lookup_insert_eq. }
  assert (Hother : forall a b, in_grid input_ a b -> (a, b) <> (i, j) ->
            get_cell input_ (<[idx := cell_value input_ i j]> buffer_) a b
            = get_cell input_ buffer_ a b).
  { intros a b Hab Hne. rewrite !get_cell_lookup by done.
    apply list_lookup_insert_ne. unfold idx. intros E.
    pose proof (cell_index_range a b Hab).
    destruct (cell_index_inj i j a b Hg Hab) as [-> ->]; [lia|done]. }
  assert (Hmono : forall a b, in_grid input_ a b ->
            filled input_ buffer_ a b ->
            filled input_ (<[idx := cell_value input_ i j]> buffer_) a b).
  { intros a b Hab Hf.
    destruct (decide ((a, b) = (i, j))) as [[= -> ->]|Hne]; [done|].
    unfold filled. by rewrite Hother. }
  assert (Hback : forall a b, in_grid input_ a b ->
            filled input_ (<[idx := cell_value input_ i j]> buffer_) a b ->
            (a, b) = (i, j) \/ filled input_ buffer_ a b).
  { intros a b Hab Hf.
    destruct (decide ((a, b) = (i, j))) as [|Hne]; [by left|right].
    unfold filled in *. by rewrite Hother in Hf. }
  split; [|split; [|split]]; try done.
  - unfold set_value4_and_dir, buffer_set.
    destruct (Z.ltb_spec (cell_index input_ i j) 0); [lia|].
    destruct (Z.leb_spec (Z.of_nat (length buffer_))
                         (cell_index input_ i j)); [lia|done].
  - split.
    + by rewrite length_insert.
    + intros a b Hab.
      destruct (decide ((a, b) = (i, j))) as [[= -> ->]|Hne]; [by right|].
      rewrite Hother by done.
      destruct (tk_cell _ _ Hok a b Hab) as [E|F]; [by left|right].
      by apply Hmono.
    + intros a b Hab Hf Heq Hn. apply Hmono; [done|].
      destruct (Hback a b Hab Hf) as [[= -> ->]|F]; [by apply He|].
      by apply (tk_eq _ _ Hok a b).
    + intros a b Hab Hf Heq Hn. apply Hmono; [done|].
      destruct (Hback a b Hab Hf) as [[= -> ->]|F]; [by apply Hs1|].
      by apply (tk_skip1 _ _ Hok a b).
    + intros a b Hab Hf Heq Hn. apply Hmono; [done|].
      destruct (Hback a b Hab Hf) as [[= -> ->]|F]; [by apply Hs2|].
      by apply (tk_skip2 _ _ Hok a b).
Qed.

(** The memoised recursion returns the packed cost, keeps the invariant and
    fills the cell it was asked for. *)
Lemma CompareUpToTail_spec fuel : forall i j buffer_,
  table_ok input_ buffer_ ->
  0 <= i <= L1 -> 0 <= j <= L2 ->
  (measure input_ i j < fuel)%nat ->
  exists buffer',
    CompareUpToTail input_ fuel i j buffer_
    = Some (4 * cost input_ i j, buffer')
    /\ table_ok input_ buffer'
    /\ (forall a b, in_grid input_ a b -> filled input_ buffer_ a b ->
        filled input_ buffer' a b)
    /\ (in_grid input_ i j -> filled input_ buffer' i j).
Proof.
  induction fuel as [|fuel IH]; intros i j buffer_ Hok Hi Hj Hm; [lia|].
  simpl.
  destruct (Z.ltb_spec i L1) as [Hi1|Hi1].
  2:{ exists buffer_. rewrite shiftl_bits, cost_end1 by lia.
      split; [done|]. split; [done|]. split; [done|]. intros [? ?]; lia. }
  destruct (Z.ltb_spec j L2) as [Hj1|Hj1].
  2:{ exists buffer_. rewrite shiftl_bits, cost_end2 by lia.
      split; [done|]. split; [done|]. split; [done|]. intros [? ?]; lia. }
  assert (Hg : in_grid input_ i j) by (unfold in_grid; lia).
  destruct (tk_cell _ _ Hok i j Hg) as [Hempty|Hfilled].
  2:{ destruct (filled_not_empty _ i j Hg Hfilled) as [-> Hne]. simpl.
      destruct (Z.eqb_spec (4 * cost input_ i j) kEmptyCellValue); [done|].
      by exists buffer_. }
  unfold get_value4. rewrite Hempty. simpl.
  assert (Hm1 : (measure input_ (i + 1) (j + 1) < fuel)%nat
                /\ (measure input_ (i + 1) j < fuel)%nat
                /\ (measure input_ i (j + 1) < fuel)%nat)
    by (unfold measure in *; lia).
  destruct Hm1 as (Hm1 & Hm2 & Hm3).
  destruct (Equals input_ i j) eqn:He.
  - destruct (IH (i + 1) (j + 1) buffer_ Hok ltac:(lia) ltac:(lia) Hm1)
      as (b1 & -> & Hok1 & Hmono1 & Hf1).
    simpl.
    destruct (store_cell_ok b1 i j Hok1 Hg) as (b2 & Hset & Hok2 & Hmono2 & Hf2);
      try done; try (intros; congruence).
    assert (Hd : dir input_ i j = EQ) by (unfold dir; by rewrite He).
    rewrite Hd, (cost_eq_step input_ i j) in Hset by done.
    rewrite Hset. simpl. rewrite (cost_eq_step input_ i j) by done.
    exists b2. split; [done|]. split; [done|]. split; [|done].
    intros a b Hab Hf. by apply Hmono2, Hmono1.
  - destruct (IH (i + 1) j buffer_ Hok ltac:(lia) ltac:(lia) Hm2)
      as (b1 & -> & Hok1 & Hmono1 & Hf1).
    simpl.
    destruct (IH i (j + 1) b1 Hok1 ltac:(lia) ltac:(lia) Hm3)
      as (b2 & -> & Hok2 & Hmono2 & Hf2).
    simpl.
    destruct (store_cell_ok b2 i j Hok2 Hg) as (b3 & Hset & Hok3 & Hmono3 & Hf3);
      try done; try (intros; congruence).
    { intros _ Hn. by apply Hmono2, Hf1. }
    rewrite !shiftl_bits.
    set (c1 := cost input_ (i + 1) j) in *.
    set (c2 := cost input_ i (j + 1)) in *.
    assert (Hc : cost input_ i j = 1 + Z.min c1 c2)
      by (by apply cost_neq_step).
    assert (Hres :
      (if 4 * c1 + 4 * 1 =? 4 * c2 + 4 * 1
       then Some (4 * c1 + 4 * 1, SKIP_ANY, b2)
       else if 4 * c1 + 4 * 1 <? 4 * c2 + 4 * 1
            then Some (4 * c1 + 4 * 1, SKIP1, b2)
            else Some (4 * c2 + 4 * 1, SKIP2, b2))
      = Some (4 * cost input_ i j, dir input_ i j, b2)).
    { unfold dir. rewrite He. fold c1 c2. simpl. rewrite Hc.
      destruct (Z.eqb_spec (4 * c1 + 4 * 1) (4 * c2 + 4 * 1)),
               (Z.eqb_spec c1 c2); try lia.
      - do 3 f_equal. lia.
      - destruct (Z.ltb_spec (4 * c1 + 4 * 1) (4 * c2 + 4 * 1)),
                 (Z.ltb_spec c1 c2); try lia; do 3 f_equal; lia. }
    rewrite Hres. simpl. rewrite Hset. simpl.
    exists b3. split; [done|]. split; [done|]. split; [|done].
    intros a b Hab Hf. by apply Hmono3, Hmono2, Hmono1.
Qed.
End TableTheory.

(** ** The chunk merger *)

Section WriterTheory.
Context {O : Type} `{Output O}.

Lemma feed_app (cs1 cs2 : list Chunk) (o : O) :
  feed (cs1 ++ cs2) o = feed cs1 o ≫= feed cs2.
Proof.
  revert o. induction cs1 as [|c cs1 IH]; intros o; simpl; [done|].
  destruct (AddChunk _ _ _ _ o); simpl; [apply IH|done].
Qed.

Lemma FlushChunk_feed (w : ResultWriter.t O) :
  ResultWriter.FlushChunk w
  = o ← feed (flush_open (ResultWriter.pos1_ w) (ResultWriter.pos2_ w)
                         (open_of w)) (ResultWriter.chunk_writer_ w);
    Some (ResultWriter.mk o (ResultWriter.pos1_ w) (ResultWriter.pos2_ w)
            (ResultWriter.pos1_begin_ w) (ResultWriter.pos2_begin_ w) false).
Proof.
  unfold ResultWriter.FlushChunk, open_of.
  destruct w as [o p1 p2 b1 b2 [|]]; simpl; [|done].
  by destruct (AddChunk _ _ _ _ o).
Qed.

(** Running a stream and closing the writer hands the sink exactly the
    chunks that the stream merges into. *)
Lemma run_steps_chunks (steps : list Step) : forall w : ResultWriter.t O,
  ResultWriter.chunk_writer_ <$> (run_steps steps w ≫= ResultWriter.close)
  = feed (chunks_of_steps steps (ResultWriter.pos1_ w)
            (ResultWriter.pos2_ w) (open_of w))
         (ResultWriter.chunk_writer_ w).
Proof.
  induction steps as [|[|n|n] steps IH]; intros w; simpl.
  - unfold ResultWriter.close. rewrite FlushChunk_feed.
    by destruct (feed _ _).
  - unfold ResultWriter.eq. rewrite FlushChunk_feed, feed_app.
    destruct (feed (flush_open _ _ _) _) as [o|]; simpl; [|done].
    by rewrite IH.
  - rewrite IH. by destruct w as [o p1 p2 b1 b2 [|]].
  - rewrite IH. by destruct w as [o p1 p2 b1 b2 [|]].
Qed.
End WriterTheory.

(** ** Path reconstruction *)

Section PathTheory.
Context {I : Type} `{Input I} (input_ : I).
Local Abbreviation L1 := (len1_ input_).
Local Abbreviation L2 := (len2_ input_).

Lemma path_aux_stable n : forall m i j,
  (measure input_ i j < n)%nat -> (measure input_ i j < m)%nat ->
  path_aux input_ n i j = path_aux input_ m i j.
Proof.
  unfold measure.
  induction n as [|n IH]; intros [|m] i j Hn Hm; try lia.
  simpl.
  destruct (Z.ltb_spec i L1); [|done].
  destruct (Z.ltb_spec j L2); [|done].
  rewrite (IH m (i + 1) (j + 1)), (IH m (i + 1) j), (IH m i (j + 1));
    try done; lia.
Qed.

Lemma path_unfold i j :
  path input_ i j =
    if i <? L1 then
      if j <? L2 then
        match dir input_ i j with
        | EQ => StepEq :: path input_ (i + 1) (j + 1)
        | SKIP1 => StepSkip1 1 :: path input_ (i + 1) j
        | SKIP2 | SKIP_ANY => StepSkip2 1 :: path input_ i (j + 1)
        end
      else [StepSkip1 (L1 - i)]
    else if negb (L2 =? j) then [StepSkip2 (L2 - j)] else [].
Proof.
  unfold path at 1. simpl.
  destruct (Z.ltb_spec i L1); [|done].
  destruct (Z.ltb_spec j L2); [|done].
  unfold path.
  rewrite (path_aux_stable _ (S (measure input_ (i + 1) (j + 1)))
             (i + 1) (j + 1)),
          (path_aux_stable _ (S (measure input_ (i + 1) j)) (i + 1) j),
          (path_aux_stable _ (S (measure input_ i (j + 1))) i (j + 1));
    try done; unfold measure; lia.
Qed.

Lemma dir_cases i j :
  match dir input_ i j with
  | EQ => Equals input_ i j = true
  | SKIP1 => Equals input_ i j = false
             /\ cost input_ (i + 1) j < cost input_ i (j + 1)
  | SKIP2 => Equals input_ i j = false
             /\ cost input_ i (j + 1) < cost input_ (i + 1) j
  | SKIP_ANY => Equals input_ i j = false
                /\ cost input_ (i + 1) j = cost input_ i (j + 1)
  end.
Proof.
  unfold dir. destruct (Equals input_ i j); [done|]. simpl.
  destruct (Z.eqb_spec (cost input_ (i + 1) j) (cost input_ i (j + 1)));
    [done|].
  destruct (Z.ltb_spec (cost input_ (i + 1) j) (cost input_ i (j + 1)));
    split; try done; lia.
Qed.

(** The loop of [SaveResult] feeds the writer the stream [path]. *)
Lemma SaveResult_loop_run {O : Type} `{Output O} buffer_ fuel :
  forall i j (w : ResultWriter.t O),
  table_ok input_ buffer_ ->
  0 <= i <= L1 -> 0 <= j <= L2 ->
  (in_grid input_ i j -> filled input_ buffer_ i j) ->
  (measure input_ i j < fuel)%nat ->
  SaveResult_loop input_ fuel buffer_ i j w = run_steps (path input_ i j) w.
Proof.
  intros i j w Hok. revert i j w.
  induction fuel as [|fuel IH]; intros i j w Hi Hj Hf Hm; [lia|].
  simpl. rewrite path_unfold. unfold SaveResult_step.
  destruct (Z.ltb_spec i L1) as [Hi1|Hi1].
  2:{ simpl. by destruct (negb (L2 =? j)). }
  destruct (Z.ltb_spec j L2) as [Hj1|Hj1]; [|done].
  assert (Hg : in_grid input_ i j) by (unfold in_grid; lia).
  specialize (Hf Hg). rewrite (filled_direction _ _ _ _ Hf). simpl.
  pose proof (dir_cases i j) as Hd.
  assert (Hm1 : (measure input_ (i + 1) (j + 1) < fuel)%nat
                /\ (measure input_ (i + 1) j < fuel)%nat
                /\ (measure input_ i (j + 1) < fuel)%nat)
    by (unfold measure in *; lia).
  destruct Hm1 as (Hm1 & Hm2 & Hm3).
  destruct (dir input_ i j); simpl.
  - destruct (ResultWriter.eq w) as [w'|]; simpl; [|done].
    apply IH; try done; try lia. by apply (tk_eq _ _ Hok i j).
  - destruct Hd as [He _].
    apply IH; try done; try lia. by apply (tk_skip1 _ _ Hok i j).
  - destruct Hd as [He _].
    apply IH; try done; try lia. by apply (tk_skip2 _ _ Hok i j).
  - destruct Hd as [He _].
    apply IH; try done; try lia. by apply (tk_skip2 _ _ Hok i j).
Qed.

(** The stream of the table is an alignment whose number of skips is the
    cost. *)
Lemma path_alignment n : forall i j,
  (measure input_ i j <= n)%nat -> 0 <= i <= L1 -> 0 <= j <= L2 ->
  Alignment input_ i j (path input_ i j)
  /\ skips (path input_ i j) = cost input_ i j.
Proof.
  induction n as [|n IH]; intros i j Hm Hi Hj; rewrite path_unfold.
  - unfold measure in Hm.
    assert (i = L1) as -> by lia. assert (j = L2) as -> by lia.
    rewrite Z.ltb_irrefl, Z.eqb_refl, cost_end1 by lia. simpl.
    split; [constructor|lia].
  - destruct (Z.ltb_spec i L1) as [Hi1|Hi1].
    2:{ assert (i = L1) as -> by lia. rewrite cost_end1 by lia.
        destruct (Z.eqb_spec L2 j) as [<-|Hne]; simpl.
        - split; [constructor|lia].
        - split; [|lia]. apply al_skip2; [lia|].
          replace (j + (L2 - j)) with L2 by lia. constructor. }
    destruct (Z.ltb_spec j L2) as [Hj1|Hj1].
    2:{ assert (j = L2) as -> by lia. rewrite cost_end2 by lia. simpl.
        split; [|lia]. apply al_skip1; [lia|].
        replace (i + (L1 - i)) with L1 by lia. constructor. }
    assert (Hm1 : (measure input_ (i + 1) (j + 1) <= n)%nat
                  /\ (measure input_ (i + 1) j <= n)%nat
                  /\ (measure input_ i (j + 1) <= n)%nat)
      by (unfold measure in *; lia).
    destruct Hm1 as (Hm1 & Hm2 & Hm3).
    destruct (IH (i + 1) (j + 1) Hm1 ltac:(lia) ltac:(lia)) as [A1 S1].
    destruct (IH (i + 1) j Hm2 ltac:(lia) ltac:(lia)) as [A2 S2].
    destruct (IH i (j + 1) Hm3 ltac:(lia) ltac:(lia)) as [A3 S3].
    pose proof (dir_cases i j) as Hd.
    destruct (dir input_ i j); simpl.
    + rewrite (cost_eq_step input_ i j) by done.
      split; [by apply al_eq; try lia|done].
    + destruct Hd as [He Hc]. rewrite (cost_neq_step input_ i j) by done.
      split; [by apply al_skip1|lia].
    + destruct Hd as [He Hc]. rewrite (cost_neq_step input_ i j) by done.
      split; [by apply al_skip2|lia].
    + destruct Hd as [He Hc]. rewrite (cost_neq_step input_ i j) by done.
      split; [by apply al_skip2|lia].
Qed.

Lemma in_grid_origin_dec : {in_grid input_ 0 0} + {L1 <= 0 \/ L2 <= 0}.
Proof.
  unfold in_grid.
  destruct (Z_lt_dec 0 L1); [|right; lia].
  destruct (Z_lt_dec 0 L2); [left; lia|right; lia].
Qed.

(** Outside the grid the loop ends at its first turn. *)
Lemma SaveResult_loop_run_outside {O : Type} `{Output O} buffer_ fuel
    (w : ResultWriter.t O) :
  L1 <= 0 \/ L2 <= 0 ->
  SaveResult_loop input_ (S fuel) buffer_ 0 0 w
  = run_steps (path input_ 0 0) w.
Proof.
  intros Hout. simpl. rewrite path_unfold. unfold SaveResult_step.
  destruct (Z.ltb_spec 0 L1) as [Hi1|Hi1].
  2:{ simpl. by destruct (negb (L2 =? 0)). }
  destruct (Z.ltb_spec 0 L2) as [Hj1|Hj1]; [lia|done].
Qed.

(** With a filled table [SaveResult] hands the sink [diff_chunks]. *)
Lemma SaveResult_feed {O : Type} `{Output O} buffer_ (o : O) :
  (in_grid input_ 0 0 ->
   table_ok input_ buffer_ /\ filled input_ buffer_ 0 0) ->
  SaveResult input_ buffer_ o = feed (diff_chunks input_) o.
Proof.
  intros Hf. unfold SaveResult.
  assert (E1 : SaveResult_loop input_ (table_fuel input_) buffer_ 0 0
                 (ResultWriter.new o)
               = run_steps (path input_ 0 0) (ResultWriter.new o)).
  { destruct in_grid_origin_dec as [Hg|Hout].
    - destruct (Hf Hg) as [Hok Hfill]. destruct Hg as [Hg1 Hg2].
      apply SaveResult_loop_run; try done; try lia.
      unfold table_fuel, measure. lia.
    - by apply SaveResult_loop_run_outside. }
  rewrite E1.
  pose proof (run_steps_chunks (path input_ 0 0) (ResultWriter.new o)) as E.
  etrans; [|exact E].
  destruct (run_steps _ _) as [w|]; simpl; [|done].
  by destruct (ResultWriter.close w).
Qed.

(** [CalculateDifference] never fails on its own account: it hands the
    sink the chunks [diff_chunks], in order. *)
Lemma CalculateDifference_feed {O : Type} `{Output O} (o : O) :
  CalculateDifference input_ o = feed (diff_chunks input_) o.
Proof.
  unfold CalculateDifference, FillTable.
  destruct in_grid_origin_dec as [Hg|Hout].
  - pose proof Hg as [Hg1 Hg2].
    destruct (CompareUpToTail_spec input_ (table_fuel input_) 0 0
                (Initialize input_)) as (b & -> & Hok & _ & Hf);
      try lia.
    + apply Initialize_ok.
    + unfold table_fuel, measure. lia.
    + simpl. apply SaveResult_feed. auto.
  - assert (E : CompareUpToTail input_ (table_fuel input_) 0 0
                  (Initialize input_)
                = Some (if 0 <? L1 then Z.shiftl (L1 - 0) kDirectionSizeBits
                        else Z.shiftl (L2 - 0) kDirectionSizeBits,
                        Initialize input_)).
    { unfold table_fuel. simpl.
      destruct (Z.ltb_spec 0 L1); [|done].
      destruct (Z.ltb_spec 0 L2); [lia|done]. }
    rewrite E. simpl. apply SaveResult_feed.
    intros [? ?]. lia.
Qed.
End PathTheory.

(** ** Coverings *)

Section CoverTheory.
Context (eqb : Z -> Z -> bool).

Lemma Cover_le i j cs i' j' : Cover eqb i j cs i' j' -> i <= i' /\ j <= j'.
Proof. induction 1; lia. Qed.

Lemma Cover_app i j cs1 k l cs2 i' j' :
  Cover eqb i j cs1 k l -> Cover eqb k l cs2 i' j' ->
  Cover eqb i j (cs1 ++ cs2) i' j'.
Proof.
  induction 1 as [| ? ? ? ? ? He _ IH | ? ? ? ? ? ? ? Ha Hb _ IH];
    intros Hc; simpl.
  - done.
  - apply cover_eq; [done|]. by apply IH.
  - apply cover_chunk; [done..|]. by apply IH.
Qed.

(** A run of pairwise equal elements is covered by no chunk. *)
Lemma Cover_equal_run (n : nat) : forall i j,
  (forall k, 0 <= k < Z.of_nat n -> eqb (i + k) (j + k) = true) ->
  Cover eqb i j [] (i + Z.of_nat n) (j + Z.of_nat n).
Proof.
  induction n as [|n IH]; intros i j He.
  - rewrite !Z.add_0_r. constructor.
  - apply cover_eq.
    + specialize (He 0). rewrite !Z.add_0_r in He. apply He. lia.
    + replace (i + Z.of_nat (S n)) with (i + 1 + Z.of_nat n) by lia.
      replace (j + Z.of_nat (S n)) with (j + 1 + Z.of_nat n) by lia.
      apply IH. intros k Hk.
      replace (i + 1 + k) with (i + (k + 1)) by lia.
      replace (j + 1 + k) with (j + (k + 1)) by lia.
      apply He. lia.
Qed.
End CoverTheory.

Lemma Cover_ext eqb eqb' i j cs i' j' :
  (forall a b, eqb a b = eqb' a b) ->
  Cover eqb i j cs i' j' -> Cover eqb' i j cs i' j'.
Proof.
  intros E. induction 1.
  - constructor.
  - apply cover_eq; [by rewrite <- E|done].
  - by apply cover_chunk.
Qed.

(** Coverings move with the sequences. *)
Lemma Cover_shift eqb d1 d2 i j cs i' j' :
  Cover (fun a b => eqb (a + d1) (b + d2)) i j cs i' j' ->
  Cover eqb (i + d1) (j + d2) (shift_chunk d1 d2 <$> cs) (i' + d1) (j' + d2).
Proof.
  induction 1 as [| ? ? ? ? ? He _ IH | ? ? ? ? ? ? ? Ha Hb _ IH]; simpl.
  - constructor.
  - apply cover_eq; [done|].
    replace (i + d1 + 1) with (i + 1 + d1) by lia.
    by replace (j + d2 + 1) with (j + 1 + d2) by lia.
  - unfold shift_chunk at 1. simpl. apply cover_chunk; [done..|].
    replace (i + d1 + a) with (i + a + d1) by lia.
    by replace (j + d2 + b) with (j + b + d2) by lia.
Qed.

Lemma total_skipped_app cs1 cs2 :
  total_skipped (cs1 ++ cs2) = total_skipped cs1 + total_skipped cs2.
Proof. induction cs1 as [|c cs1 IH]; simpl; lia. Qed.

(** The elements that the merged chunks skip are the skips of the stream. *)
Lemma chunks_total steps : forall i j,
  total_skipped (chunks_of_steps steps i j None) = skips steps
  /\ forall b1 b2,
       total_skipped (chunks_of_steps steps i j (Some (b1, b2)))
       = (i - b1) + (j - b2) + skips steps.
Proof.
  induction steps as [|[|n|n] steps IH]; intros i j; simpl.
  - split; [done|]. intros. lia.
  - destruct (IH (i + 1) (j + 1)) as [E _]. split; [done|].
    intros. simpl. lia.
  - destruct (IH (i + n) j) as [_ E]. split; [|intros]; rewrite E; lia.
  - destruct (IH i (j + n)) as [_ E]. split; [|intros]; rewrite E; lia.
Qed.

Section AlignmentTheory.
Context {I : Type} `{Input I} (input_ : I).
Local Abbreviation L1 := (len1_ input_).
Local Abbreviation L2 := (len2_ input_).

Lemma Alignment_le i j p : Alignment input_ i j p -> i <= L1 /\ j <= L2.
Proof. induction 1; lia. Qed.

Lemma Alignment_count i j p :
  Alignment input_ i j p -> (L1 - i) + (L2 - j) = 2 * matches p + skips p.
Proof. induction 1; simpl; lia. Qed.

(** No alignment skips fewer elements than the cost of the table. *)
Lemma cost_le_alignment i j p :
  Alignment input_ i j p -> cost input_ i j <= skips p.
Proof.
  induction 1 as [| i j p Hi Hj He Ha IH | i j n p Hn Ha IH
                  | i j n p Hn Ha IH]; simpl.
  - rewrite cost_end1; lia.
  - rewrite cost_eq_step by (done || lia). done.
  - destruct (Alignment_le _ _ _ Ha).
    pose proof (cost_skip1 input_ i j n). lia.
  - destruct (Alignment_le _ _ _ Ha).
    pose proof (cost_skip2 input_ i j n). lia.
Qed.

(** The chunks that an alignment merges into cover the two sequences. *)
Lemma chunks_cover i j steps :
  Alignment input_ i j steps ->
  Cover (Equals input_) i j (chunks_of_steps steps i j None) L1 L2
  /\ forall b1 b2, b1 <= i -> b2 <= j ->
       Cover (Equals input_) b1 b2
             (chunks_of_steps steps i j (Some (b1, b2))) L1 L2.
Proof.
  induction 1 as [| i j p Hi Hj He Ha [IH1 IH2] | i j n p Hn Ha [IH1 IH2]
                  | i j n p Hn Ha [IH1 IH2]]; simpl.
  - split; [constructor|]. intros b1 b2 H1 H2.
    apply cover_chunk; try lia.
    replace (b1 + (L1 - b1)) with L1 by lia.
    replace (b2 + (L2 - b2)) with L2 by lia. constructor.
  - split; [by apply cover_eq|]. intros b1 b2 H1 H2.
    apply cover_chunk; try lia.
    replace (b1 + (i - b1)) with i by lia.
    replace (b2 + (j - b2)) with j by lia. by apply cover_eq.
  - split; [|intros b1 b2 H1 H2]; apply IH2; lia.
  - split; [|intros b1 b2 H1 H2]; apply IH2; lia.
Qed.

(** Every chunk that an alignment merges into has an element. *)
Lemma chunks_nondegenerate i j steps :
  Alignment input_ i j steps ->
  Forall nondegenerate (chunks_of_steps steps i j None)
  /\ forall b1 b2, b1 <= i -> b2 <= j -> 1 <= (i - b1) + (j - b2) ->
       Forall nondegenerate (chunks_of_steps steps i j (Some (b1, b2))).
Proof.
  induction 1 as [| i j p Hi Hj He Ha [IH1 IH2] | i j n p Hn Ha [IH1 IH2]
                  | i j n p Hn Ha [IH1 IH2]]; simpl.
  - split; [constructor|]. intros b1 b2 H1 H2 H3.
    constructor; [|constructor]. unfold nondegenerate. simpl. lia.
  - split; [done|]. intros b1 b2 H1 H2 H3.
    constructor; [|done]. unfold nondegenerate. simpl. lia.
  - split; [|intros b1 b2 H1 H2 H3]; apply IH2; lia.
  - split; [|intros b1 b2 H1 H2 H3]; apply IH2; lia.
Qed.

(** No covering skips fewer elements than the cost of the table. *)
Lemma cover_cost i j cs i' j' :
  Cover (Equals input_) i j cs i' j' -> i' = L1 -> j' = L2 ->
  cost input_ i j <= total_skipped cs.
Proof.
  induction 1 as [| i j cs i' j' He Hc IH | i j a b cs i' j' Ha Hb Hc IH];
    intros -> ->; simpl.
  - rewrite cost_end1; lia.
  - destruct (Cover_le _ _ _ _ _ _ Hc).
    rewrite cost_eq_step by (done || lia). by apply IH.
  - destruct (Cover_le _ _ _ _ _ _ Hc).
    specialize (IH eq_refl eq_refl).
    pose proof (cost_skip1 input_ i j a).
    pose proof (cost_skip2 input_ (i + a) j b). lia.
Qed.
End AlignmentTheory.

(** ** Line ends *)

Lemma ends_below_nil b : ends_below [] b.
Proof. split; simpl; intros; lia. Qed.

Lemma ends_below_mono ends b b' :
  b <= b' -> ends_below ends b -> ends_below ends b'.
Proof.
  intros Hb [H1 H2]. split; [|done].
  intros k Hk. specialize (H1 k Hk). lia.
Qed.

Lemma ends_below_snoc ends b e :
  0 <= e -> b <= e -> ends_below ends b -> ends_below (ends ++ [e]) (e + 1).
Proof.
  intros He Hb [H1 H2]. split.
  - intros k Hk. rewrite length_app in Hk. simpl in Hk.
    destruct (decide (k < length ends)%nat) as [Hlt|Hge].
    + rewrite app_nth1 by done. specialize (H1 k Hlt). lia.
    + rewrite app_nth2 by lia.
      replace (k - length ends)%nat with 0%nat by lia. simpl. lia.
  - intros k Hk. rewrite length_app in Hk. simpl in Hk.
    rewrite (app_nth1 _ _ _ (n := k)) by lia.
    destruct (decide (S k < length ends)%nat) as [Hlt|Hge].
    + rewrite app_nth1 by done. by apply H2.
    + rewrite app_nth2 by lia.
      replace (S k - length ends)%nat with 0%nat by lia. simpl.
      specialize (H1 k ltac:(lia)). lia.
Qed.

Lemma CalculateLineEnds_scan_below src n : forall i acc,
  0 <= i -> ends_below acc i ->
  ends_below (CalculateLineEnds_scan src n i acc) (i + Z.of_nat n).
Proof.
  induction n as [|n IH]; intros i acc Hi Hacc.
  - simpl. by rewrite Z.add_0_r.
  - simpl CalculateLineEnds_scan.
    replace (i + Z.of_nat (S n)) with (i + 1 + Z.of_nat n) by lia.
    apply IH; [lia|].
    destruct (IsLineTerminatorSequence _ _).
    + apply ends_below_snoc with i; [lia|lia|done].
    + apply ends_below_mono with i; [lia|done].
Qed.

Lemma LineEndsWrapper_new_wf (s : String) :
  wf_line_ends (LineEndsWrapper.new s).
Proof.
  unfold wf_line_ends, LineEndsWrapper.new, CalculateLineEnds. simpl.
  split; [|unfold String_length; lia].
  set (len := String_length s).
  assert (Hlen : 0 <= len) by (unfold len, String_length; lia).
  pose proof (CalculateLineEnds_scan_below s (Z.to_nat (len - 1)) 0 []
                ltac:(lia) (ends_below_nil 0)) as Hscan.
  destruct (Z.ltb_spec 0 len) as [Hpos|Hzero]; simpl.
  - replace (0 + Z.of_nat (Z.to_nat (len - 1))) with (len - 1) in Hscan
      by lia.
    destruct (IsLineTerminatorSequence _ _).
    + apply ends_below_mono with (len - 1 + 1); [lia|].
      apply ends_below_snoc with (len - 1); [lia|lia|done].
    + apply ends_below_mono with (len - 1); [lia|done].
  - replace (Z.to_nat (len - 1)) with 0%nat in * by lia.
    simpl in *. apply ends_below_mono with 0; [lia|apply ends_below_nil].
Qed.

Section LineEndsTheory.
Context (w : LineEndsWrapper.t) (Hwf : wf_line_ends w).
Local Abbreviation start := (LineEndsWrapper.GetLineStart w).

Lemma GetLineStart_succ k :
  0 <= k -> start (k + 1) = LineEndsWrapper.GetLineEnd w k.
Proof.
  intros Hk. unfold LineEndsWrapper.GetLineStart.
  destruct (Z.eqb_spec (k + 1) 0); [lia|]. f_equal. lia.
Qed.

Lemma GetLineStart_last : start (LineEndsWrapper.length w)
                          = LineEndsWrapper.string_len_ w.
Proof.
  unfold LineEndsWrapper.length. rewrite GetLineStart_succ by lia.
  unfold LineEndsWrapper.GetLineEnd. by rewrite Z.eqb_refl.
Qed.

Lemma GetLineStart_step k :
  0 <= k < LineEndsWrapper.length w -> start k <= start (k + 1).
Proof using Hwf.
  destruct Hwf as [[H1 H2] H3].
  unfold LineEndsWrapper.length. intros Hk.
  rewrite GetLineStart_succ by lia.
  unfold LineEndsWrapper.GetLineStart, LineEndsWrapper.GetLineEnd,
    LineEndsWrapper.GetPosAfterNewLine.
  set (ends := LineEndsWrapper.ends_array_ w) in *.
  destruct (Z.eqb_spec k 0) as [->|Hk0].
  - destruct (Z.eqb_spec 0 (Z.of_nat (length ends))); [done|].
    specialize (H1 (Z.to_nat 0) ltac:(lia)). lia.
  - destruct (Z.eqb_spec (k - 1) (Z.of_nat (length ends))); [lia|].
    specialize (H1 (Z.to_nat (k - 1)) ltac:(lia)).
    destruct (Z.eqb_spec k (Z.of_nat (length ends))); [lia|].
    specialize (H2 (Z.to_nat (k - 1)) ltac:(lia)).
    replace (S (Z.to_nat (k - 1))) with (Z.to_nat k) in H2 by lia. lia.
Qed.

Lemma GetLineStart_mono_nat (n : nat) : forall a,
  0 <= a -> a + Z.of_nat n <= LineEndsWrapper.length w ->
  start a <= start (a + Z.of_nat n).
Proof using Hwf.
  induction n as [|n IH]; intros a Ha Hb.
  - rewrite Z.add_0_r. lia.
  - replace (a + Z.of_nat (S n)) with (a + 1 + Z.of_nat n) by lia.
    pose proof (GetLineStart_step a ltac:(lia)).
    specialize (IH (a + 1) ltac:(lia) ltac:(lia)). lia.
Qed.

Lemma GetLineStart_mono a b :
  0 <= a <= b -> b <= LineEndsWrapper.length w -> start a <= start b.
Proof using Hwf.
  intros Hab Hb.
  pose proof (GetLineStart_mono_nat (Z.to_nat (b - a)) a ltac:(lia)
                ltac:(lia)) as Hm.
  by replace (a + Z.of_nat (Z.to_nat (b - a))) with b in Hm by lia.
Qed.
End LineEndsTheory.

(** ** The chunks of one comparison *)

Section DiffTheory.
Context {I : Type} `{Input I} (input_ : I).
Hypothesis Hlen1 : 0 <= len1_ input_.
Hypothesis Hlen2 : 0 <= len2_ input_.

Lemma diff_chunks_path :
  Alignment input_ 0 0 (path input_ 0 0)
  /\ skips (path input_ 0 0) = cost input_ 0 0.
Proof using Hlen1 Hlen2. apply (path_alignment input_ _ 0 0 (le_n _)); lia. Qed.

Lemma diff_chunks_cover :
  Cover (Equals input_) 0 0 (diff_chunks input_)
        (len1_ input_) (len2_ input_).
Proof using Hlen1 Hlen2.
  destruct diff_chunks_path as [Ha _].
  by destruct (chunks_cover input_ 0 0 _ Ha).
Qed.

Lemma diff_chunks_nondegenerate : Forall nondegenerate (diff_chunks input_).
Proof using Hlen1 Hlen2.
  destruct diff_chunks_path as [Ha _].
  by destruct (chunks_nondegenerate input_ 0 0 _ Ha).
Qed.

Lemma diff_chunks_total : total_skipped (diff_chunks input_) = cost input_ 0 0.
Proof using Hlen1 Hlen2.
  destruct diff_chunks_path as [_ <-].
  by destruct (chunks_total (path input_ 0 0) 0 0).
Qed.
End DiffTheory.

(** ** Token view *)

Lemma write_all_app cs1 cs2 w :
  write_all (cs1 ++ cs2) w = write_all cs2 (write_all cs1 w).
Proof. apply foldl_app. Qed.

Lemma written_write_all cs : forall w,
  CompareOutputArrayWriter.written_ (write_all cs w)
  = CompareOutputArrayWriter.written_ w ++ cs.
Proof.
  induction cs as [|c cs IH]; intros w; simpl.
  - by rewrite app_nil_r.
  - rewrite IH. simpl. rewrite <- app_assoc. by destruct c.
Qed.

Lemma feed_tokens_output cs : forall aw o1 o2,
  feed cs (TokensCompareOutput.mk aw o1 o2)
  = Some (TokensCompareOutput.mk
            (write_all (shift_chunk o1 o2 <$> cs) aw) o1 o2).
Proof.
  induction cs as [|c cs IH]; intros aw o1 o2; simpl; [done|].
  by rewrite IH.
Qed.

(** The chunks of a token comparison, moved to the two spans, cover the
    spans. *)
Lemma tokens_cover s1 cp1 cl1 s2 cp2 cl2 :
  0 <= cl1 -> 0 <= cl2 ->
  Cover (char_eqb s1 s2) cp1 cp2
        (shift_chunk cp1 cp2 <$>
           diff_chunks (TokensCompareInput.mk s1 cp1 cl1 s2 cp2 cl2))
        (cp1 + cl1) (cp2 + cl2).
Proof.
  intros H1 H2.
  set (ti := TokensCompareInput.mk s1 cp1 cl1 s2 cp2 cl2).
  pose proof (diff_chunks_cover ti H1 H2) as Hc.
  apply (Cover_ext _ (fun a b => char_eqb s1 s2 (a + cp1) (b + cp2))) in Hc.
  2:{ intros a b. simpl. unfold char_eqb.
      by rewrite (Z.add_comm a), (Z.add_comm b). }
  apply Cover_shift in Hc. simpl in Hc.
  by rewrite (Z.add_comm cp1), (Z.add_comm cp2).
Qed.

(** ** Line view *)

Lemma CompareSubstrings_loop_true s1 pos1 s2 pos2 n : forall i,
  CompareSubstrings_loop s1 pos1 s2 pos2 n i = true ->
  forall k, i <= k < i + Z.of_nat n ->
    Get s1 (k + pos1) = Get s2 (k + pos2).
Proof.
  induction n as [|n IH]; intros i Hl k Hk; [lia|].
  simpl in Hl.
  destruct (Z.eqb_spec (Get s1 (i + pos1)) (Get s2 (i + pos2))) as [E|];
    [|done].
  simpl in Hl. destruct (Z.eq_dec k i) as [->|]; [done|].
  apply (IH (i + 1)); [done|lia].
Qed.

Section LineTheory.
Context (s1 s2 : String) (le1 le2 : LineEndsWrapper.t).
Context (Hwf1 : wf_line_ends le1) (Hwf2 : wf_line_ends le2).
Context (o1 o2 : Z).
Local Abbreviation start1 := (LineEndsWrapper.GetLineStart le1).
Local Abbreviation start2 := (LineEndsWrapper.GetLineStart le2).
Local Abbreviation lines1 := (LineEndsWrapper.length le1).
Local Abbreviation lines2 := (LineEndsWrapper.length le2).

(** Two equal lines are a run of equal characters. *)
Lemma line_Equals_cover n1 n2 i j :
  Equals (LineArrayCompareInput.mk s1 s2 le1 le2 o1 o2 n1 n2) i j = true ->
  0 <= i + o1 < lines1 -> 0 <= j + o2 < lines2 ->
  Cover (char_eqb s1 s2) (start1 (i + o1)) (start2 (j + o2)) []
        (start1 (i + 1 + o1)) (start2 (j + 1 + o2)).
Proof using Hwf1 Hwf2.
  simpl. intros He Hi Hj.
  replace (i + 1 + o1) with (i + o1 + 1) by lia.
  replace (j + 1 + o2) with (j + o2 + 1) by lia.
  pose proof (GetLineStart_step le1 Hwf1 (i + o1) Hi) as Hs1.
  pose proof (GetLineStart_step le2 Hwf2 (j + o2) Hj) as Hs2.
  rewrite !GetLineStart_succ in * by lia.
  set (a := start1 (i + o1)) in *. set (b := start2 (j + o2)) in *.
  set (e1 := LineEndsWrapper.GetLineEnd le1 (i + o1)) in *.
  set (e2 := LineEndsWrapper.GetLineEnd le2 (j + o2)) in *.
  destruct (Z.eqb_spec (e1 - a) (e2 - b)) as [E|]; [|done]. simpl in He.
  unfold CompareSubstrings in He.
  pose proof (CompareSubstrings_loop_true _ _ _ _ _ _ He) as Hk.
  pose proof (Cover_equal_run (char_eqb s1 s2) (Z.to_nat (e1 - a)) a b)
    as Hc.
  replace (a + Z.of_nat (Z.to_nat (e1 - a))) with e1 in Hc by lia.
  replace (b + Z.of_nat (Z.to_nat (e1 - a))) with e2 in Hc by lia.
  apply Hc. intros k Hkr. unfold char_eqb. apply Z.eqb_eq.
  rewrite (Z.add_comm a), (Z.add_comm b). apply Hk. lia.
Qed.

(** The chunks written for a line chunk cover its two character spans. *)
Lemma expand_chunk_cover aw c :
  0 <= c_pos1 c + o1 -> 0 <= c_len1 c -> c_pos1 c + o1 + c_len1 c <= lines1 ->
  0 <= c_pos2 c + o2 -> 0 <= c_len2 c -> c_pos2 c + o2 + c_len2 c <= lines2 ->
  Cover (char_eqb s1 s2) (start1 (c_pos1 c + o1)) (start2 (c_pos2 c + o2))
        (expand_chunk
           (TokenizingLineArrayCompareOutput.mk aw le1 le2 s1 s2 o1 o2) c)
        (start1 (c_pos1 c + c_len1 c + o1))
        (start2 (c_pos2 c + c_len2 c + o2)).
Proof using Hwf1 Hwf2.
  intros Ha1 Ha2 Ha3 Hb1 Hb2 Hb3. unfold expand_chunk. simpl.
  replace (c_pos1 c + c_len1 c + o1) with (c_pos1 c + o1 + c_len1 c) by lia.
  replace (c_pos2 c + c_len2 c + o2) with (c_pos2 c + o2 + c_len2 c) by lia.
  pose proof (GetLineStart_mono le1 Hwf1 (c_pos1 c + o1)
                (c_pos1 c + o1 + c_len1 c) ltac:(lia) Ha3) as Hm1.
  pose proof (GetLineStart_mono le2 Hwf2 (c_pos2 c + o2)
                (c_pos2 c + o2 + c_len2 c) ltac:(lia) Hb3) as Hm2.
  set (cp1 := start1 (c_pos1 c + o1)) in *.
  set (cp2 := start2 (c_pos2 c + o2)) in *.
  set (ce1 := start1 (c_pos1 c + o1 + c_len1 c)) in *.
  set (ce2 := start2 (c_pos2 c + o2 + c_len2 c)) in *.
  destruct (_ && _).
  - pose proof (tokens_cover s1 cp1 (ce1 - cp1) s2 cp2 (ce2 - cp2)
                  ltac:(lia) ltac:(lia)) as Hc.
    replace (cp1 + (ce1 - cp1)) with ce1 in Hc by lia.
    by replace (cp2 + (ce2 - cp2)) with ce2 in Hc by lia.
  - apply cover_chunk; [lia..|].
    replace (cp1 + (ce1 - cp1)) with ce1 by lia.
    replace (cp2 + (ce2 - cp2)) with ce2 by lia. constructor.
Qed.

(** A covering of the lines becomes a covering of the characters. *)
Lemma lines_cover aw n1 n2 i j lcs i' j' :
  Cover (Equals (LineArrayCompareInput.mk s1 s2 le1 le2 o1 o2 n1 n2))
        i j lcs i' j' ->
  0 <= i + o1 -> 0 <= j + o2 -> i' + o1 <= lines1 -> j' + o2 <= lines2 ->
  Cover (char_eqb s1 s2) (start1 (i + o1)) (start2 (j + o2))
        (concat (expand_chunk
                   (TokenizingLineArrayCompareOutput.mk aw le1 le2 s1 s2
                                                        o1 o2) <$> lcs))
        (start1 (i' + o1)) (start2 (j' + o2)).
Proof using Hwf1 Hwf2.
  induction 1 as [| i j cs i' j' He Hc IH | i j a b cs i' j' Ha Hb Hc IH];
    intros Hi Hj Hi' Hj'.
  - constructor.
  - destruct (Cover_le _ _ _ _ _ _ Hc).
    apply (Cover_app _ _ _ [] (start1 (i + 1 + o1)) (start2 (j + 1 + o2))).
    + apply (line_Equals_cover n1 n2); [done|lia|lia].
    + apply IH; lia.
  - destruct (Cover_le _ _ _ _ _ _ Hc).
    rewrite fmap_cons. simpl.
    apply (Cover_app _ _ _ _ (start1 (i + a + o1)) (start2 (j + b + o2))).
    + apply (expand_chunk_cover aw (mkChunk i j a b)); simpl; lia.
    + apply IH; lia.
Qed.
End LineTheory.

(** What the line-level output does with one chunk. *)
Lemma AddChunk_expand (x : TokenizingLineArrayCompareOutput.t) p1 p2 l1 l2 :
  AddChunk p1 p2 l1 l2 x
  = Some (TokenizingLineArrayCompareOutput.set_array_writer
            (write_all (expand_chunk x (mkChunk p1 p2 l1 l2))
               (TokenizingLineArrayCompareOutput.array_writer_ x)) x).
Proof.
  unfold expand_chunk. simpl.
  destruct (_ && _); [|done].
  by rewrite CalculateDifference_feed, feed_tokens_output.
Qed.

Lemma feed_line_output lcs : forall x : TokenizingLineArrayCompareOutput.t,
  feed lcs x
  = Some (TokenizingLineArrayCompareOutput.set_array_writer
            (write_all (concat (expand_chunk x <$> lcs))
               (TokenizingLineArrayCompareOutput.array_writer_ x)) x).
Proof.
  induction lcs as [|c lcs IH]; intros x.
  - by destruct x.
  - cbn [feed]. rewrite AddChunk_expand. cbn [mbind option_bind].
    rewrite IH. rewrite fmap_cons. cbn [concat]. rewrite write_all_app.
    by destruct c.
Qed.

(** ** Narrowing *)

Lemma min_spec a b : min a b = Z.min a b.
Proof. unfold min. destruct (Z.ltb_spec a b); lia. Qed.

Section NarrowTheory.
Context {I : Type} `{Input I} (input : I).

Lemma common_prefix_loop_spec limit n : forall c,
  let p := common_prefix_loop input limit n c in
  c <= p /\ (c <= limit -> p <= limit)
  /\ forall k, c <= k < p -> Equals input k k = true.
Proof.
  induction n as [|n IH]; intros c; simpl.
  - repeat split; intros; lia.
  - destruct (Z.ltb_spec c limit) as [Hlt|Hge]; simpl.
    2:{ repeat split; intros; lia. }
    destruct (Equals input c c) eqn:He.
    2:{ repeat split; intros; lia. }
    destruct (IH (c + 1)) as (H1 & H2 & H3).
    split; [lia|]. split; [intros; apply H2; lia|].
    intros k Hk. destruct (Z.eq_dec k c) as [->|]; [done|].
    apply H3. lia.
Qed.

Lemma common_suffix_loop_spec len1 len2 limit n : forall c,
  let s := common_suffix_loop input len1 len2 limit n c in
  c <= s /\ (c <= limit -> s <= limit)
  /\ forall k, c <= k < s ->
       Equals input (len1 - k - 1) (len2 - k - 1) = true.
Proof.
  induction n as [|n IH]; intros c; simpl.
  - repeat split; intros; lia.
  - destruct (Z.ltb_spec c limit) as [Hlt|Hge]; simpl.
    2:{ repeat split; intros; lia. }
    destruct (Equals input (len1 - c - 1) (len2 - c - 1)) eqn:He.
    2:{ repeat split; intros; lia. }
    destruct (IH (c + 1)) as (H1 & H2 & H3).
    split; [lia|]. split; [intros; apply H2; lia|].
    intros k Hk. destruct (Z.eq_dec k c) as [->|]; [done|].
    apply H3. lia.
Qed.

Hypothesis Hlen1 : 0 <= GetLength1 input.
Hypothesis Hlen2 : 0 <= GetLength2 input.

Lemma common_prefix_len_spec :
  0 <= common_prefix_len input
  /\ common_prefix_len input <= GetLength1 input
  /\ common_prefix_len input <= GetLength2 input
  /\ forall k, 0 <= k < common_prefix_len input -> Equals input k k = true.
Proof using Hlen1 Hlen2.
  unfold common_prefix_len.
  destruct (common_prefix_loop_spec
              (min (GetLength1 input) (GetLength2 input))
              (Z.to_nat (min (GetLength1 input) (GetLength2 input))) 0)
    as (H1 & H2 & H3).
  rewrite min_spec in *. repeat split; try done; lia.
Qed.

Lemma common_suffix_len_spec :
  0 <= common_suffix_len input
  /\ common_suffix_len input + common_prefix_len input <= GetLength1 input
  /\ common_suffix_len input + common_prefix_len input <= GetLength2 input
  /\ forall k, 0 <= k < common_suffix_len input ->
       Equals input (GetLength1 input - k - 1) (GetLength2 input - k - 1)
       = true.
Proof using Hlen1 Hlen2.
  destruct common_prefix_len_spec as (P1 & P2 & P3 & _).
  unfold common_suffix_len.
  set (p := common_prefix_len input) in *.
  destruct (common_suffix_loop_spec (GetLength1 input) (GetLength2 input)
              (min (GetLength1 input - p) (GetLength2 input - p))
              (Z.to_nat (min (GetLength1 input - p) (GetLength2 input - p)))
              0)
    as (H1 & H2 & H3).
  rewrite min_spec in *. repeat split; try done; lia.
Qed.
End NarrowTheory.

Section PipelineTheory.
Context (s1 s2 : String).
Local Abbreviation le1 := (LineEndsWrapper.new s1).
Local Abbreviation le2 := (LineEndsWrapper.new s2).
Local Abbreviation x0 := (line_input s1 s2).
Local Abbreviation p0 := (common_prefix_len (line_input s1 s2)).
Local Abbreviation q0 := (common_suffix_len (line_input s1 s2)).

Lemma line_input_len1 : 0 <= GetLength1 x0.
Proof. simpl. unfold LineEndsWrapper.length. lia. Qed.

Lemma line_input_len2 : 0 <= GetLength2 x0.
Proof. simpl. unfold LineEndsWrapper.length. lia. Qed.

(** The objects that [NarrowDownInput] leaves behind. *)
Lemma NarrowDownInput_line :
  NarrowDownInput x0
    (TokenizingLineArrayCompareOutput.new le1 le2 s1 s2)
  = (LineArrayCompareInput.mk s1 s2 le1 le2 p0 p0
       (LineEndsWrapper.length le1 - q0 - p0)
       (LineEndsWrapper.length le2 - q0 - p0),
     TokenizingLineArrayCompareOutput.mk CompareOutputArrayWriter.new
       le1 le2 s1 s2 p0 p0).
Proof.
  destruct (common_prefix_len_spec x0 line_input_len1 line_input_len2)
    as (P1 & _).
  destruct (common_suffix_len_spec x0 line_input_len1 line_input_len2)
    as (Q1 & _).
  unfold NarrowDownInput.
  destruct (Z.ltb_spec 0 p0) as [Hp|Hp]; simpl; [done|].
  destruct (Z.ltb_spec 0 q0) as [Hq|Hq]; simpl; [done|].
  assert (Ep : p0 = 0) by lia. assert (Eq : q0 = 0) by lia.
  rewrite Ep, Eq, !Z.sub_0_r. done.
Qed.

(** The chunks that [LiveEdit::CompareStrings] writes: the chunks of the
    narrowed line comparison, each expanded by the line-level output. *)
Lemma CompareStrings_chunks_eq :
  CompareStrings_chunks s1 s2
  = Some (concat
            (expand_chunk
               (TokenizingLineArrayCompareOutput.mk
                  CompareOutputArrayWriter.new le1 le2 s1 s2 p0 p0)
             <$> diff_chunks
                   (LineArrayCompareInput.mk s1 s2 le1 le2 p0 p0
                      (LineEndsWrapper.length le1 - q0 - p0)
                      (LineEndsWrapper.length le2 - q0 - p0)))).
Proof.
  unfold CompareStrings_chunks, CompareStrings_output.
  change (LineArrayCompareInput.new s1 s2 le1 le2) with x0.
  rewrite NarrowDownInput_line.
  rewrite CalculateDifference_feed, feed_line_output. simpl.
  by rewrite written_write_all.
Qed.

(** The chunks of [LiveEdit::CompareStrings] cover the two texts: between
    the chunks the texts agree character by character. *)
Lemma CompareStrings_chunks_cover :
  exists cs,
    CompareStrings_chunks s1 s2 = Some cs
    /\ Cover (char_eqb s1 s2) 0 0 cs (String_length s1) (String_length s2).
Proof.
  eexists. split; [apply CompareStrings_chunks_eq|].
  destruct (common_prefix_len_spec x0 line_input_len1 line_input_len2)
    as (P1 & P2 & P3 & P4).
  destruct (common_suffix_len_spec x0 line_input_len1 line_input_len2)
    as (Q1 & Q2 & Q3 & Q4).
  pose proof (LineEndsWrapper_new_wf s1) as Hwf1.
  pose proof (LineEndsWrapper_new_wf s2) as Hwf2.
  set (n1 := LineEndsWrapper.length le1) in *.
  set (n2 := LineEndsWrapper.length le2) in *.
  simpl in P2, P3, Q2, Q3. fold n1 n2 in P2, P3, Q2, Q3.
  set (aw := CompareOutputArrayWriter.new).
  (* the common prefix *)
  assert (Hpre : Cover (char_eqb s1 s2) 0 0 []
                   (LineEndsWrapper.GetLineStart le1 p0)
                   (LineEndsWrapper.GetLineStart le2 p0)).
  { pose proof (Cover_equal_run (Equals x0) (Z.to_nat p0) 0 0) as Hc.
    rewrite !Z.add_0_l, Z2Nat.id in Hc by lia.
    apply (lines_cover s1 s2 le1 le2 Hwf1 Hwf2 0 0 aw n1 n2) in Hc;
      try lia.
    - by rewrite !Z.add_0_r in Hc.
    - intros k Hk. rewrite !Z.add_0_l. apply P4. lia. }
  (* the common suffix *)
  assert (Hsuf : Cover (char_eqb s1 s2)
                   (LineEndsWrapper.GetLineStart le1 (n1 - q0))
                   (LineEndsWrapper.GetLineStart le2 (n2 - q0)) []
                   (String_length s1) (String_length s2)).
  { pose proof (Cover_equal_run (Equals x0) (Z.to_nat q0)
                  (n1 - q0) (n2 - q0)) as Hc.
    rewrite !Z2Nat.id in Hc by lia.
    replace (n1 - q0 + q0) with n1 in Hc by lia.
    replace (n2 - q0 + q0) with n2 in Hc by lia.
    apply (lines_cover s1 s2 le1 le2 Hwf1 Hwf2 0 0 aw n1 n2) in Hc;
      try lia.
    - rewrite !Z.add_0_r in Hc. unfold n1, n2 in Hc.
      by rewrite !GetLineStart_last in Hc.
    - intros k Hk.
      replace (n1 - q0 + k) with (n1 - (q0 - 1 - k) - 1) by lia.
      replace (n2 - q0 + k) with (n2 - (q0 - 1 - k) - 1) by lia.
      apply Q4. lia. }
  (* the middle *)
  pose proof (diff_chunks_cover
                (LineArrayCompareInput.mk s1 s2 le1 le2 p0 p0
                   (n1 - q0 - p0) (n2 - q0 - p0))) as Hmid.
  unfold len1_, len2_ in Hmid. simpl in Hmid.
  specialize (Hmid ltac:(lia) ltac:(lia)).
  apply (lines_cover s1 s2 le1 le2 Hwf1 Hwf2 p0 p0 aw
           (n1 - q0 - p0) (n2 - q0 - p0)) in Hmid; try lia.
  rewrite !Z.add_0_l in Hmid.
  replace (n1 - q0 - p0 + p0) with (n1 - q0) in Hmid by lia.
  replace (n2 - q0 - p0 + p0) with (n2 - q0) in Hmid by lia.
  pose proof (Cover_app _ _ _ _ _ _ _ _ _ Hpre Hmid) as H1.
  pose proof (Cover_app _ _ _ _ _ _ _ _ _ H1 Hsuf) as H2.
  simpl in H2. by rewrite app_nil_r in H2.
Qed.
End PipelineTheory.

(** ** What a covering gives *)

Section CoverConsequences.
Context (eqb : Z -> Z -> bool).

Lemma Cover_head i j c cs i' j' :
  Cover eqb i j (c :: cs) i' j' ->
  i <= c_pos1 c /\ j <= c_pos2 c /\ c_pos2 c - c_pos1 c = j - i.
Proof.
  intros Hc. remember (c :: cs) as l eqn:El.
  induction Hc as [| ? ? ? ? ? He _ IH | ? ? ? ? ? ? ? Ha Hb _ IH].
  - done.
  - specialize (IH El). lia.
  - injection El as <- _. simpl. lia.
Qed.

Lemma Cover_ordered i j cs i' j' :
  Cover eqb i j cs i' j' -> chunks_ordered cs.
Proof.
  induction 1 as [| ? ? ? ? ? He _ IH | i j a b cs i' j' Ha Hb Hc IH].
  - intros k c c' H1. by rewrite lookup_nil in H1.
  - done.
  - intros [|k] c c' H1 H2; simpl in *.
    + injection H1 as <-. destruct cs as [|d cs]; [done|].
      injection H2 as ->. apply Cover_head in Hc. simpl. lia.
    + by apply (IH k).
Qed.

Lemma Cover_delta i j cs i' j' :
  Cover eqb i j cs i' j' ->
  forall (k : nat) c, cs !! k = Some c ->
    c_pos2 c - c_pos1 c = (j - i) + length_delta (take k cs).
Proof.
  induction 1 as [| ? ? ? ? ? He _ IH | i j a b cs i' j' Ha Hb Hc IH];
    intros k c Hk.
  - by rewrite lookup_nil in Hk.
  - rewrite (IH k c Hk). lia.
  - destruct k as [|k]; simpl in *.
    + injection Hk as <-. simpl. lia.
    + rewrite (IH k c Hk). lia.
Qed.

Lemma decode_cover i j cs i' j' :
  Cover eqb i j cs i' j' ->
  forall e1 e2, j - i = e2 - e1 ->
    decode_chunks e1 e2 (concat (encode_chunk <$> cs)) = Some cs.
Proof.
  induction 1 as [| ? ? ? ? ? He _ IH | i j a b cs i' j' Ha Hb Hc IH];
    intros e1 e2 E.
  - done.
  - apply IH. lia.
  - rewrite fmap_cons. simpl.
    rewrite (IH (i + a) (j + b)) by lia. simpl.
    do 2 f_equal. f_equal; lia.
Qed.
End CoverConsequences.

(** ** Applying chunks *)

Lemma drop_Get (A : String) i :
  0 <= i < String_length A ->
  drop (Z.to_nat i) A = Get A i :: drop (Z.to_nat (i + 1)) A.
Proof.
  unfold String_length, Get. intros Hi.
  destruct (lookup_lt_is_Some_2 A (Z.to_nat i) ltac:(lia)) as [x Hx].
  rewrite (nth_lookup_Some _ _ _ _ Hx).
  replace (Z.to_nat (i + 1)) with (S (Z.to_nat i)) by lia.
  by apply drop_S.
Qed.

Lemma apply_chunks_step A B i cs :
  0 <= i < String_length A ->
  (forall c cs', cs = c :: cs' -> i + 1 <= c_pos1 c) ->
  apply_chunks A B i cs = Get A i :: apply_chunks A B (i + 1) cs.
Proof.
  intros Hi Hhead. destruct cs as [|c cs]; simpl.
  - by apply drop_Get.
  - specialize (Hhead c cs eq_refl).
    rewrite drop_Get by done.
    replace (Z.to_nat (c_pos1 c - i))
      with (S (Z.to_nat (c_pos1 c - (i + 1)))) by lia.
    done.
Qed.

(** Applying the chunks of a covering to the first text gives the second
    text. *)
Lemma apply_cover A B i j cs i' j' :
  Cover (char_eqb A B) i j cs i' j' ->
  i' = String_length A -> j' = String_length B -> 0 <= i -> 0 <= j ->
  apply_chunks A B i cs = drop (Z.to_nat j) B.
Proof.
  induction 1 as [| i j cs i' j' He Hc IH | i j a b cs i' j' Ha Hb Hc IH];
    intros -> -> Hi Hj.
  - simpl. unfold String_length. by rewrite !drop_ge by lia.
  - destruct (Cover_le _ _ _ _ _ _ Hc).
    rewrite apply_chunks_step; [|lia|].
    2:{ intros c cs' ->. apply Cover_head in Hc. lia. }
    rewrite IH by (done || lia).
    rewrite (drop_Get B j) by lia.
    unfold char_eqb in He. apply Z.eqb_eq in He. by rewrite He.
  - simpl. rewrite Z.sub_diag. simpl.
    rewrite IH by (done || lia).
    replace (Z.to_nat (j + b)) with (Z.to_nat j + Z.to_nat b)%nat by lia.
    rewrite <- drop_drop. apply take_drop.
Qed.

(** ** The result array *)

Lemma SetElementSloppy_end (a : list Object) v :
  SetElementSloppy a (Z.of_nat (length a)) v = a ++ [v].
Proof.
  unfold SetElementSloppy. rewrite Z.ltb_irrefl.
  replace (Z.to_nat (Z.of_nat (length a)) - length a)%nat with 0%nat by lia.
  done.
Qed.

Lemma WriteChunk_array w p1 p2 l1 l2 :
  CompareOutputArrayWriter.current_size_ w
  = Z.of_nat (length (CompareOutputArrayWriter.array_ w)) ->
  let w' := CompareOutputArrayWriter.WriteChunk p1 p2 l1 l2 w in
  CompareOutputArrayWriter.array_ w'
  = CompareOutputArrayWriter.array_ w ++ encode_chunk (mkChunk p1 p2 l1 l2)
  /\ CompareOutputArrayWriter.current_size_ w'
     = Z.of_nat (length (CompareOutputArrayWriter.array_ w')).
Proof.
  intros E. simpl. rewrite E.
  rewrite SetElementSloppy_end.
  replace (Z.of_nat (length (CompareOutputArrayWriter.array_ w)) + 1)
    with (Z.of_nat (length (CompareOutputArrayWriter.array_ w
                            ++ [Smi p1])))
    by (rewrite length_app; simpl; lia).
  rewrite SetElementSloppy_end.
  replace (Z.of_nat (length (CompareOutputArrayWriter.array_ w)) + 2)
    with (Z.of_nat (length ((CompareOutputArrayWriter.array_ w
                             ++ [Smi p1]) ++ [Smi (p1 + l1)])))
    by (rewrite !length_app; simpl; lia).
  rewrite SetElementSloppy_end.
  split.
  - unfold encode_chunk. simpl. by rewrite <- !app_assoc.
  - rewrite !length_app. simpl. lia.
Qed.

Lemma write_all_array cs : forall w,
  CompareOutputArrayWriter.current_size_ w
  = Z.of_nat (length (CompareOutputArrayWriter.array_ w)) ->
  CompareOutputArrayWriter.array_ (write_all cs w)
  = CompareOutputArrayWriter.array_ w ++ concat (encode_chunk <$> cs).
Proof.
  induction cs as [|c cs IH]; intros w E.
  - simpl. by rewrite app_nil_r.
  - destruct (WriteChunk_array w (c_pos1 c) (c_pos2 c) (c_len1 c) (c_len2 c)
                E) as [Ea Es].
    change (write_all (c :: cs) w)
      with (write_all cs (CompareOutputArrayWriter.WriteChunk
                            (c_pos1 c) (c_pos2 c) (c_len1 c) (c_len2 c) w)).
    rewrite IH by done. rewrite Ea, fmap_cons. cbn [concat].
    rewrite <- app_assoc. by destruct c.
Qed.

(** The array that [LiveEdit::CompareStrings] returns holds the three
    elements of each chunk written, in order. *)
Lemma CompareStrings_array s1 s2 cs :
  CompareStrings_chunks s1 s2 = Some cs ->
  CompareStrings s1 s2 = Some (concat (encode_chunk <$> cs)).
Proof.
  unfold CompareStrings_chunks, CompareStrings, CompareStrings_output.
  change (LineArrayCompareInput.new s1 s2 (LineEndsWrapper.new s1)
            (LineEndsWrapper.new s2)) with (line_input s1 s2).
  rewrite NarrowDownInput_line.
  rewrite CalculateDifference_feed, feed_line_output. simpl.
  rewrite written_write_all. simpl. intros [= <-].
  unfold TokenizingLineArrayCompareOutput.GetResult,
    CompareOutputArrayWriter.GetResult. simpl.
  by rewrite write_all_array.
Qed.

(** ** The chunk merger on a recording sink *)

Lemma feed_log cs : forall log : list Chunk, feed cs log = Some (log ++ cs).
Proof.
  induction cs as [|c cs IH]; intros log; simpl.
  - by rewrite app_nil_r.
  - rewrite IH, <- app_assoc. by destruct c.
Qed.

Lemma chunks_of_steps_length steps : forall p1 p2 o,
  length (chunks_of_steps steps p1 p2 o)
  = (match o with Some _ => 1 | None => 0 end
     + skip_runs_from (bool_decide (is_Some o)) steps)%nat.
Proof.
  induction steps as [|[|n|n] steps IH]; intros p1 p2 o; simpl.
  - destruct o as [[b1 b2]|]; simpl; lia.
  - rewrite length_app, IH. destruct o as [[b1 b2]|]; simpl; lia.
  - rewrite IH. destruct o as [[b1 b2]|]; simpl; lia.
  - rewrite IH. destruct o as [[b1 b2]|]; simpl; lia.
Qed.

Lemma run_skip_run_open run : forall (log : list Chunk) p1 p2 b1 b2,
  run_steps (skip_step <$> run) (ResultWriter.mk log p1 p2 b1 b2 true)
  = Some (ResultWriter.mk log (p1 + skipped true run)
            (p2 + skipped false run) b1 b2 true).
Proof.
  induction run as [|[[|] n] run IH]; intros log p1 p2 b1 b2; simpl.
  - by rewrite !Z.add_0_r.
  - unfold ResultWriter.skip1. simpl. rewrite IH. do 2 f_equal; lia.
  - unfold ResultWriter.skip2. simpl. rewrite IH. do 2 f_equal; lia.
Qed.

Lemma run_skip_run_closed s run (log : list Chunk) p1 p2 b1 b2 :
  run_steps (skip_step <$> s :: run) (ResultWriter.mk log p1 p2 b1 b2 false)
  = Some (ResultWriter.mk log (p1 + skipped true (s :: run))
            (p2 + skipped false (s :: run)) p1 p2 true).
Proof.
  destruct s as [[|] n]; simpl.
  - unfold ResultWriter.skip1. simpl. rewrite run_skip_run_open.
    do 2 f_equal; lia.
  - unfold ResultWriter.skip2. simpl. rewrite run_skip_run_open.
    do 2 f_equal; lia.
Qed.

Lemma run_steps_app {O : Type} `{Output O} steps1 steps2 :
  forall w : ResultWriter.t O,
  run_steps (steps1 ++ steps2) w = run_steps steps1 w ≫= run_steps steps2.
Proof.
  induction steps1 as [|[|n|n] steps1 IH]; intros w; simpl; try done.
  destruct (ResultWriter.eq w); simpl; [apply IH|done].
Qed.

(** ** Moving a comparison along the sequences *)

Section Translation.
Context {I J : Type} `{Input I} `{Input J} (x : I) (y : J) (d1 d2 : Z).
Hypothesis Hl1 : len1_ x = len1_ y + d1.
Hypothesis Hl2 : len2_ x = len2_ y + d2.
Hypothesis Heq : forall a b, Equals y a b = Equals x (a + d1) (b + d2).

Lemma measure_shift i j : measure x (i + d1) (j + d2) = measure y i j.
Proof using Hl1 Hl2. unfold measure. rewrite Hl1, Hl2. f_equal; f_equal; lia. Qed.

Lemma ltb_shift1 i : (i + d1 <? len1_ x) = (i <? len1_ y).
Proof using Hl1.
  rewrite Hl1.
  destruct (Z.ltb_spec (i + d1) (len1_ y + d1)),
           (Z.ltb_spec i (len1_ y)); (done || lia).
Qed.

Lemma ltb_shift2 j : (j + d2 <? len2_ x) = (j <? len2_ y).
Proof using Hl2.
  rewrite Hl2.
  destruct (Z.ltb_spec (j + d2) (len2_ y + d2)),
           (Z.ltb_spec j (len2_ y)); (done || lia).
Qed.

Lemma cost_aux_shift n : forall i j,
  cost_aux x n (i + d1) (j + d2) = cost_aux y n i j.
Proof using Hl1 Hl2 Heq.
  induction n as [|n IH]; intros i j; simpl; [done|].
  rewrite ltb_shift1, ltb_shift2, <- Heq, Hl1, Hl2.
  replace (i + d1 + 1) with (i + 1 + d1) by lia.
  replace (j + d2 + 1) with (j + 1 + d2) by lia.
  rewrite !IH.
  replace (len1_ y + d1 - (i + d1)) with (len1_ y - i) by lia.
  by replace (len2_ y + d2 - (j + d2)) with (len2_ y - j) by lia.
Qed.

Lemma cost_shift i j : cost x (i + d1) (j + d2) = cost y i j.
Proof using Hl1 Hl2 Heq. unfold cost. by rewrite measure_shift, cost_aux_shift. Qed.

Lemma dir_shift i j : dir x (i + d1) (j + d2) = dir y i j.
Proof using Hl1 Hl2 Heq.
  unfold dir. rewrite <- Heq.
  replace (i + d1 + 1) with (i + 1 + d1) by lia.
  replace (j + d2 + 1) with (j + 1 + d2) by lia.
  by rewrite !cost_shift.
Qed.

Lemma path_aux_shift n : forall i j,
  path_aux x n (i + d1) (j + d2) = path_aux y n i j.
Proof using Hl1 Hl2 Heq.
  induction n as [|n IH]; intros i j; simpl; [done|].
  rewrite ltb_shift1, ltb_shift2, dir_shift, Hl1, Hl2.
  replace (i + d1 + 1) with (i + 1 + d1) by lia.
  replace (j + d2 + 1) with (j + 1 + d2) by lia.
  rewrite !IH.
  replace (len1_ y + d1 - (i + d1)) with (len1_ y - i) by lia.
  replace (len2_ y + d2 - (j + d2)) with (len2_ y - j) by lia.
  replace (len2_ y + d2 =? j + d2) with (len2_ y =? j); [done|].
  destruct (Z.eqb_spec (len2_ y) j),
           (Z.eqb_spec (len2_ y + d2) (j + d2)); (done || lia).
Qed.

Lemma path_shift i j : path x (i + d1) (j + d2) = path y i j.
Proof using Hl1 Hl2 Heq. unfold path. by rewrite measure_shift, path_aux_shift. Qed.
End Translation.

Lemma chunks_of_steps_shift steps d1 d2 : forall i j o,
  chunks_of_steps steps (i + d1) (j + d2)
                  (prod_map (fun b => b + d1) (fun b => b + d2) <$> o)
  = shift_chunk d1 d2 <$> chunks_of_steps steps i j o.
Proof.
  assert (Hflush : forall i j o,
    flush_open (i + d1) (j + d2)
               (prod_map (fun b => b + d1) (fun b => b + d2) <$> o)
    = shift_chunk d1 d2 <$> flush_open i j o).
  { intros i j [[b1 b2]|]; simpl; [|done].
    unfold shift_chunk. simpl. do 2 f_equal; lia. }
  induction steps as [|[|n|n] steps IH]; intros i j o; simpl.
  - apply Hflush.
  - rewrite fmap_app, <- Hflush, <- (IH (i + 1) (j + 1) None). simpl.
    do 2 f_equal; lia.
  - rewrite <- IH. destruct o as [[b1 b2]|]; simpl; f_equal; lia.
  - rewrite <- IH. destruct o as [[b1 b2]|]; simpl; f_equal; lia.
Qed.

Lemma chunks_of_steps_eq_prefix n : forall r i j,
  chunks_of_steps (replicate n StepEq ++ r) i j None
  = chunks_of_steps r (i + Z.of_nat n) (j + Z.of_nat n) None.
Proof.
  induction n as [|n IH]; intros r i j; simpl.
  - by rewrite !Z.add_0_r.
  - rewrite IH. f_equal; lia.
Qed.

(** Along a common prefix the table spells out equal steps. *)
Lemma path_prefix {I : Type} `{Input I} (x : I) p :
  (forall k, 0 <= k < p -> Equals x k k = true) ->
  p <= len1_ x -> p <= len2_ x ->
  forall (n : nat) i, 0 <= i -> i + Z.of_nat n <= p ->
    path x i i
    = replicate n StepEq ++ path x (i + Z.of_nat n) (i + Z.of_nat n).
Proof.
  intros He H1 H2. induction n as [|n IH]; intros i Hi Hn.
  - simpl. by rewrite Z.add_0_r.
  - rewrite path_unfold.
    destruct (Z.ltb_spec i (len1_ x)); [|lia].
    destruct (Z.ltb_spec i (len2_ x)); [|lia].
    unfold dir. rewrite He by lia. simpl.
    rewrite (IH (i + 1)) by lia.
    by replace (i + 1 + Z.of_nat n) with (i + Z.of_nat (S n)) by lia.
Qed.

(** A run of equal steps closes the open chunk and yields nothing more. *)
Lemma chunks_of_steps_eq_run n : forall p1 p2 o,
  chunks_of_steps (replicate (S n) StepEq) p1 p2 o = flush_open p1 p2 o.
Proof.
  intros p1 p2 o. cbn [replicate chunks_of_steps].
  rewrite <- (app_nil_r (replicate n StepEq)), chunks_of_steps_eq_prefix.
  simpl. by rewrite app_nil_r.
Qed.

(** A run of unit skips is one skip of its length. *)
Lemma chunks_of_steps_skip2_run n r : forall p1 p2 o,
  chunks_of_steps (replicate (S n) (StepSkip2 1) ++ r) p1 p2 o
  = chunks_of_steps r p1 (p2 + Z.of_nat (S n)) (Some (default (p1, p2) o)).
Proof.
  induction n as [|n IH]; intros p1 p2 o.
  - done.
  - change (replicate (S (S n)) (StepSkip2 1) ++ r)
      with (StepSkip2 1 :: (replicate (S n) (StepSkip2 1) ++ r)).
    cbn [chunks_of_steps]. rewrite IH. simpl default.
    f_equal. lia.
Qed.

Lemma chunks_of_steps_skip1_run n r : forall p1 p2 o,
  chunks_of_steps (replicate (S n) (StepSkip1 1) ++ r) p1 p2 o
  = chunks_of_steps r (p1 + Z.of_nat (S n)) p2 (Some (default (p1, p2) o)).
Proof.
  induction n as [|n IH]; intros p1 p2 o.
  - done.
  - change (replicate (S (S n)) (StepSkip1 1) ++ r)
      with (StepSkip1 1 :: (replicate (S n) (StepSkip1 1) ++ r)).
    cbn [chunks_of_steps]. rewrite IH. simpl default.
    f_equal. lia.
Qed.

(** Cutting a common tail off the two sequences.  [x] is a comparison whose
    sequences end in [q] pairwise equal elements and [y] the comparison of
    what comes before them; the first element of the tail occurs in neither
    sequence before the tail.  Then the table of [x] spells out, before the
    tail, what the table of [y] spells out. *)
Section Suffix.
Context {I J : Type} `{Input I} `{Input J} (x : I) (y : J) (q : Z).
Hypothesis Hq : 0 < q.
Hypothesis Hy1 : 0 <= len1_ y.
Hypothesis Hy2 : 0 <= len2_ y.
Hypothesis Hl1 : len1_ x = len1_ y + q.
Hypothesis Hl2 : len2_ x = len2_ y + q.
Hypothesis Heq : forall a b, Equals y a b = Equals x a b.
Hypothesis Htail : forall k, 0 <= k < q ->
  Equals x (len1_ y + k) (len2_ y + k) = true.
Hypothesis Hrow : forall j, 0 <= j < len2_ y -> Equals x (len1_ y) j = false.
Hypothesis Hcol : forall i, 0 <= i < len1_ y -> Equals x i (len2_ y) = false.

Lemma tail_diagonal (n : nat) : forall k,
  0 <= k -> k + Z.of_nat n = q ->
  cost x (len1_ y + k) (len2_ y + k) = 0
  /\ path x (len1_ y + k) (len2_ y + k) = replicate n StepEq.
Proof using Hl1 Hl2 Htail.
  induction n as [|n IH]; intros k Hk Hn.
  - rewrite cost_end1, path_unfold by lia.
    destruct (Z.ltb_spec (len1_ y + k) (len1_ x)); [lia|].
    destruct (Z.eqb_spec (len2_ x) (len2_ y + k)); [|lia].
    split; [lia|done].
  - destruct (IH (k + 1)) as [Ec Ep]; [lia..|].
    rewrite !Z.add_assoc in Ec, Ep.
    rewrite cost_eq_step, path_unfold by (try apply Htail; lia).
    destruct (Z.ltb_spec (len1_ y + k) (len1_ x)); [|lia].
    destruct (Z.ltb_spec (len2_ y + k) (len2_ x)); [|lia].
    unfold dir. rewrite Htail by lia. by rewrite Ec, Ep.
Qed.

Lemma tail_row (n : nat) : forall j,
  0 <= j -> j + Z.of_nat n = len2_ y ->
  cost x (len1_ y) j = Z.of_nat n
  /\ path x (len1_ y) j
     = replicate n (StepSkip2 1) ++ replicate (Z.to_nat q) StepEq.
Proof using Hq Hl1 Hl2 Htail Hrow.
  induction n as [|n IH]; intros j Hj Hn.
  - destruct (tail_diagonal (Z.to_nat q) 0) as [Ec Ep]; [lia..|].
    rewrite !Z.add_0_r in Ec, Ep.
    assert (j = len2_ y) as -> by lia. by split.
  - destruct (IH (j + 1)) as [Ec Ep]; [lia..|].
    pose proof (cost_lower x _ (len1_ y + 1) j (le_n _)) as Hlow.
    rewrite Z.abs_neq in Hlow by lia.
    assert (Hr1 : Z.of_nat n + 2 <= cost x (len1_ y + 1) j) by lia.
    rewrite cost_neq_step, path_unfold by (try apply Hrow; lia).
    destruct (Z.ltb_spec (len1_ y) (len1_ x)); [|lia].
    destruct (Z.ltb_spec j (len2_ x)); [|lia].
    unfold dir. rewrite Hrow by lia. rewrite Ec, Ep.
    destruct (Z.eqb_spec (cost x (len1_ y + 1) j) (Z.of_nat n)); [lia|].
    destruct (Z.ltb_spec (cost x (len1_ y + 1) j) (Z.of_nat n)); [lia|].
    split; [lia|done].
Qed.

Lemma tail_col (n : nat) : forall i,
  0 <= i -> i + Z.of_nat n = len1_ y ->
  cost x i (len2_ y) = Z.of_nat n
  /\ path x i (len2_ y)
     = replicate n (StepSkip1 1) ++ replicate (Z.to_nat q) StepEq.
Proof using Hq Hl1 Hl2 Htail Hcol.
  induction n as [|n IH]; intros i Hi Hn.
  - destruct (tail_diagonal (Z.to_nat q) 0) as [Ec Ep]; [lia..|].
    rewrite !Z.add_0_r in Ec, Ep.
    assert (i = len1_ y) as -> by lia. by split.
  - destruct (IH (i + 1)) as [Ec Ep]; [lia..|].
    pose proof (cost_lower x _ i (len2_ y + 1) (le_n _)) as Hlow.
    rewrite Z.abs_eq in Hlow by lia.
    assert (Hr2 : Z.of_nat n + 2 <= cost x i (len2_ y + 1)) by lia.
    rewrite cost_neq_step, path_unfold by (try apply Hcol; lia).
    destruct (Z.ltb_spec i (len1_ x)); [|lia].
    destruct (Z.ltb_spec (len2_ y) (len2_ x)); [|lia].
    unfold dir. rewrite Hcol by lia. rewrite Ec, Ep.
    destruct (Z.eqb_spec (Z.of_nat n) (cost x i (len2_ y + 1))); [lia|].
    destruct (Z.ltb_spec (Z.of_nat n) (cost x i (len2_ y + 1))); [|lia].
    split; [lia|done].
Qed.

Lemma tail_cost (m : nat) : forall i j,
  (measure y i j <= m)%nat ->
  0 <= i <= len1_ y -> 0 <= j <= len2_ y ->
  cost x i j = cost y i j.
Proof using Hq Hl1 Hl2 Heq Htail Hrow Hcol.
  induction m as [|m IH]; intros i j Hm Hi Hj; unfold measure in Hm.
  - assert (i = len1_ y) as -> by lia.
    destruct (tail_row (Z.to_nat (len2_ y - j)) j) as [-> _]; [lia..|].
    rewrite cost_end1 by lia. lia.
  - destruct (decide (i = len1_ y)) as [->|Hi'].
    { destruct (tail_row (Z.to_nat (len2_ y - j)) j) as [-> _]; [lia..|].
      rewrite cost_end1 by lia. lia. }
    destruct (decide (j = len2_ y)) as [->|Hj'].
    { destruct (tail_col (Z.to_nat (len1_ y - i)) i) as [-> _]; [lia..|].
      rewrite cost_end2 by lia. lia. }
    destruct (Equals y i j) eqn:E.
    + rewrite (cost_eq_step x), (cost_eq_step y)
        by (rewrite <- ?Heq; done || lia).
      apply IH; unfold measure; lia.
    + rewrite (cost_neq_step x), (cost_neq_step y)
        by (rewrite <- ?Heq; done || lia).
      rewrite (IH (i + 1) j), (IH i (j + 1)); unfold measure; (done || lia).
Qed.

Lemma tail_dir i j :
  0 <= i < len1_ y -> 0 <= j < len2_ y -> dir x i j = dir y i j.
Proof using Hq Hl1 Hl2 Heq Htail Hrow Hcol.
  intros Hi Hj. unfold dir. rewrite Heq.
  by rewrite (tail_cost _ (i + 1) j (le_n _)),
             (tail_cost _ i (j + 1) (le_n _)) by lia.
Qed.

Lemma tail_chunks (m : nat) : forall i j,
  (measure y i j <= m)%nat ->
  0 <= i <= len1_ y -> 0 <= j <= len2_ y ->
  forall p1 p2 o,
    chunks_of_steps (path x i j) p1 p2 o
    = chunks_of_steps (path y i j) p1 p2 o.
Proof using Hq Hl1 Hl2 Heq Htail Hrow Hcol.
  assert (Hqn : Z.to_nat q = S (Z.to_nat q - 1)) by lia.
  assert (Hrow' : forall j, 0 <= j <= len2_ y -> forall p1 p2 o,
            chunks_of_steps (path x (len1_ y) j) p1 p2 o
            = chunks_of_steps (path y (len1_ y) j) p1 p2 o).
  { intros j Hj p1 p2 o.
    destruct (tail_row (Z.to_nat (len2_ y - j)) j) as [_ ->]; [lia..|].
    rewrite (path_unfold y).
    destruct (Z.ltb_spec (len1_ y) (len1_ y)); [lia|].
    destruct (Z.eqb_spec (len2_ y) j) as [E0|Hne]; cbn [negb].
    - replace (Z.to_nat (len2_ y - j)) with 0%nat by lia.
      change (replicate 0 (StepSkip2 1) ++ replicate (Z.to_nat q) StepEq)
        with (replicate (Z.to_nat q) StepEq).
      by rewrite Hqn, chunks_of_steps_eq_run.
    - assert (E : Z.to_nat (len2_ y - j) = S (Z.to_nat (len2_ y - j) - 1))
        by lia.
      rewrite E, chunks_of_steps_skip2_run, Hqn, chunks_of_steps_eq_run,
        <- E.
      cbn [chunks_of_steps]. do 2 f_equal. lia. }
  assert (Hcol' : forall i, 0 <= i < len1_ y -> forall p1 p2 o,
            chunks_of_steps (path x i (len2_ y)) p1 p2 o
            = chunks_of_steps (path y i (len2_ y)) p1 p2 o).
  { intros i Hi p1 p2 o.
    destruct (tail_col (Z.to_nat (len1_ y - i)) i) as [_ ->]; [lia..|].
    rewrite (path_unfold y).
    destruct (Z.ltb_spec i (len1_ y)); [|lia].
    destruct (Z.ltb_spec (len2_ y) (len2_ y)); [lia|].
    assert (E : Z.to_nat (len1_ y - i) = S (Z.to_nat (len1_ y - i) - 1))
      by lia.
    rewrite E, chunks_of_steps_skip1_run, Hqn, chunks_of_steps_eq_run, <- E.
    cbn [chunks_of_steps]. do 2 f_equal. lia. }
  induction m as [|m IH]; intros i j Hm Hi Hj p1 p2 o; unfold measure in Hm.
  - assert (i = len1_ y) as -> by lia. by apply Hrow'.
  - destruct (decide (i = len1_ y)) as [->|Hi']; [by apply Hrow'|].
    destruct (decide (j = len2_ y)) as [->|Hj']; [apply Hcol'; lia|].
    rewrite (path_unfold x), (path_unfold y), tail_dir by lia.
    destruct (Z.ltb_spec i (len1_ x)); [|lia].
    destruct (Z.ltb_spec j (len2_ x)); [|lia].
    destruct (Z.ltb_spec i (len1_ y)); [|lia].
    destruct (Z.ltb_spec j (len2_ y)); [|lia].
    destruct (dir y i j); cbn [chunks_of_steps];
      rewrite IH by (unfold measure; lia); done.
Qed.

Lemma diff_chunks_tail : diff_chunks x = diff_chunks y.
Proof using Hq Hy1 Hy2 Hl1 Hl2 Heq Htail Hrow Hcol.
  unfold diff_chunks. apply (tail_chunks _ 0 0 (le_n _)); lia.
Qed.
End Suffix.

(** The pipeline without [NarrowDownInput] also writes a covering of the two
    texts. *)
Lemma CompareStrings_chunks_without_narrowing_cover (s1 s2 : String) :
  exists cs,
    CompareStrings_chunks_without_narrowing s1 s2 = Some cs
    /\ Cover (char_eqb s1 s2) 0 0 cs (String_length s1) (String_length s2).
Proof.
  unfold CompareStrings_chunks_without_narrowing.
  rewrite CalculateDifference_feed, feed_line_output. simpl.
  rewrite written_write_all. simpl. eexists. split; [done|].
  pose proof (LineEndsWrapper_new_wf s1) as Hwf1.
  pose proof (LineEndsWrapper_new_wf s2) as Hwf2.
  pose proof (diff_chunks_cover (line_input s1 s2)
                (line_input_len1 s1 s2) (line_input_len2 s1 s2)) as Hc.
  unfold len1_, len2_ in Hc. simpl in Hc.
  apply (lines_cover s1 s2 _ _ Hwf1 Hwf2 0 0 CompareOutputArrayWriter.new
           (LineEndsWrapper.length (LineEndsWrapper.new s1))
           (LineEndsWrapper.length (LineEndsWrapper.new s2))) in Hc;
    try lia.
  rewrite !Z.add_0_r in Hc. by rewrite !GetLineStart_last in Hc.
Qed.

(** The number of skipped elements is the measure that the comparison
    minimises; counting every side of a chunk as at least one is a
    different measure, which the written chunks need not minimise: for
    "xaa" and "ya" a single chunk covers the texts at a smaller count. *)
Remark padded_cost_not_minimal :
  let s1 := [120; 97; 97] in
  let s2 := [121; 97] in
  CompareStrings_chunks s1 s2 = Some [mkChunk 0 0 1 1; mkChunk 2 2 1 0]
  /\ padded_cost [mkChunk 0 0 1 1; mkChunk 2 2 1 0] = 4
  /\ Cover (char_eqb s1 s2) 0 0 [mkChunk 0 0 2 1] 3 2
  /\ padded_cost [mkChunk 0 0 2 1] = 3.
Proof.
  split; [vm_compute; reflexivity|]. split; [reflexivity|].
  split; [|reflexivity].
  apply cover_chunk; [lia..|]. simpl.
  apply cover_eq; [reflexivity|]. simpl. constructor.
Qed.

(** * The claims *)

(** C1. For every pair of texts A and B whose table of lines stays
    within [int], [LiveEdit::CompareStrings] returns an array of triples;
    the chunk list read back from the array is the list of chunks written,
    and applying it to A (each chunk's span of A replaced, in order, by the
    chunk's span of B, everything else of A kept) gives exactly B. *)
Theorem C1_reconstruction (A B : String) :
  CompareStrings_fits A B ->
  exists array cs,
    CompareStrings A B = Some array
    /\ decode_chunks 0 0 array = Some cs
    /\ CompareStrings_chunks A B = Some cs
    /\ apply_chunks A B 0 cs = B.
Proof.
  intros _.
  destruct (CompareStrings_chunks_cover A B) as (cs & Hcs & Hc).
  exists (concat (encode_chunk <$> cs)), cs.
  split; [by apply CompareStrings_array|].
  split; [by apply (decode_cover _ _ _ _ _ _ Hc)|].
  split; [done|].
  by rewrite (apply_cover A B 0 0 cs _ _ Hc).
Qed.

Lemma C1_reconstruction_witness :
  let A := [97; 10; 98; 99; 10; 100] in
  let B := [97; 10; 98; 120; 99; 10; 100] in
  CompareStrings_fits A B
  /\ exists array cs,
       CompareStrings A B = Some array
       /\ decode_chunks 0 0 array = Some cs
       /\ CompareStrings_chunks A B = Some cs
       /\ apply_chunks A B 0 cs = B.
Proof.
  intros A B.
  assert (Hfits : CompareStrings_fits A B)
    by (vm_compute; split; discriminate).
  split; [done|]. exact (C1_reconstruction A B Hfits).
Defined.

(** C6. For texts whose table of lines stays within [int]: in the chunk
    list that [LiveEdit::CompareStrings] writes, and that is read back from
    the array it returns, consecutive chunks are ordered and do not
    overlap, in the first text and in the second:
    chunk[i].aStart + chunk[i].aLen <= chunk[i+1].aStart and
    chunk[i].bStart + chunk[i].bLen <= chunk[i+1].bStart. *)
Theorem C6_ordered (A B : String) :
  CompareStrings_fits A B ->
  exists array cs,
    CompareStrings A B = Some array
    /\ decode_chunks 0 0 array = Some cs
    /\ CompareStrings_chunks A B = Some cs
    /\ chunks_ordered cs.
Proof.
  intros _.
  destruct (CompareStrings_chunks_cover A B) as (cs & Hcs & Hc).
  exists (concat (encode_chunk <$> cs)), cs.
  split; [by apply CompareStrings_array|].
  split; [by apply (decode_cover _ _ _ _ _ _ Hc)|].
  split; [done|]. by apply Cover_ordered in Hc.
Qed.

Lemma C6_ordered_witness :
  let A := [97; 10; 98; 99; 10; 100; 10; 101] in
  let B := [97; 10; 98; 120; 99; 10; 100; 10; 102] in
  CompareStrings_fits A B
  /\ exists array cs,
       CompareStrings A B = Some array
       /\ decode_chunks 0 0 array = Some cs
       /\ CompareStrings_chunks A B = Some cs
       /\ chunks_ordered cs.
Proof.
  intros A B.
  assert (Hfits : CompareStrings_fits A B)
    by (vm_compute; split; discriminate).
  split; [done|]. exact (C6_ordered A B Hfits).
Defined.

Lemma length_delta_app cs1 cs2 :
  length_delta (cs1 ++ cs2) = length_delta cs1 + length_delta cs2.
Proof. induction cs1 as [|c cs1 IH]; simpl; lia. Qed.

(** C9. For texts whose table of lines stays within [int]: in the chunk
    list of [LiveEdit::CompareStrings] every chunk has bStart - aStart
    equal to the sum of (bLen - aLen) over the earlier chunks; so the gap
    between consecutive chunks is as long in the second text as in the
    first, and the chunk list can be read back from the returned array of
    triples (start, end in the old text, end in the new text). *)
Theorem C9_offset_invariant (A B : String) :
  CompareStrings_fits A B ->
  exists cs,
    CompareStrings_chunks A B = Some cs
    /\ (forall (k : nat) c, cs !! k = Some c ->
         c_pos2 c - c_pos1 c = length_delta (take k cs))
    /\ (forall (k : nat) c c', cs !! k = Some c -> cs !! S k = Some c' ->
         c_pos2 c' - (c_pos2 c + c_len2 c)
         = c_pos1 c' - (c_pos1 c + c_len1 c))
    /\ CompareStrings A B = Some (concat (encode_chunk <$> cs))
    /\ decode_chunks 0 0 (concat (encode_chunk <$> cs)) = Some cs.
Proof.
  intros _.
  destruct (CompareStrings_chunks_cover A B) as (cs & Hcs & Hc).
  exists cs. split; [done|].
  assert (Hd : forall (k : nat) c, cs !! k = Some c ->
            c_pos2 c - c_pos1 c = length_delta (take k cs)).
  { intros k c Hk. rewrite (Cover_delta _ _ _ _ _ _ Hc k c Hk). lia. }
  split; [done|]. split; [|split].
  - intros k c c' Hk Hk'.
    pose proof (Hd k c Hk) as E1. pose proof (Hd (S k) c' Hk') as E2.
    rewrite (take_S_r _ _ _ Hk), length_delta_app in E2. simpl in E2. lia.
  - by apply CompareStrings_array.
  - by apply (decode_cover _ _ _ _ _ _ Hc).
Qed.

Lemma C9_offset_invariant_witness :
  let A := [97; 10; 98; 99; 10; 100; 10; 101] in
  let B := [97; 10; 98; 120; 99; 10; 100; 10; 102] in
  CompareStrings_fits A B
  /\ exists cs,
       CompareStrings_chunks A B = Some cs
       /\ (forall (k : nat) c, cs !! k = Some c ->
            c_pos2 c - c_pos1 c = length_delta (take k cs))
       /\ (forall (k : nat) c c', cs !! k = Some c -> cs !! S k = Some c' ->
            c_pos2 c' - (c_pos2 c + c_len2 c)
            = c_pos1 c' - (c_pos1 c + c_len1 c))
       /\ CompareStrings A B = Some (concat (encode_chunk <$> cs))
       /\ decode_chunks 0 0 (concat (encode_chunk <$> cs)) = Some cs.
Proof.
  intros A B.
  assert (Hfits : CompareStrings_fits A B)
    by (vm_compute; split; discriminate).
  split; [done|]. exact (C9_offset_invariant A B Hfits).
Defined.

(** C8. [LiveEdit::CompareStrings] on the empty text and "abc" writes the
    one chunk (0, 0, 0, 3); on "abc" and the empty text the one chunk
    (0, 0, 3, 0); on two empty texts no chunk.  The returned arrays hold the
    triples of these chunks. *)
Theorem C8_empty_inputs :
  (CompareStrings_chunks [] [97; 98; 99] = Some [mkChunk 0 0 0 3]
   /\ CompareStrings [] [97; 98; 99] = Some [Smi 0; Smi 0; Smi 3])
  /\ (CompareStrings_chunks [97; 98; 99] [] = Some [mkChunk 0 0 3 0]
      /\ CompareStrings [97; 98; 99] [] = Some [Smi 0; Smi 3; Smi 0])
  /\ (CompareStrings_chunks [] [] = Some []
      /\ CompareStrings [] [] = Some []).
Proof. repeat split; vm_compute; reflexivity. Qed.

(** C10. Every chunk that the chunk merger hands to its sink, for any input
    with non-negative lengths (line or token granularity) whose table stays
    within [int], has non-negative lengths and at least one element: a
    chunk with both lengths zero is never emitted. *)
Theorem C10_nondegenerate {I : Type} `{Input I} (input_ : I) :
  0 <= GetLength1 input_ -> 0 <= GetLength2 input_ ->
  table_fits (GetLength1 input_) (GetLength2 input_) ->
  exists cs,
    CalculateDifference input_ ([] : list Chunk) = Some cs
    /\ Forall nondegenerate cs
    /\ forall (O : Type) (HO : Output O) (o : O),
         CalculateDifference input_ o = feed cs o.
Proof.
  intros H1 H2 _. exists (diff_chunks input_). split; [|split].
  - by rewrite CalculateDifference_feed, feed_log.
  - by apply diff_chunks_nondegenerate.
  - intros O HO o. apply CalculateDifference_feed.
Qed.

Lemma C10_nondegenerate_witness :
  let input_ := TokensCompareInput.mk [1; 2] 0 2 [2; 3] 0 2 in
  (0 <= GetLength1 input_ /\ 0 <= GetLength2 input_
   /\ table_fits (GetLength1 input_) (GetLength2 input_))
  /\ exists cs,
       CalculateDifference input_ ([] : list Chunk) = Some cs
       /\ Forall nondegenerate cs
       /\ forall (O : Type) (HO : Output O) (o : O),
            CalculateDifference input_ o = feed cs o.
Proof.
  split; [simpl; unfold table_fits, kMaxInt; lia|].
  apply (C10_nondegenerate (TokensCompareInput.mk [1; 2] 0 2 [2; 3] 0 2));
    simpl; unfold table_fits, kMaxInt; lia.
Defined.

Lemma cost_upper {I : Type} `{Input I} (input_ : I) (n : nat) : forall i j,
  (measure input_ i j <= n)%nat ->
  i <= len1_ input_ -> j <= len2_ input_ ->
  cost input_ i j <= (len1_ input_ - i) + (len2_ input_ - j).
Proof.
  induction n as [|n IH]; intros i j Hm Hi Hj; unfold measure in Hm;
    rewrite cost_unfold.
  - destruct (Z.ltb_spec i (len1_ input_)); [lia|lia].
  - destruct (Z.ltb_spec i (len1_ input_)); [|lia].
    destruct (Z.ltb_spec j (len2_ input_)); [|lia].
    destruct (Equals input_ i j).
    + specialize (IH (i + 1) (j + 1)). unfold measure in IH. lia.
    + specialize (IH (i + 1) j). unfold measure in IH. lia.
Qed.

(** C2. For every input whose table stays within [int] and every position
    (i, j) with 0 <= i <= len1 and 0 <= j <= len2, [CompareUpToTail (i, j)]
    returns, on any table that satisfies the table invariant and with the
    two direction bits shifted out, the least number of skips of an
    alignment of A[i:] with B[j:],
    which is (len1 - i) + (len2 - j) - 2 * (the largest number of matched
    pairs of an alignment); and the chunks that the comparison emits skip
    no more elements than any chunk covering that leads from A to B. *)
Theorem C2_cost_minimal {I : Type} `{Input I} (input_ : I) (i j : Z)
    (buffer_ : list Z) (fuel : nat) :
  0 <= i <= GetLength1 input_ -> 0 <= j <= GetLength2 input_ ->
  table_fits (GetLength1 input_) (GetLength2 input_) ->
  table_ok input_ buffer_ ->
  (measure input_ i j < fuel)%nat ->
  exists r buffer',
    CompareUpToTail input_ fuel i j buffer_ = Some (r, buffer')
    /\ 0 <= r <= kMaxInt
    /\ (exists p,
          Alignment input_ i j p
          /\ skips p = Z.shiftr r kDirectionSizeBits
          /\ Z.shiftr r kDirectionSizeBits
             = (GetLength1 input_ - i) + (GetLength2 input_ - j)
               - 2 * matches p
          /\ forall q, Alignment input_ i j q ->
               Z.shiftr r kDirectionSizeBits <= skips q
               /\ matches q <= matches p)
    /\ (exists cs0,
          CalculateDifference input_ ([] : list Chunk) = Some cs0
          /\ Cover (Equals input_) 0 0 cs0
                   (GetLength1 input_) (GetLength2 input_)
          /\ forall cs,
               Cover (Equals input_) 0 0 cs
                     (GetLength1 input_) (GetLength2 input_) ->
               total_skipped cs0 <= total_skipped cs).
Proof.
  intros Hi Hj [_ Hfits] Hok Hfuel.
  destruct (CompareUpToTail_spec input_ fuel i j buffer_ Hok Hi Hj Hfuel)
    as (b & E & _).
  exists (4 * cost input_ i j), b. split; [done|].
  split.
  { pose proof (cost_nonneg input_ i j) as Hn.
    pose proof (cost_upper input_ _ i j (le_n _)) as Hu.
    unfold len1_, len2_ in *. lia. }
  rewrite shiftr_value4.
  destruct (path_alignment input_ _ i j (le_n _) Hi Hj) as [Ha Hs].
  split.
  - exists (path input_ i j). split; [done|]. split; [done|].
    pose proof (Alignment_count input_ _ _ _ Ha) as Hc.
    unfold len1_, len2_ in Hc. split; [lia|].
    intros q Hq.
    pose proof (cost_le_alignment input_ _ _ _ Hq) as Hle.
    pose proof (Alignment_count input_ _ _ _ Hq) as Hcq.
    unfold len1_, len2_ in Hcq. lia.
  - exists (diff_chunks input_).
    assert (H1 : 0 <= len1_ input_) by (unfold len1_; lia).
    assert (H2 : 0 <= len2_ input_) by (unfold len2_; lia).
    split; [by rewrite CalculateDifference_feed, feed_log|].
    split; [by apply diff_chunks_cover|].
    intros cs Hcs. rewrite diff_chunks_total by done.
    by apply (cover_cost input_ 0 0 cs _ _ Hcs).
Qed.

Lemma C2_cost_minimal_witness :
  let input_ := TokensCompareInput.mk [1; 2] 0 2 [2; 3] 0 2 in
  (0 <= 0 <= GetLength1 input_ /\ 0 <= 0 <= GetLength2 input_
   /\ table_fits (GetLength1 input_) (GetLength2 input_)
   /\ table_ok input_ (Initialize input_)
   /\ (measure input_ 0 0 < table_fuel input_)%nat)
  /\ exists r buffer',
       CompareUpToTail input_ (table_fuel input_) 0 0 (Initialize input_)
       = Some (r, buffer')
       /\ Z.shiftr r kDirectionSizeBits = 2.
Proof.
  intros input_.
  assert (H1 : 0 <= 0 <= GetLength1 input_) by (simpl; lia).
  assert (H2 : 0 <= 0 <= GetLength2 input_) by (simpl; lia).
  assert (Hf : table_fits (GetLength1 input_) (GetLength2 input_))
    by (vm_compute; split; discriminate).
  assert (H3 : table_ok input_ (Initialize input_)) by apply Initialize_ok.
  assert (H4 : (measure input_ 0 0 < table_fuel input_)%nat)
    by (vm_compute; lia).
  split; [done|].
  destruct (C2_cost_minimal input_ 0 0 (Initialize input_)
              (table_fuel input_) H1 H2 Hf H3 H4) as (r & b & E & _).
  exists r, b. split; [done|].
  vm_compute in E. by injection E as <- _.
Defined.

(** C3 (as the code has it). For every input and every cell reached during
    path reconstruction whose direction tag is SKIP_ANY (a cost tie), the
    loop of [SaveResult] advances the index of the second sequence and
    emits a "skip 2" step of length one. *)
Theorem C3_tie_skips_second {I : Type} `{Input I} {O : Type} `{Output O}
    (input_ : I) (buffer_ : list Z) (pos1 pos2 : Z)
    (writer : ResultWriter.t O) :
  pos1 < GetLength1 input_ -> pos2 < GetLength2 input_ ->
  get_direction input_ buffer_ pos1 pos2 = Some SKIP_ANY ->
  SaveResult_step input_ buffer_ pos1 pos2 writer
  = Some (Continue pos1 (pos2 + 1) (ResultWriter.skip2 1 writer)).
Proof.
  intros H1 H2 Hd. unfold SaveResult_step, len1_, len2_.
  destruct (Z.ltb_spec pos1 (GetLength1 input_)); [|lia].
  destruct (Z.ltb_spec pos2 (GetLength2 input_)); [|lia].
  by rewrite Hd.
Qed.

Lemma C3_tie_skips_second_witness :
  let input_ := TokensCompareInput.mk [1] 0 1 [2] 0 1 in
  let buffer_ := [Z.lor 8 3] in
  let writer := ResultWriter.new ([] : list Chunk) in
  (0 < GetLength1 input_ /\ 0 < GetLength2 input_
   /\ get_direction input_ buffer_ 0 0 = Some SKIP_ANY)
  /\ SaveResult_step input_ buffer_ 0 0 writer
     = Some (Continue 0 (0 + 1) (ResultWriter.skip2 1 writer)).
Proof.
  intros input_ buffer_ writer.
  assert (H1 : 0 < GetLength1 input_) by (simpl; lia).
  assert (H2 : 0 < GetLength2 input_) by (simpl; lia).
  assert (H3 : get_direction input_ buffer_ 0 0 = Some SKIP_ANY)
    by reflexivity.
  split; [done|].
  exact (C3_tie_skips_second input_ buffer_ 0 0 writer H1 H2 H3).
Defined.

(** C3, the claim as stated, fails: comparing the one-element sequences
    [1] and [2] the filled table has the tag SKIP_ANY at (0, 0), and the
    loop of [SaveResult] does not advance the first index there. *)
Lemma C3_counterexample :
  let input_ := TokensCompareInput.mk [1] 0 1 [2] 0 1 in
  let writer := ResultWriter.new ([] : list Chunk) in
  exists buffer_,
    FillTable input_ (Initialize input_) = Some buffer_
    /\ get_direction input_ buffer_ 0 0 = Some SKIP_ANY
    /\ SaveResult_step input_ buffer_ 0 0 writer
       <> Some (Continue (0 + 1) 0 (ResultWriter.skip1 1 writer)).
Proof.
  exists [11]. split; [reflexivity|]. split; [reflexivity|].
  vm_compute. discriminate.
Qed.

(** C7. On an "equal" step the chunk merger first closes an open chunk and
    emits it with the pending starts as its position and the distances from
    the pending starts to the cursors as its lengths, then advances both
    cursors by one with no chunk open (with no chunk open it only
    advances); a run of skip steps of any mix of kinds with no equal step
    in between yields, at the next equal step or at the end of the stream,
    exactly one chunk; and a whole stream yields as many chunks as it has
    maximal runs of skip steps. *)
Theorem C7_chunk_merger :
  (forall (log : list Chunk) p1 p2 b1 b2,
     ResultWriter.eq (ResultWriter.mk log p1 p2 b1 b2 true)
     = Some (ResultWriter.mk (log ++ [mkChunk b1 b2 (p1 - b1) (p2 - b2)])
               (p1 + 1) (p2 + 1) b1 b2 false))
  /\ (forall (log : list Chunk) p1 p2 b1 b2,
       ResultWriter.eq (ResultWriter.mk log p1 p2 b1 b2 false)
       = Some (ResultWriter.mk log (p1 + 1) (p2 + 1) b1 b2 false))
  /\ (forall (log : list Chunk) p1 p2 b1 b2 s run,
       run_steps ((skip_step <$> s :: run) ++ [StepEq])
                 (ResultWriter.mk log p1 p2 b1 b2 false)
       = Some (ResultWriter.mk
                 (log ++ [mkChunk p1 p2 (skipped true (s :: run))
                                  (skipped false (s :: run))])
                 (p1 + skipped true (s :: run) + 1)
                 (p2 + skipped false (s :: run) + 1) p1 p2 false))
  /\ (forall (log : list Chunk) p1 p2 b1 b2 s run,
       run_steps (skip_step <$> s :: run)
                 (ResultWriter.mk log p1 p2 b1 b2 false)
       ≫= ResultWriter.close
       = Some (ResultWriter.mk
                 (log ++ [mkChunk p1 p2 (skipped true (s :: run))
                                  (skipped false (s :: run))])
                 (p1 + skipped true (s :: run))
                 (p2 + skipped false (s :: run)) p1 p2 false))
  /\ (forall steps : list Step,
       exists w,
         run_steps steps (ResultWriter.new ([] : list Chunk))
         ≫= ResultWriter.close = Some w
         /\ length (ResultWriter.chunk_writer_ w)
            = skip_runs_from false steps).
Proof.
  split; [done|]. split; [done|]. split; [|split].
  - intros. rewrite run_steps_app, run_skip_run_closed.
    cbn [mbind option_bind run_steps]. unfold ResultWriter.eq.
    cbn -[skipped]. by rewrite !Z.add_simpl_l.
  - intros. rewrite run_skip_run_closed.
    cbn [mbind option_bind]. unfold ResultWriter.close.
    cbn -[skipped]. by rewrite !Z.add_simpl_l.
  - intros steps.
    pose proof (run_steps_chunks steps
                  (ResultWriter.new ([] : list Chunk))) as E.
    rewrite feed_log in E. simpl in E.
    destruct (run_steps steps _ ≫= ResultWriter.close) as [w|]; [|done].
    exists w. split; [done|]. injection E as ->.
    by rewrite chunks_of_steps_length.
Qed.

(** C5 (as the code has it). For every line chunk handed to the line-level
    output: when both character lengths are below 800 the output writes
    the chunks of a nested token comparison (table and chunk merger, with
    no prefix or suffix trimming) of the chunk's two character spans, each
    moved by the chunk's character starts; otherwise it writes the
    character span as one chunk. *)
Theorem C5_nested_diff (x : TokenizingLineArrayCompareOutput.t)
    (line_pos1 line_pos2 line_len1 line_len2 : Z) :
  let le1 := TokenizingLineArrayCompareOutput.line_ends1_ x in
  let le2 := TokenizingLineArrayCompareOutput.line_ends2_ x in
  let p1 := line_pos1 + TokenizingLineArrayCompareOutput.subrange_offset1_ x in
  let p2 := line_pos2 + TokenizingLineArrayCompareOutput.subrange_offset2_ x in
  let char_pos1 := LineEndsWrapper.GetLineStart le1 p1 in
  let char_pos2 := LineEndsWrapper.GetLineStart le2 p2 in
  let char_len1 :=
    LineEndsWrapper.GetLineStart le1 (p1 + line_len1) - char_pos1 in
  let char_len2 :=
    LineEndsWrapper.GetLineStart le2 (p2 + line_len2) - char_pos2 in
  exists nested,
    CalculateDifference
      (TokensCompareInput.mk (TokenizingLineArrayCompareOutput.s1_ x)
                             char_pos1 char_len1
                             (TokenizingLineArrayCompareOutput.s2_ x)
                             char_pos2 char_len2)
      ([] : list Chunk) = Some nested
    /\ AddChunk line_pos1 line_pos2 line_len1 line_len2 x
       = Some (TokenizingLineArrayCompareOutput.set_array_writer
                 (write_all
                    (if (char_len1 <? 800) && (char_len2 <? 800)
                     then shift_chunk char_pos1 char_pos2 <$> nested
                     else [mkChunk char_pos1 char_pos2 char_len1 char_len2])
                    (TokenizingLineArrayCompareOutput.array_writer_ x))
                 x).
Proof.
  intros. eexists. split.
  - by rewrite CalculateDifference_feed, feed_log.
  - by rewrite AddChunk_expand.
Qed.

(** C5, the claim as stated, fails: for the one-line texts "xaa" and "ya"
    the code writes the chunks of the untrimmed token comparison, which
    differ from the chunks of a token comparison run after trimming. *)
Lemma C5_counterexample :
  let s1 := [120; 97; 97] in
  let s2 := [121; 97] in
  let x := TokenizingLineArrayCompareOutput.new
             (LineEndsWrapper.new s1) (LineEndsWrapper.new s2) s1 s2 in
  written_chunks <$> AddChunk 0 0 1 1 x
    = Some [mkChunk 0 0 1 1; mkChunk 2 2 1 0]
  /\ written_chunks <$> AddChunk_with_trimmer 0 0 1 1 x
     = Some [mkChunk 0 0 2 1]
  /\ AddChunk 0 0 1 1 x <> AddChunk_with_trimmer 0 0 1 1 x.
Proof.
  split; [vm_compute; reflexivity|]. split; [vm_compute; reflexivity|].
  vm_compute. discriminate.
Qed.

(** C4, the claim as stated, fails: for the texts "x\na\na\n" and
    "y\na\n" the pipeline with [NarrowDownInput] and the pipeline without
    it write different chunk lists. *)
Lemma C4_counterexample :
  let s1 := [120; 10; 97; 10; 97; 10] in
  let s2 := [121; 10; 97; 10] in
  CompareStrings_chunks s1 s2
    = Some [mkChunk 0 0 1 1; mkChunk 2 2 2 0]
  /\ CompareStrings_chunks_without_narrowing s1 s2
     = Some [mkChunk 0 0 1 1; mkChunk 4 4 2 0]
  /\ CompareStrings_chunks s1 s2
     <> CompareStrings_chunks_without_narrowing s1 s2.
Proof.
  split; [vm_compute; reflexivity|]. split; [vm_compute; reflexivity|].
  vm_compute. discriminate.
Qed.

(** The line view with a subrange is the whole line view moved. *)
Lemma line_Equals_offset (s1 s2 : String) (le1 le2 : LineEndsWrapper.t)
    (p n1 n2 a b : Z) :
  Equals (LineArrayCompareInput.mk s1 s2 le1 le2 p p n1 n2) a b
  = Equals (LineArrayCompareInput.new s1 s2 le1 le2) (a + p) (b + p).
Proof. simpl. by rewrite !Z.add_0_r. Qed.

(** When the line that begins the common suffix occurs in neither text
    between the common prefix and the common suffix, the pipeline writes
    with [NarrowDownInput] what it writes without it. *)
Lemma CompareStrings_chunks_narrowing_same (s1 s2 : String) :
  suffix_start_apart s1 s2 ->
  CompareStrings_chunks s1 s2 = CompareStrings_chunks_without_narrowing s1 s2.
Proof.
  intros Hapart. rewrite CompareStrings_chunks_eq.
  unfold CompareStrings_chunks_without_narrowing.
  rewrite CalculateDifference_feed, feed_line_output. simpl.
  rewrite written_write_all. simpl. f_equal.
  destruct (common_prefix_len_spec (line_input s1 s2)
              (line_input_len1 s1 s2) (line_input_len2 s1 s2))
    as (P1 & P2 & P3 & P4).
  destruct (common_suffix_len_spec (line_input s1 s2)
              (line_input_len1 s1 s2) (line_input_len2 s1 s2))
    as (Q1 & Q2 & Q3 & Q4).
  unfold suffix_start_apart in Hapart. cbv zeta in Hapart.
  set (p := common_prefix_len (line_input s1 s2)) in *.
  set (q := common_suffix_len (line_input s1 s2)) in *.
  set (le1 := LineEndsWrapper.new s1) in *.
  set (le2 := LineEndsWrapper.new s2) in *.
  change (GetLength1 (line_input s1 s2)) with (LineEndsWrapper.length le1)
    in *.
  change (GetLength2 (line_input s1 s2)) with (LineEndsWrapper.length le2)
    in *.
  set (n1 := LineEndsWrapper.length le1) in *.
  set (n2 := LineEndsWrapper.length le2) in *.
  set (xp := LineArrayCompareInput.mk s1 s2 le1 le2 p p (n1 - p) (n2 - p)).
  set (xpq := LineArrayCompareInput.mk s1 s2 le1 le2 p p
                (n1 - q - p) (n2 - q - p)).
  change (LineArrayCompareInput.new s1 s2 le1 le2) with (line_input s1 s2).
  assert (Hd : diff_chunks (line_input s1 s2)
               = shift_chunk p p <$> diff_chunks xp).
  { unfold diff_chunks.
    rewrite (path_prefix (line_input s1 s2) p P4 P2 P3 (Z.to_nat p) 0)
      by lia.
    rewrite chunks_of_steps_eq_prefix, !Z.add_0_l, Z2Nat.id by done.
    rewrite <- (path_shift (line_input s1 s2) xp p p).
    - rewrite !Z.add_0_l.
      apply (chunks_of_steps_shift _ p p 0 0 None).
    - unfold len1_, xp, n1, le1. simpl. lia.
    - unfold len2_, xp, n2, le2. simpl. lia.
    - intros a b. apply line_Equals_offset. }
  assert (Hs : diff_chunks xp = diff_chunks xpq).
  { destruct (decide (q = 0)) as [E0|Hq].
    - unfold xp, xpq. rewrite E0. do 2 f_equal; lia.
    - apply (diff_chunks_tail xp xpq q); unfold len1_, len2_, xp, xpq;
        cbn [GetLength1 GetLength2 LineArrayCompareInput.input
             LineArrayCompareInput.subrange_len1_
             LineArrayCompareInput.subrange_len2_]; try lia.
      + done.
      + intros k Hk. rewrite line_Equals_offset.
        replace (n1 - q - p + k + p) with (n1 - (q - 1 - k) - 1) by lia.
        replace (n2 - q - p + k + p) with (n2 - (q - 1 - k) - 1) by lia.
        apply Q4. lia.
      + intros j Hj. rewrite line_Equals_offset.
        replace (n1 - q - p + p) with (n1 - q) by lia.
        apply Hapart; lia.
      + intros i Hi. rewrite line_Equals_offset.
        replace (n2 - q - p + p) with (n2 - q) by lia.
        apply Hapart; lia. }
  fold xpq. rewrite Hd, <- Hs, <- list_fmap_compose. f_equal.
  apply list_fmap_ext. intros k c _.
  unfold compose, expand_chunk. simpl. by rewrite !Z.add_0_r.
Qed.

(** C4 (as the code has it). For every pair of texts whose table of lines
    stays within [int], also without narrowing: the pipeline with
    [NarrowDownInput] and the pipeline without it both write a chunk list
    that turns the first text into the second, and they write the same
    list whenever the line that begins the common suffix occurs in neither
    text between the common prefix and the common suffix, in particular
    whenever there is no common suffix.  Trimming a common prefix never
    changes the output. *)
Theorem C4_narrowing (s1 s2 : String) :
  table_fits (GetLength1 (line_input s1 s2))
             (GetLength2 (line_input s1 s2)) ->
  exists cs cs',
    CompareStrings_chunks s1 s2 = Some cs
    /\ CompareStrings s1 s2 = Some (concat (encode_chunk <$> cs))
    /\ CompareStrings_chunks_without_narrowing s1 s2 = Some cs'
    /\ apply_chunks s1 s2 0 cs = s2
    /\ apply_chunks s1 s2 0 cs' = s2
    /\ (suffix_start_apart s1 s2 -> cs = cs')
    /\ (common_suffix_len (line_input s1 s2) = 0 -> cs = cs').
Proof.
  intros _.
  destruct (CompareStrings_chunks_cover s1 s2) as (cs & Hcs & Hc).
  destruct (CompareStrings_chunks_without_narrowing_cover s1 s2)
    as (cs' & Hcs' & Hc').
  assert (Hsame : suffix_start_apart s1 s2 -> cs = cs').
  { intros Hapart.
    pose proof (CompareStrings_chunks_narrowing_same s1 s2 Hapart) as E.
    rewrite Hcs, Hcs' in E. by injection E. }
  exists cs, cs'. split; [done|].
  split; [by apply CompareStrings_array|]. split; [done|].
  split; [by rewrite (apply_cover s1 s2 0 0 cs _ _ Hc)|].
  split; [by rewrite (apply_cover s1 s2 0 0 cs' _ _ Hc')|].
  split; [done|].
  intros Hq. apply Hsame. unfold suffix_start_apart. cbv zeta.
  rewrite Hq. lia.
Qed.

(** The witness is the pair of texts "function f() {\nreturn 1;\n}" and
    "function f() {\nreturn 2;\n}": one common line before and one after
    the line that differs. *)
Lemma C4_narrowing_witness :
  let P := [102; 117; 110; 99; 116; 105; 111; 110; 32; 102; 40; 41; 32;
            123; 10] in
  let s1 := P ++ [114; 101; 116; 117; 114; 110; 32; 49; 59; 10; 125] in
  let s2 := P ++ [114; 101; 116; 117; 114; 110; 32; 50; 59; 10; 125] in
  (table_fits (GetLength1 (line_input s1 s2))
              (GetLength2 (line_input s1 s2))
   /\ common_prefix_len (line_input s1 s2) = 1
   /\ common_suffix_len (line_input s1 s2) = 1
   /\ suffix_start_apart s1 s2)
  /\ CompareStrings_chunks s1 s2 = Some [mkChunk 22 22 1 1]
  /\ CompareStrings_chunks_without_narrowing s1 s2 = Some [mkChunk 22 22 1 1].
Proof.
  intros P s1 s2.
  assert (Hfits : table_fits (GetLength1 (line_input s1 s2))
                             (GetLength2 (line_input s1 s2)))
    by (vm_compute; split; discriminate).
  assert (Hp : common_prefix_len (line_input s1 s2) = 1)
    by (vm_compute; reflexivity).
  assert (Hq : common_suffix_len (line_input s1 s2) = 1)
    by (vm_compute; reflexivity).
  assert (Hn1 : GetLength1 (line_input s1 s2) = 3)
    by (vm_compute; reflexivity).
  assert (Hn2 : GetLength2 (line_input s1 s2) = 3)
    by (vm_compute; reflexivity).
  assert (Hrow : Equals (line_input s1 s2) 2 1 = false)
    by (vm_compute; reflexivity).
  assert (Hcol : Equals (line_input s1 s2) 1 2 = false)
    by (vm_compute; reflexivity).
  assert (E1 : CompareStrings_chunks s1 s2 = Some [mkChunk 22 22 1 1])
    by (vm_compute; reflexivity).
  clearbody s1 s2. clear P.
  assert (Hapart : suffix_start_apart s1 s2).
  { unfold suffix_start_apart. cbv zeta. rewrite Hp, Hq, Hn1, Hn2.
    intros _. change (3 - 1) with 2.
    split; intros k Hk; assert (k = 1) as -> by lia; assumption. }
  split; [split; [exact Hfits|split; [exact Hp|split; [exact Hq|exact Hapart]]]|].
  split; [exact E1|].
  destruct (C4_narrowing s1 s2 Hfits)
    as (cs & cs' & E & _ & E' & _ & _ & Hsame & _).
  rewrite <- (Hsame Hapart) in E'. rewrite E'. rewrite <- E. exact E1.
Defined.

(** * Further properties *)

(** ** Translating positions *)

Lemma GetSmiElement_drop (a : list Object) (k : nat) :
  GetSmiElement a (Z.of_nat k)
  = match drop k a with Smi v :: _ => Some v | _ => None end.
Proof.
  unfold GetSmiElement.
  destruct (Z.ltb_spec (Z.of_nat k) 0); [lia|].
  rewrite Nat2Z.id.
  assert (E : a !! k = drop k a !! 0%nat)
    by (rewrite lookup_drop; f_equal; lia).
  rewrite E. by destruct (drop k a) as [|[v|] r].
Qed.

(** The loop over indices is the scan over the rest of the array. *)
Lemma TranslatePosition_loop_scan p (a : list Object) fuel : forall (k : nat) d,
  (length a - k < fuel)%nat ->
  TranslatePosition_loop fuel p a (Z.of_nat (length a)) (Z.of_nat k) d
  = translate_scan p (drop k a) d.
Proof.
  induction fuel as [|fuel IH]; intros k d Hf; [lia|].
  simpl.
  destruct (Z.ltb_spec (Z.of_nat k) (Z.of_nat (length a))) as [Hlt|Hge].
  2:{ by rewrite drop_ge by lia. }
  replace (Z.of_nat k + 1) with (Z.of_nat (S k)) by lia.
  replace (Z.of_nat k + 2) with (Z.of_nat (S (S k))) by lia.
  replace (Z.of_nat k + 3) with (Z.of_nat (S (S (S k)))) by lia.
  assert (D1 : drop (S k) a = drop 1 (drop k a))
    by (rewrite drop_drop; f_equal; lia).
  assert (D2 : drop (S (S k)) a = drop 2 (drop k a))
    by (rewrite drop_drop; f_equal; lia).
  assert (D3 : drop (S (S (S k))) a = drop 3 (drop k a))
    by (rewrite drop_drop; f_equal; lia).
  rewrite (GetSmiElement_drop a k).
  assert (Hl : length (drop k a) <> 0%nat) by (rewrite length_drop; lia).
  destruct (drop k a) as [|[b|] r]; simpl; try done.
  destruct (p <? b); [done|].
  rewrite (GetSmiElement_drop a (S k)), D1.
  destruct r as [|[e|] r]; simpl; try done.
  rewrite (GetSmiElement_drop a (S (S k))), D2.
  destruct r as [|[e'|] r]; simpl; try done.
  rewrite IH by lia. by rewrite D3.
Qed.

Lemma TranslatePosition_scan p (a : list Object) :
  TranslatePosition p a = (fun d => p + d) <$> translate_scan p a 0.
Proof.
  unfold TranslatePosition, GetArrayLength.
  rewrite (TranslatePosition_loop_scan p a _ 0 0) by lia.
  rewrite drop_0. by destruct (translate_scan p a 0).
Qed.

Lemma Cover_within eqb i j cs i' j' :
  Cover eqb i j cs i' j' -> Forall (chunk_within i j i' j') cs.
Proof.
  induction 1 as [| i j cs i' j' He Hc IH | i j a b cs i' j' Ha Hb Hc IH].
  - constructor.
  - eapply Forall_impl; [exact IH|]. unfold chunk_within. intros c. lia.
  - destruct (Cover_le _ _ _ _ _ _ Hc). constructor.
    + unfold chunk_within. simpl. lia.
    + eapply Forall_impl; [exact IH|]. unfold chunk_within. intros c. lia.
Qed.

Lemma translate_scan_before p cs d :
  Forall (fun c => p < c_pos1 c) cs ->
  translate_scan p (concat (encode_chunk <$> cs)) d = Some d.
Proof.
  intros Hf. destruct cs as [|c cs]; [done|].
  apply Forall_cons in Hf as [Hc _]. simpl.
  destruct (Z.ltb_spec p (c_pos1 c)); [done|lia].
Qed.

Lemma chunks_upto_before p cs :
  Forall (fun c => p < c_pos1 c) cs -> chunks_upto p cs = [].
Proof.
  induction 1 as [|c cs Hc _ IH]; simpl; [done|].
  destruct (Z.leb_spec (c_pos1 c) p); [lia|done].
Qed.

Lemma Cover_after eqb i j cs i' j' p :
  Cover eqb i j cs i' j' -> p < i -> Forall (fun c => p < c_pos1 c) cs.
Proof.
  intros Hc Hp. apply Cover_within in Hc.
  eapply Forall_impl; [exact Hc|]. unfold chunk_within. intros c. lia.
Qed.

(** Over the array of a covering the scan never fails. *)
Lemma translate_scan_total p cs : forall d,
  is_Some (translate_scan p (concat (encode_chunk <$> cs)) d).
Proof.
  induction cs as [|c cs IH]; intros d; simpl; [done|].
  destruct (p <? c_pos1 c); [done|]. apply IH.
Qed.

(** The scan over a covering: a position that no chunk replaces moves by
    the growth of the chunks that begin at or before it, and lands on the
    position that the covering pairs it with. *)
Lemma translate_cover eqb i j cs i' j' :
  Cover eqb i j cs i' j' ->
  forall p, i <= p <= i' -> outside_chunks p cs ->
    let d := (j - i) + length_delta (chunks_upto p cs) in
    translate_scan p (concat (encode_chunk <$> cs)) (j - i) = Some d
    /\ j <= p + d <= j'
    /\ (p < i' -> eqb p (p + d) = true /\ p + d < j')
    /\ (p = i' -> p + d = j').
Proof.
  induction 1 as [| i j cs i' j' He Hc IH | i j a b cs i' j' Ha Hb Hc IH];
    intros p Hp Hout.
  - simpl. rewrite Z.add_0_r.
    assert (p = i) as -> by lia.
    replace (i + (j - i)) with j by lia.
    repeat split; (done || lia).
  - destruct (Cover_le _ _ _ _ _ _ Hc).
    destruct (Z.eq_dec p i) as [->|Hne].
    + pose proof (Cover_after _ _ _ _ _ _ i Hc ltac:(lia)) as Hafter.
      rewrite chunks_upto_before, translate_scan_before by done.
      cbn [length_delta foldr]. rewrite Z.add_0_r.
      replace (i + (j - i)) with j by lia.
      repeat split; (done || lia).
    + specialize (IH p ltac:(lia) Hout).
      replace (j + 1 - (i + 1)) with (j - i) in IH by lia.
      destruct IH as (E & Hr & Hlt & Heq).
      split; [done|]. split; [lia|]. split; [|done].
      intros Hx. destruct (Hlt Hx). by split.
  - destruct (Cover_le _ _ _ _ _ _ Hc).
    apply Forall_cons in Hout as [Hc1 Hout]. simpl in Hc1.
    specialize (IH p ltac:(lia) Hout).
    rewrite fmap_cons. cbn [concat encode_chunk app translate_scan c_pos1
                            c_pos2 c_len1 c_len2 chunks_upto List.filter].
    destruct (Z.ltb_spec p i); [lia|].
    destruct (Z.leb_spec i p); [|lia].
    fold (chunks_upto p cs). cbn [length_delta foldr c_len1 c_len2].
    fold (length_delta (chunks_upto p cs)).
    replace (j + b - (i + a)) with (j + b - (i + a)) in IH by lia.
    destruct IH as (E & Hr & Hlt & Heq).
    replace (j - i + (b - a + length_delta (chunks_upto p cs)))
      with (j + b - (i + a) + length_delta (chunks_upto p cs)) by lia.
    split; [done|]. split; [lia|]. split; [|done].
    intros Hx. destruct (Hlt Hx). by split.
Qed.

(** Two positions that no chunk replaces keep their order. *)
Lemma translate_cover_mono eqb i j cs i' j' :
  Cover eqb i j cs i' j' ->
  forall p p', i <= p -> p < p' -> p' <= i' ->
    outside_chunks p cs -> outside_chunks p' cs ->
    p + length_delta (chunks_upto p cs)
    < p' + length_delta (chunks_upto p' cs).
Proof.
  induction 1 as [| i j cs i' j' He Hc IH | i j a b cs i' j' Ha Hb Hc IH];
    intros p p' Hp Hlt Hp' Hout Hout'.
  - lia.
  - destruct (Z.eq_dec p i) as [->|Hne].
    + pose proof (Cover_after _ _ _ _ _ _ i Hc ltac:(lia)) as Hafter.
      rewrite (chunks_upto_before i) by done.
      destruct (translate_cover _ _ _ _ _ _ Hc p' ltac:(lia) Hout')
        as (_ & Hr & _).
      cbn [length_delta foldr]. lia.
    + apply IH; (done || lia).
  - apply Forall_cons in Hout as [Hc1 Hout].
    apply Forall_cons in Hout' as [Hc1' Hout']. simpl in Hc1, Hc1'.
    specialize (IH p p' ltac:(lia) Hlt Hp' Hout Hout').
    cbn [chunks_upto List.filter c_pos1].
    destruct (Z.leb_spec i p); [|lia]. destruct (Z.leb_spec i p'); [|lia].
    fold (chunks_upto p cs). fold (chunks_upto p' cs).
    cbn [length_delta foldr c_len1 c_len2].
    fold (length_delta (chunks_upto p cs)).
    fold (length_delta (chunks_upto p' cs)). lia.
Qed.

Lemma CompareStrings_cover_of (A B : String) cs :
  CompareStrings_chunks A B = Some cs ->
  Cover (char_eqb A B) 0 0 cs (String_length A) (String_length B)
  /\ CompareStrings A B = Some (concat (encode_chunk <$> cs)).
Proof.
  intros Hcs.
  destruct (CompareStrings_chunks_cover A B) as (cs' & Hcs' & Hc).
  rewrite Hcs in Hcs'. injection Hcs' as <-.
  split; [done|]. by apply CompareStrings_array.
Qed.

(** X1. [TranslatePosition] on the array of [LiveEdit::CompareStrings]: a
    position of the old text that no chunk replaces is sent to a position of
    the new text that holds the same character, and the end of the old text
    is sent to the end of the new text. *)
Theorem TranslatePosition_keeps_character (A B : String) cs p :
  CompareStrings_chunks A B = Some cs ->
  0 <= p <= String_length A ->
  outside_chunks p cs ->
  exists array q,
    CompareStrings A B = Some array
    /\ TranslatePosition p array = Some q
    /\ 0 <= q <= String_length B
    /\ (p < String_length A -> q < String_length B /\ Get A p = Get B q)
    /\ (p = String_length A -> q = String_length B).
Proof.
  intros Hcs Hp Hout.
  destruct (CompareStrings_cover_of A B cs Hcs) as [Hc Ha].
  destruct (translate_cover _ _ _ _ _ _ Hc p Hp Hout) as (E & Hr & Hlt & Heq).
  rewrite Z.sub_diag in E. simpl in *.
  eexists _, _. split; [exact Ha|].
  rewrite TranslatePosition_scan, E. simpl.
  split; [done|]. split; [lia|]. split; [|done].
  intros Hx. destruct (Hlt Hx) as [He Hq]. split; [done|].
  by apply Z.eqb_eq.
Qed.

Lemma TranslatePosition_keeps_character_witness :
  let A := [97; 98; 99] in
  let B := [97; 120; 98; 99] in
  let cs := [mkChunk 1 1 0 1] in
  (CompareStrings_chunks A B = Some cs
   /\ 0 <= 2 <= String_length A
   /\ outside_chunks 2 cs)
  /\ exists array q,
       CompareStrings A B = Some array
       /\ TranslatePosition 2 array = Some q
       /\ 0 <= q <= String_length B
       /\ (2 < String_length A -> q < String_length B /\ Get A 2 = Get B q)
       /\ (2 = String_length A -> q = String_length B).
Proof.
  intros A B cs.
  assert (H1 : CompareStrings_chunks A B = Some cs) by (vm_compute; reflexivity).
  assert (H2 : 0 <= 2 <= String_length A) by (vm_compute; split; discriminate).
  assert (H3 : outside_chunks 2 cs)
    by (repeat constructor; simpl; lia).
  split; [done|].
  exact (TranslatePosition_keeps_character A B cs 2 H1 H2 H3).
Defined.

(** X2. On the array of [LiveEdit::CompareStrings] a position that no chunk
    replaces moves by the total growth (new length minus old length) of the
    chunks that begin at or before it; a position before the first chunk
    does not move. *)
Theorem TranslatePosition_cumulative_delta (A B : String) cs p :
  CompareStrings_chunks A B = Some cs ->
  0 <= p <= String_length A ->
  outside_chunks p cs ->
  exists array,
    CompareStrings A B = Some array
    /\ TranslatePosition p array
       = Some (p + length_delta (chunks_upto p cs))
    /\ (Forall (fun c => p < c_pos1 c) cs ->
        TranslatePosition p array = Some p).
Proof.
  intros Hcs Hp Hout.
  destruct (CompareStrings_cover_of A B cs Hcs) as [Hc Ha].
  destruct (translate_cover _ _ _ _ _ _ Hc p Hp Hout) as (E & _).
  rewrite Z.sub_diag in E. simpl in E.
  eexists. split; [exact Ha|].
  rewrite TranslatePosition_scan, E. simpl. split; [done|].
  intros Hb. rewrite chunks_upto_before by done. simpl.
  by rewrite Z.add_0_r.
Qed.

Lemma TranslatePosition_cumulative_delta_witness :
  let A := [97; 98; 99] in
  let B := [97; 120; 98; 99] in
  let cs := [mkChunk 1 1 0 1] in
  (CompareStrings_chunks A B = Some cs
   /\ 0 <= 2 <= String_length A
   /\ outside_chunks 2 cs)
  /\ exists array,
       CompareStrings A B = Some array
       /\ TranslatePosition 2 array
          = Some (2 + length_delta (chunks_upto 2 cs))
       /\ (Forall (fun c => 2 < c_pos1 c) cs ->
           TranslatePosition 2 array = Some 2).
Proof.
  intros A B cs.
  assert (H1 : CompareStrings_chunks A B = Some cs) by (vm_compute; reflexivity).
  assert (H2 : 0 <= 2 <= String_length A) by (vm_compute; split; discriminate).
  assert (H3 : outside_chunks 2 cs)
    by (repeat constructor; simpl; lia).
  split; [done|].
  exact (TranslatePosition_cumulative_delta A B cs 2 H1 H2 H3).
Defined.

(** X3. On the array of [LiveEdit::CompareStrings], [TranslatePosition]
    keeps the order of the positions that no chunk replaces: a smaller
    position is sent to a strictly smaller position. *)
Theorem TranslatePosition_monotone (A B : String) cs p p' :
  CompareStrings_chunks A B = Some cs ->
  0 <= p -> p < p' -> p' <= String_length A ->
  outside_chunks p cs -> outside_chunks p' cs ->
  exists array q q',
    CompareStrings A B = Some array
    /\ TranslatePosition p array = Some q
    /\ TranslatePosition p' array = Some q'
    /\ q < q'.
Proof.
  intros Hcs Hp Hlt Hp' Hout Hout'.
  destruct (CompareStrings_cover_of A B cs Hcs) as [Hc Ha].
  destruct (translate_cover _ _ _ _ _ _ Hc p ltac:(lia) Hout) as (E & _).
  destruct (translate_cover _ _ _ _ _ _ Hc p' ltac:(lia) Hout') as (E' & _).
  rewrite Z.sub_diag in E, E'. simpl in E, E'.
  pose proof (translate_cover_mono _ _ _ _ _ _ Hc p p' Hp Hlt Hp' Hout Hout').
  eexists _, _, _. split; [exact Ha|].
  rewrite !TranslatePosition_scan, E, E'. simpl. by repeat split.
Qed.

Lemma TranslatePosition_monotone_witness :
  let A := [97; 98; 99] in
  let B := [97; 120; 98; 99] in
  let cs := [mkChunk 1 1 0 1] in
  (CompareStrings_chunks A B = Some cs
   /\ 0 <= 0 /\ 0 < 2 /\ 2 <= String_length A
   /\ outside_chunks 0 cs /\ outside_chunks 2 cs)
  /\ exists array q q',
       CompareStrings A B = Some array
       /\ TranslatePosition 0 array = Some q
       /\ TranslatePosition 2 array = Some q'
       /\ q < q'.
Proof.
  intros A B cs.
  assert (H1 : CompareStrings_chunks A B = Some cs) by (vm_compute; reflexivity).
  assert (H2 : 0 <= 0) by lia.
  assert (H3 : 0 < 2) by lia.
  assert (H4 : 2 <= String_length A) by (vm_compute; discriminate).
  assert (H5 : outside_chunks 0 cs) by (repeat constructor; simpl; lia).
  assert (H6 : outside_chunks 2 cs) by (repeat constructor; simpl; lia).
  split; [done|].
  exact (TranslatePosition_monotone A B cs 0 2 H1 H2 H3 H4 H5 H6).
Defined.

(** The loop of a build with DCHECKs is the scan with the check. *)
Lemma TranslatePosition_loop_dcheck_scan p (a : list Object) fuel :
  forall (k : nat) d,
  (length a - k < fuel)%nat ->
  TranslatePosition_loop_dcheck fuel p a (Z.of_nat (length a)) (Z.of_nat k) d
  = translate_scan_dcheck p (drop k a) d.
Proof.
  induction fuel as [|fuel IH]; intros k d Hf; [lia|].
  simpl.
  destruct (Z.ltb_spec (Z.of_nat k) (Z.of_nat (length a))) as [Hlt|Hge].
  2:{ by rewrite drop_ge by lia. }
  replace (Z.of_nat k + 1) with (Z.of_nat (S k)) by lia.
  replace (Z.of_nat k + 2) with (Z.of_nat (S (S k))) by lia.
  replace (Z.of_nat k + 3) with (Z.of_nat (S (S (S k)))) by lia.
  assert (D1 : drop (S k) a = drop 1 (drop k a))
    by (rewrite drop_drop; f_equal; lia).
  assert (D2 : drop (S (S k)) a = drop 2 (drop k a))
    by (rewrite drop_drop; f_equal; lia).
  assert (D3 : drop (S (S (S k))) a = drop 3 (drop k a))
    by (rewrite drop_drop; f_equal; lia).
  rewrite (GetSmiElement_drop a k).
  assert (Hl : length (drop k a) <> 0%nat) by (rewrite length_drop; lia).
  destruct (drop k a) as [|[b|] r]; simpl; try done.
  destruct (p <? b); [done|].
  rewrite (GetSmiElement_drop a (S k)), D1.
  destruct r as [|[e|] r]; simpl; try done.
  destruct (e <=? p); simpl; [|done].
  rewrite (GetSmiElement_drop a (S (S k))), D2.
  destruct r as [|[e'|] r]; simpl; try done.
  rewrite IH by lia. by rewrite D3.
Qed.

Lemma TranslatePosition_dcheck_scan p (a : list Object) :
  TranslatePosition_dcheck p a
  = (fun d => p + d) <$> translate_scan_dcheck p a 0.
Proof.
  unfold TranslatePosition_dcheck, GetArrayLength.
  rewrite (TranslatePosition_loop_dcheck_scan p a _ 0 0) by lia.
  rewrite drop_0. by destruct (translate_scan_dcheck p a 0).
Qed.

(** Over the array of a covering the DCHECK holds for the positions that
    no chunk replaces, and only for them. *)
Lemma translate_scan_dcheck_cover eqb i j cs i' j' :
  Cover eqb i j cs i' j' ->
  forall p d,
    (outside_chunks p cs ->
     translate_scan_dcheck p (concat (encode_chunk <$> cs)) d
     = translate_scan p (concat (encode_chunk <$> cs)) d)
    /\ (~ outside_chunks p cs ->
        translate_scan_dcheck p (concat (encode_chunk <$> cs)) d = None).
Proof.
  induction 1 as [| i j cs i' j' He Hc IH | i j a b cs i' j' Ha Hb Hc IH];
    intros p d.
  - split; [done|]. intros Hn. destruct Hn. constructor.
  - apply IH.
  - rewrite fmap_cons.
    cbn [concat encode_chunk app translate_scan translate_scan_dcheck
         c_pos1 c_pos2 c_len1 c_len2].
    destruct (Z.ltb_spec p i) as [Hlt|Hge].
    { split; [done|]. intros Hn. destruct Hn. constructor.
      - simpl. lia.
      - pose proof (Cover_after _ _ _ _ _ _ p Hc ltac:(lia)) as Hafter.
        eapply Forall_impl; [exact Hafter|]. simpl. intros c. lia. }
    destruct (Z.leb_spec (i + a) p) as [Hend|Hin]; cbn [negb].
    + destruct (IH p (j + b - (i + a))) as [IH1 IH2]. split.
      * intros Hout. apply Forall_cons in Hout as [_ Hout]. by apply IH1.
      * intros Hn. apply IH2. intros Hout. apply Hn.
        constructor; [simpl; lia|done].
    + split; [|done]. intros Hout.
      apply Forall_cons in Hout as [Hc1 _]. simpl in Hc1. lia.
Qed.

(** X4. On the array of [LiveEdit::CompareStrings], for texts whose table
    of lines stays within [int]: the three CHECKs of [TranslatePosition]
    never fail, for any position (also a negative one, one inside a chunk
    or one past the end), so a release build returns; the DCHECK of a
    debug build holds exactly for the positions that no chunk replaces,
    where the result is the same, and fails for a position inside a chunk.
    On an array that ends inside a triple which the scan reaches, the
    CHECK of the missing element fails. *)
Theorem TranslatePosition_checks (A B : String) (p : Z) :
  CompareStrings_fits A B ->
  (exists array cs q,
     CompareStrings A B = Some array
     /\ CompareStrings_chunks A B = Some cs
     /\ TranslatePosition p array = Some q
     /\ (outside_chunks p cs -> TranslatePosition_dcheck p array = Some q)
     /\ (~ outside_chunks p cs -> TranslatePosition_dcheck p array = None))
  /\ (forall chunk_start, chunk_start <= p ->
      TranslatePosition p [Smi chunk_start] = None)
  /\ (forall chunk_start chunk_end, chunk_start <= p ->
      TranslatePosition p [Smi chunk_start; Smi chunk_end] = None)
  /\ (forall chunk_start chunk_end, chunk_start <= p ->
      TranslatePosition p [Smi chunk_start; Smi chunk_end; the_hole] = None).
Proof.
  intros _. split.
  - destruct (CompareStrings_chunks_cover A B) as (cs & Hcs & Hc).
    destruct (translate_scan_total p cs 0) as [d E].
    destruct (translate_scan_dcheck_cover _ _ _ _ _ _ Hc p 0) as [D1 D2].
    exists (concat (encode_chunk <$> cs)), cs, (p + d).
    split; [by apply CompareStrings_array|]. split; [done|].
    split; [by rewrite TranslatePosition_scan, E|]. split.
    + intros Hout. by rewrite TranslatePosition_dcheck_scan, D1, E.
    + intros Hin. by rewrite TranslatePosition_dcheck_scan, D2.
  - repeat split; intros; rewrite TranslatePosition_scan; simpl;
      destruct (Z.ltb_spec p chunk_start); (done || lia).
Qed.

(** The witness: in "abc" against "axc" the position 1 lies inside the one
    chunk; a release build translates it, the DCHECK fails. *)
Lemma TranslatePosition_checks_witness :
  let A := [97; 98; 99] in
  let B := [97; 120; 99] in
  CompareStrings_fits A B
  /\ CompareStrings_chunks A B = Some [mkChunk 1 1 1 1]
  /\ ~ outside_chunks 1 [mkChunk 1 1 1 1]
  /\ exists array,
       CompareStrings A B = Some array
       /\ is_Some (TranslatePosition 1 array)
       /\ TranslatePosition_dcheck 1 array = None.
Proof.
  intros A B.
  assert (Hfits : CompareStrings_fits A B)
    by (vm_compute; split; discriminate).
  assert (Hcs : CompareStrings_chunks A B = Some [mkChunk 1 1 1 1])
    by (vm_compute; reflexivity).
  assert (Hin : ~ outside_chunks 1 [mkChunk 1 1 1 1]).
  { intros Hout. apply Forall_cons in Hout as [Hc _]. simpl in Hc. lia. }
  split; [done|]. split; [done|]. split; [done|].
  destruct (TranslatePosition_checks A B 1 Hfits)
    as ((array & cs & q & Ha & Hcs' & Hq & _ & Hd) & _).
  rewrite Hcs in Hcs'. injection Hcs' as <-.
  exists array. split; [done|]. split; [by rewrite Hq|]. by apply Hd.
Defined.

(** ** One comparison: when it reports nothing, where its chunks lie *)

Lemma Cover_nil_inv eqb i j i' j' :
  Cover eqb i j [] i' j' ->
  i' - i = j' - j
  /\ forall k, 0 <= k < i' - i -> eqb (i + k) (j + k) = true.
Proof.
  intros Hc. remember [] as cs eqn:E.
  induction Hc as [| i j cs i' j' He Hc IH | ]; [| |done].
  - split; [lia|]. intros; lia.
  - destruct (IH E) as [H1 H2]. split; [lia|].
    intros k Hk. destruct (Z.eq_dec k 0) as [->|].
    + by rewrite !Z.add_0_r.
    + replace (i + k) with (i + 1 + (k - 1)) by lia.
      replace (j + k) with (j + 1 + (k - 1)) by lia.
      apply H2. lia.
Qed.

Lemma total_skipped_nondegenerate cs :
  Forall nondegenerate cs -> Z.of_nat (length cs) <= total_skipped cs.
Proof.
  induction 1 as [|c cs Hc _ IH]; simpl; [lia|].
  destruct Hc as (? & ? & ?). lia.
Qed.

Section NoChunks.
Context {I : Type} `{Input I} (input_ : I).
Hypothesis Hlen1 : 0 <= GetLength1 input_.
Hypothesis Hlen2 : 0 <= GetLength2 input_.

Lemma diff_chunks_nil_iff :
  diff_chunks input_ = []
  <-> GetLength1 input_ = GetLength2 input_
      /\ forall k, 0 <= k < GetLength1 input_ -> Equals input_ k k = true.
Proof using Hlen1 Hlen2.
  split.
  - intros E. pose proof (diff_chunks_cover input_ Hlen1 Hlen2) as Hc.
    rewrite E in Hc. apply Cover_nil_inv in Hc as [H1 H2].
    unfold len1_, len2_ in *. split; [lia|].
    intros k Hk. specialize (H2 k). rewrite !Z.add_0_l in H2.
    apply H2. lia.
  - intros [E He].
    pose proof (Cover_equal_run (Equals input_)
                  (Z.to_nat (GetLength1 input_)) 0 0) as Hc.
    rewrite !Z.add_0_l, Z2Nat.id in Hc by done.
    assert (Hcov : Cover (Equals input_) 0 0 []
                     (len1_ input_) (len2_ input_)).
    { unfold len1_, len2_. rewrite <- E. apply Hc.
      intros k Hk. rewrite !Z.add_0_l. by apply He. }
    pose proof (cover_cost input_ 0 0 [] _ _ Hcov eq_refl eq_refl) as Hcost.
    pose proof (diff_chunks_total input_ Hlen1 Hlen2) as Ht.
    pose proof (total_skipped_nondegenerate _
                  (diff_chunks_nondegenerate input_ Hlen1 Hlen2)) as Hn.
    simpl in Hcost.
    destruct (diff_chunks input_); [done|]. simpl length in Hn. lia.
Qed.
End NoChunks.

(** X5. One comparison whose table stays within [int] hands its sink no
    chunk exactly when the two sequences have the same length and agree
    element by element. *)
Theorem CalculateDifference_no_chunks_iff {I : Type} `{Input I}
    (input_ : I) :
  0 <= GetLength1 input_ -> 0 <= GetLength2 input_ ->
  table_fits (GetLength1 input_) (GetLength2 input_) ->
  (CalculateDifference input_ ([] : list Chunk) = Some []
   <-> GetLength1 input_ = GetLength2 input_
       /\ forall k, 0 <= k < GetLength1 input_ ->
            Equals input_ k k = true).
Proof.
  intros H1 H2 _. rewrite CalculateDifference_feed, feed_log. simpl.
  rewrite <- (diff_chunks_nil_iff input_ H1 H2).
  split; [by intros [= ->]|by intros ->].
Qed.

Lemma CalculateDifference_no_chunks_iff_witness :
  let input_ := TokensCompareInput.mk [1; 2] 0 2 [1; 2] 0 2 in
  (0 <= GetLength1 input_ /\ 0 <= GetLength2 input_
   /\ table_fits (GetLength1 input_) (GetLength2 input_))
  /\ (CalculateDifference input_ ([] : list Chunk) = Some []
      <-> GetLength1 input_ = GetLength2 input_
          /\ forall k, 0 <= k < GetLength1 input_ ->
               Equals input_ k k = true).
Proof.
  intros input_.
  assert (H1 : 0 <= GetLength1 input_) by (simpl; lia).
  assert (H2 : 0 <= GetLength2 input_) by (simpl; lia).
  assert (Hf : table_fits (GetLength1 input_) (GetLength2 input_))
    by (vm_compute; split; discriminate).
  split; [done|].
  exact (CalculateDifference_no_chunks_iff input_ H1 H2 Hf).
Defined.

Lemma separated_from_weaken cs : forall e1 e2 e1' e2',
  e1' <= e1 -> e2' <= e2 ->
  separated_from e1 e2 cs -> separated_from e1' e2' cs.
Proof.
  destruct cs as [|c cs]; simpl; [done|].
  intros e1 e2 e1' e2' H1 H2 (A & B & C). split; [lia|]. split; [lia|done].
Qed.

Lemma separated_from_lookup cs : forall e1 e2,
  separated_from e1 e2 cs -> chunks_separated cs.
Proof.
  induction cs as [|c cs IH]; intros e1 e2 Hs k d d' Hk Hk'.
  - by rewrite lookup_nil in Hk.
  - destruct Hs as (_ & _ & Hs). destruct k as [|k]; simpl in *.
    + injection Hk as <-. destruct cs as [|c' cs]; [done|].
      injection Hk' as <-. simpl in Hs. lia.
    + by apply (IH _ _ Hs k).
Qed.

(** The chunks that an alignment merges into are apart from each other. *)
Lemma chunks_separated_steps {I : Type} `{Input I} (input_ : I) i j steps :
  Alignment input_ i j steps ->
  separated_from (i - 1) (j - 1) (chunks_of_steps steps i j None)
  /\ forall b1 b2, b1 <= i -> b2 <= j ->
       separated_from (b1 - 1) (b2 - 1)
                      (chunks_of_steps steps i j (Some (b1, b2))).
Proof.
  induction 1 as [| i j p Hi Hj He Ha [IH1 IH2] | i j n p Hn Ha [IH1 IH2]
                  | i j n p Hn Ha [IH1 IH2]]; simpl.
  - split; [done|]. intros. simpl. lia.
  - split.
    + apply (separated_from_weaken _ (i + 1 - 1) (j + 1 - 1)); (done || lia).
    + intros b1 b2 H1 H2. simpl. split; [lia|]. split; [lia|].
      apply (separated_from_weaken _ (i + 1 - 1) (j + 1 - 1)); (done || lia).
  - split; [|intros b1 b2 H1 H2]; apply IH2; lia.
  - split; [|intros b1 b2 H1 H2]; apply IH2; lia.
Qed.

(** X6. The chunks of one comparison whose table stays within [int] lie
    inside the two sequences, one after the other, and never touch: between
    two consecutive chunks there is at least one element of either
    sequence. *)
Theorem CalculateDifference_chunks_apart {I : Type} `{Input I}
    (input_ : I) :
  0 <= GetLength1 input_ -> 0 <= GetLength2 input_ ->
  table_fits (GetLength1 input_) (GetLength2 input_) ->
  exists cs,
    CalculateDifference input_ ([] : list Chunk) = Some cs
    /\ Forall (chunk_within 0 0 (GetLength1 input_) (GetLength2 input_)) cs
    /\ chunks_separated cs.
Proof.
  intros H1 H2 _. exists (diff_chunks input_).
  split; [by rewrite CalculateDifference_feed, feed_log|]. split.
  - apply (Cover_within (Equals input_)). by apply diff_chunks_cover.
  - destruct (diff_chunks_path input_ H1 H2) as [Ha _].
    destruct (chunks_separated_steps input_ 0 0 _ Ha) as [Hs _].
    by apply separated_from_lookup in Hs.
Qed.

Lemma CalculateDifference_chunks_apart_witness :
  let input_ := TokensCompareInput.mk [1; 2; 3] 0 3 [2; 4] 0 2 in
  (0 <= GetLength1 input_ /\ 0 <= GetLength2 input_
   /\ table_fits (GetLength1 input_) (GetLength2 input_))
  /\ exists cs,
       CalculateDifference input_ ([] : list Chunk) = Some cs
       /\ Forall (chunk_within 0 0 (GetLength1 input_)
                               (GetLength2 input_)) cs
       /\ chunks_separated cs.
Proof.
  intros input_.
  assert (H1 : 0 <= GetLength1 input_) by (simpl; lia).
  assert (H2 : 0 <= GetLength2 input_) by (simpl; lia).
  assert (Hf : table_fits (GetLength1 input_) (GetLength2 input_))
    by (vm_compute; split; discriminate).
  split; [done|].
  exact (CalculateDifference_chunks_apart input_ H1 H2 Hf).
Defined.

(** ** The chunks of two texts *)

Lemma CompareSubstrings_loop_refl s pos n : forall i,
  CompareSubstrings_loop s pos s pos n i = true.
Proof.
  induction n as [|n IH]; intros i; simpl; [done|].
  rewrite Z.eqb_refl. simpl. apply IH.
Qed.

Lemma line_Equals_refl s le o n1 n2 k :
  Equals (LineArrayCompareInput.mk s s le le o o n1 n2) k k = true.
Proof.
  simpl. rewrite Z.eqb_refl. simpl. apply CompareSubstrings_loop_refl.
Qed.

Lemma encode_chunks_nil cs :
  concat (encode_chunk <$> cs) = [] -> cs = [].
Proof. by destruct cs. Qed.

(** X7. [LiveEdit::CompareStrings] reports no chunk (and returns the empty
    array) exactly when the two texts are the same. *)
Theorem CompareStrings_no_chunks_iff (A B : String) :
  (CompareStrings_chunks A B = Some [] <-> A = B)
  /\ (CompareStrings A B = Some [] <-> A = B).
Proof.
  assert (Hfwd : CompareStrings_chunks A B = Some [] -> A = B).
  { intros Hcs. destruct (CompareStrings_cover_of A B [] Hcs) as [Hc _].
    pose proof (apply_cover A B 0 0 [] _ _ Hc eq_refl eq_refl
                  ltac:(lia) ltac:(lia)) as E.
    simpl in E. by rewrite !drop_0 in E. }
  assert (Hbwd : A = B -> CompareStrings_chunks A B = Some []).
  { intros <-. rewrite CompareStrings_chunks_eq.
    destruct (common_suffix_len_spec (line_input A A)
                (line_input_len1 A A) (line_input_len2 A A))
      as (Q1 & Q2 & _).
    simpl in Q2.
    match goal with
    | |- context [diff_chunks ?x] => set (xp := x)
    end.
    assert (H1 : 0 <= GetLength1 xp) by (simpl; lia).
    assert (H2 : 0 <= GetLength2 xp) by (simpl; lia).
    rewrite (proj2 (diff_chunks_nil_iff xp H1 H2)); [done|].
    split; [done|]. intros k _. apply line_Equals_refl. }
  split; [by split|]. split.
  - intros Ha. apply Hfwd.
    destruct (CompareStrings_chunks_cover A B) as (cs & Hcs & _).
    pose proof (CompareStrings_array A B cs Hcs) as E.
    rewrite Ha in E. injection E as E. symmetry in E.
    apply encode_chunks_nil in E. by subst.
  - intros E. by rewrite (CompareStrings_array A B [] (Hbwd E)).
Qed.

Lemma shift_chunk_nondegenerate d1 d2 cs :
  Forall nondegenerate cs -> Forall nondegenerate (shift_chunk d1 d2 <$> cs).
Proof. intros Hf. apply Forall_fmap. by eapply Forall_impl. Qed.

Section ExpandTheory.
Context (s1 s2 : String) (le1 le2 : LineEndsWrapper.t).
Context (Hwf1 : wf_line_ends le1) (Hwf2 : wf_line_ends le2).
Context (o1 o2 : Z).

(** The chunks written for a line chunk have an element each. *)
Lemma expand_chunk_nondegenerate aw c :
  0 <= c_pos1 c + o1 -> 0 <= c_len1 c ->
  c_pos1 c + o1 + c_len1 c <= LineEndsWrapper.length le1 ->
  0 <= c_pos2 c + o2 -> 0 <= c_len2 c ->
  c_pos2 c + o2 + c_len2 c <= LineEndsWrapper.length le2 ->
  Forall nondegenerate
    (expand_chunk
       (TokenizingLineArrayCompareOutput.mk aw le1 le2 s1 s2 o1 o2) c).
Proof using Hwf1 Hwf2.
  intros Ha1 Ha2 Ha3 Hb1 Hb2 Hb3. unfold expand_chunk. simpl.
  pose proof (GetLineStart_mono le1 Hwf1 (c_pos1 c + o1)
                (c_pos1 c + o1 + c_len1 c) ltac:(lia) Ha3) as Hm1.
  pose proof (GetLineStart_mono le2 Hwf2 (c_pos2 c + o2)
                (c_pos2 c + o2 + c_len2 c) ltac:(lia) Hb3) as Hm2.
  set (cp1 := LineEndsWrapper.GetLineStart le1 (c_pos1 c + o1)) in *.
  set (cp2 := LineEndsWrapper.GetLineStart le2 (c_pos2 c + o2)) in *.
  set (ce1 := LineEndsWrapper.GetLineStart le1
                (c_pos1 c + o1 + c_len1 c)) in *.
  set (ce2 := LineEndsWrapper.GetLineStart le2
                (c_pos2 c + o2 + c_len2 c)) in *.
  unfold TokenizingLineArrayCompareOutput.CHUNK_LEN_LIMIT.
  destruct (Z.ltb_spec (ce1 - cp1) 800), (Z.ltb_spec (ce2 - cp2) 800);
    simpl.
  - apply shift_chunk_nondegenerate, diff_chunks_nondegenerate;
      unfold len1_, len2_; simpl; lia.
  - constructor; [|constructor]. unfold nondegenerate. simpl. lia.
  - constructor; [|constructor]. unfold nondegenerate. simpl. lia.
  - constructor; [|constructor]. unfold nondegenerate. simpl. lia.
Qed.
End ExpandTheory.

(** X8. For texts whose table of lines stays within [int], every chunk
    that [LiveEdit::CompareStrings] writes, and that the array it returns
    holds, lies inside the two texts (its spans have non-negative lengths
    and end within the texts) and replaces, deletes or inserts at least one
    character. *)
Theorem CompareStrings_chunks_within (A B : String) :
  CompareStrings_fits A B ->
  exists cs,
    CompareStrings_chunks A B = Some cs
    /\ CompareStrings A B = Some (concat (encode_chunk <$> cs))
    /\ Forall (chunk_within 0 0 (String_length A) (String_length B)) cs
    /\ Forall nondegenerate cs.
Proof.
  intros _.
  destruct (CompareStrings_chunks_cover A B) as (cs & Hcs & Hc).
  exists cs. split; [done|]. split; [by apply CompareStrings_array|].
  split; [by apply Cover_within in Hc|].
  rewrite CompareStrings_chunks_eq in Hcs. injection Hcs as <-.
  destruct (common_prefix_len_spec (line_input A B)
              (line_input_len1 A B) (line_input_len2 A B))
    as (P1 & P2 & P3 & _).
  destruct (common_suffix_len_spec (line_input A B)
              (line_input_len1 A B) (line_input_len2 A B))
    as (Q1 & Q2 & Q3 & _).
  simpl in P2, P3, Q2, Q3.
  set (p := common_prefix_len (line_input A B)) in *.
  set (q := common_suffix_len (line_input A B)) in *.
  set (n1 := LineEndsWrapper.length (LineEndsWrapper.new A)) in *.
  set (n2 := LineEndsWrapper.length (LineEndsWrapper.new B)) in *.
  set (xp := LineArrayCompareInput.mk A B (LineEndsWrapper.new A)
               (LineEndsWrapper.new B) p p (n1 - q - p) (n2 - q - p)).
  assert (H1 : 0 <= len1_ xp) by (unfold len1_; simpl; lia).
  assert (H2 : 0 <= len2_ xp) by (unfold len2_; simpl; lia).
  pose proof (Cover_within _ _ _ _ _ _ (diff_chunks_cover xp H1 H2)) as Hw.
  unfold len1_, len2_ in Hw. simpl in Hw.
  apply Forall_concat, Forall_fmap.
  eapply Forall_impl; [exact Hw|].
  intros c ((? & ? & ?) & (? & ? & ?)). simpl.
  apply expand_chunk_nondegenerate;
    try apply LineEndsWrapper_new_wf; fold n1 n2; lia.
Qed.

Lemma CompareStrings_chunks_within_witness :
  let A := [97; 10; 98; 99; 10; 100; 10; 101] in
  let B := [97; 10; 98; 120; 99; 10; 100; 10; 102] in
  CompareStrings_fits A B
  /\ exists cs,
       CompareStrings_chunks A B = Some cs
       /\ CompareStrings A B = Some (concat (encode_chunk <$> cs))
       /\ Forall (chunk_within 0 0 (String_length A) (String_length B)) cs
       /\ Forall nondegenerate cs.
Proof.
  intros A B.
  assert (Hfits : CompareStrings_fits A B)
    by (vm_compute; split; discriminate).
  split; [done|]. exact (CompareStrings_chunks_within A B Hfits).
Defined.

Lemma Cover_length_delta eqb i j cs i' j' :
  Cover eqb i j cs i' j' -> j' - j = (i' - i) + length_delta cs.
Proof. induction 1; simpl in *; lia. Qed.

(** X9. For texts whose table of lines stays within [int], the chunks of
    [LiveEdit::CompareStrings], as written and as held by the returned
    array, account for the whole change of length: the new text is as long
    as the old text plus the growth (new length minus old length) of all
    chunks. *)
Theorem CompareStrings_length_delta (A B : String) :
  CompareStrings_fits A B ->
  exists cs,
    CompareStrings_chunks A B = Some cs
    /\ CompareStrings A B = Some (concat (encode_chunk <$> cs))
    /\ String_length B = String_length A + length_delta cs.
Proof.
  intros _.
  destruct (CompareStrings_chunks_cover A B) as (cs & Hcs & Hc).
  exists cs. split; [done|]. split; [by apply CompareStrings_array|].
  apply Cover_length_delta in Hc. lia.
Qed.

Lemma CompareStrings_length_delta_witness :
  let A := [97; 10; 98; 99; 10; 100; 10; 101] in
  let B := [97; 10; 98; 120; 99; 10; 100; 10; 102] in
  CompareStrings_fits A B
  /\ exists cs,
       CompareStrings_chunks A B = Some cs
       /\ CompareStrings A B = Some (concat (encode_chunk <$> cs))
       /\ String_length B = String_length A + length_delta cs.
Proof.
  intros A B.
  assert (Hfits : CompareStrings_fits A B)
    by (vm_compute; split; discriminate).
  split; [done|]. exact (CompareStrings_length_delta A B Hfits).
Defined.

(** ** The table as a cache *)

Lemma CompareUpToTail_cached_cell {I : Type} `{Input I} (input_ : I)
    buffer_ i j fuel :
  in_grid input_ i j -> filled input_ buffer_ i j ->
  CompareUpToTail input_ (S fuel) i j buffer_
  = Some (4 * cost input_ i j, buffer_).
Proof.
  intros Hg Hf. pose proof Hg as [Hi Hj]. simpl.
  destruct (Z.ltb_spec i (len1_ input_)); [|lia].
  destruct (Z.ltb_spec j (len2_ input_)); [|lia].
  destruct (filled_not_empty input_ _ i j Hg Hf) as [-> Hne]. simpl.
  by destruct (Z.eqb_spec (4 * cost input_ i j) kEmptyCellValue).
Qed.

(** X10. Once [CompareUpToTail (i, j)] has returned, asking again for the
    same cell gives the same value without any further recursion and
    leaves the table as it is: the result is served from the table. *)
Theorem CompareUpToTail_served_from_table {I : Type} `{Input I}
    (input_ : I) (i j : Z) (buffer_ buffer' : list Z) (fuel : nat) (r : Z) :
  0 <= i <= GetLength1 input_ -> 0 <= j <= GetLength2 input_ ->
  table_ok input_ buffer_ ->
  (measure input_ i j < fuel)%nat ->
  CompareUpToTail input_ fuel i j buffer_ = Some (r, buffer') ->
  CompareUpToTail input_ 1 i j buffer' = Some (r, buffer').
Proof.
  intros Hi Hj Hok Hfuel E.
  destruct (CompareUpToTail_spec input_ fuel i j buffer_ Hok Hi Hj Hfuel)
    as (b & E' & Hok' & _ & Hf).
  rewrite E in E'. injection E' as -> ->.
  unfold len1_, len2_ in *.
  destruct (Z_lt_dec i (GetLength1 input_)) as [Hi1|Hi1].
  - destruct (Z_lt_dec j (GetLength2 input_)) as [Hj1|Hj1].
    + apply CompareUpToTail_cached_cell; [|apply Hf];
        unfold in_grid, len1_, len2_; lia.
    + simpl. unfold len1_, len2_.
      destruct (Z.ltb_spec i (GetLength1 input_)); [|lia].
      destruct (Z.ltb_spec j (GetLength2 input_)); [lia|].
      rewrite shiftl_bits, cost_end2 by (unfold len1_, len2_; lia). done.
  - simpl. unfold len1_.
    destruct (Z.ltb_spec i (GetLength1 input_)); [lia|].
    rewrite shiftl_bits, cost_end1 by (unfold len1_; lia). done.
Qed.

Lemma CompareUpToTail_served_from_table_witness :
  let input_ := TokensCompareInput.mk [1; 2] 0 2 [2; 3] 0 2 in
  let buffer' := [9; 4; 15; 11] in
  (0 <= 0 <= GetLength1 input_ /\ 0 <= 0 <= GetLength2 input_
   /\ table_ok input_ (Initialize input_)
   /\ (measure input_ 0 0 < table_fuel input_)%nat
   /\ CompareUpToTail input_ (table_fuel input_) 0 0 (Initialize input_)
      = Some (8, buffer'))
  /\ CompareUpToTail input_ 1 0 0 buffer' = Some (8, buffer').
Proof.
  intros input_ buffer'.
  assert (H1 : 0 <= 0 <= GetLength1 input_) by (simpl; lia).
  assert (H2 : 0 <= 0 <= GetLength2 input_) by (simpl; lia).
  assert (H3 : table_ok input_ (Initialize input_)) by apply Initialize_ok.
  assert (H4 : (measure input_ 0 0 < table_fuel input_)%nat)
    by (vm_compute; lia).
  assert (H5 : CompareUpToTail input_ (table_fuel input_) 0 0
                 (Initialize input_) = Some (8, buffer'))
    by (vm_compute; reflexivity).
  split; [done|].
  exact (CompareUpToTail_served_from_table input_ 0 0 (Initialize input_)
           buffer' (table_fuel input_) 8 H1 H2 H3 H4 H5).
Defined.

(** ** The common prefix and suffix *)

Section NarrowMaximal.
Context {I : Type} `{Input I} (input : I).

Lemma common_prefix_loop_max limit n : forall c,
  limit - c <= Z.of_nat n ->
  let p := common_prefix_loop input limit n c in
  p < limit -> Equals input p p = false.
Proof.
  induction n as [|n IH]; intros c Hn; simpl.
  - lia.
  - destruct (Z.ltb_spec c limit) as [Hlt|Hge]; simpl; [|lia].
    destruct (Equals input c c) eqn:He; [|done].
    apply IH. lia.
Qed.

Lemma common_suffix_loop_max len1 len2 limit n : forall c,
  limit - c <= Z.of_nat n ->
  let s := common_suffix_loop input len1 len2 limit n c in
  s < limit -> Equals input (len1 - s - 1) (len2 - s - 1) = false.
Proof.
  induction n as [|n IH]; intros c Hn; simpl.
  - lia.
  - destruct (Z.ltb_spec c limit) as [Hlt|Hge]; simpl; [|lia].
    destruct (Equals input (len1 - c - 1) (len2 - c - 1)) eqn:He; [|done].
    apply IH. lia.
Qed.
End NarrowMaximal.

(** X11. The two loops of [NarrowDownInput] find the longest common prefix
    and, in what the prefix leaves, the longest common suffix: the elements
    inside them agree pairwise, the element after the prefix and the element
    before the suffix differ (unless a sequence is used up), and prefix and
    suffix together are no longer than the shorter sequence. *)
Theorem NarrowDownInput_longest_common {I : Type} `{Input I} (input : I) :
  0 <= GetLength1 input -> 0 <= GetLength2 input ->
  let len1 := GetLength1 input in
  let len2 := GetLength2 input in
  let p := common_prefix_len input in
  let s := common_suffix_len input in
  0 <= p /\ 0 <= s /\ p + s <= Z.min len1 len2
  /\ (forall k, 0 <= k < p -> Equals input k k = true)
  /\ (forall k, 0 <= k < s ->
      Equals input (len1 - k - 1) (len2 - k - 1) = true)
  /\ (p < Z.min len1 len2 -> Equals input p p = false)
  /\ (p + s < Z.min len1 len2 ->
      Equals input (len1 - s - 1) (len2 - s - 1) = false).
Proof.
  intros H1 H2 len1 len2 p s.
  destruct (common_prefix_len_spec input H1 H2) as (P1 & P2 & P3 & P4).
  destruct (common_suffix_len_spec input H1 H2) as (Q1 & Q2 & Q3 & Q4).
  fold p s len1 len2 in P1, P2, P3, P4, Q1, Q2, Q3, Q4.
  split; [done|]. split; [done|]. split; [lia|].
  split; [done|]. split; [done|]. split.
  - intros Hp. unfold p, common_prefix_len.
    apply common_prefix_loop_max.
    + rewrite min_spec. fold len1 len2. lia.
    + fold (common_prefix_len input). fold p. by rewrite min_spec.
  - intros Hs. unfold s, common_suffix_len. fold p len1 len2.
    apply common_suffix_loop_max.
    + rewrite min_spec. lia.
    + fold len1 len2. rewrite min_spec.
      assert (E : common_suffix_loop input len1 len2
                    (Z.min (len1 - p) (len2 - p))
                    (Z.to_nat (Z.min (len1 - p) (len2 - p))) 0 = s)
        by (unfold s, common_suffix_len; by rewrite !min_spec).
      rewrite E. lia.
Qed.

Lemma NarrowDownInput_longest_common_witness :
  let input := TokensCompareInput.mk [1; 2; 3; 4] 0 4 [1; 5; 4] 0 3 in
  (0 <= GetLength1 input /\ 0 <= GetLength2 input)
  /\ common_prefix_len input = 1 /\ common_suffix_len input = 1
  /\ (1 < Z.min 4 3 -> Equals input 1 1 = false).
Proof.
  intros input.
  assert (H1 : 0 <= GetLength1 input) by (simpl; lia).
  assert (H2 : 0 <= GetLength2 input) by (simpl; lia).
  split; [done|].
  pose proof (NarrowDownInput_longest_common input H1 H2) as Hn.
  split; [reflexivity|]. split; [reflexivity|].
  exact (proj1 (proj2 (proj2 (proj2 (proj2 (proj2 Hn)))))).
Defined.

(** ** Lines *)

(** X12. When the line ends are increasing positions inside the string,
    the lines of a [LineEndsWrapper] tile the string: the first line starts
    at 0, every line ends where the next one starts, the last line ends at
    the end of the string, and every line but the last has at least one
    character (its terminator). *)
Theorem LineEndsWrapper_lines_tile (w : LineEndsWrapper.t) :
  wf_line_ends w ->
  LineEndsWrapper.GetLineStart w 0 = 0
  /\ LineEndsWrapper.GetLineEnd w (LineEndsWrapper.length w - 1)
     = LineEndsWrapper.string_len_ w
  /\ forall k, 0 <= k < LineEndsWrapper.length w ->
       LineEndsWrapper.GetLineEnd w k = LineEndsWrapper.GetLineStart w (k + 1)
       /\ 0 <= LineEndsWrapper.GetLineStart w k
       /\ LineEndsWrapper.GetLineStart w k <= LineEndsWrapper.GetLineEnd w k
       /\ LineEndsWrapper.GetLineEnd w k <= LineEndsWrapper.string_len_ w
       /\ (k < LineEndsWrapper.length w - 1 ->
           LineEndsWrapper.GetLineStart w k < LineEndsWrapper.GetLineEnd w k).
Proof.
  intros Hwf. split; [done|]. split.
  - pose proof (GetLineStart_last w) as E.
    unfold LineEndsWrapper.length in *.
    rewrite <- E, GetLineStart_succ by lia. f_equal. lia.
  - intros k Hk.
    rewrite <- (GetLineStart_succ w k) by lia.
    split; [done|].
    pose proof (GetLineStart_mono w Hwf 0 k ltac:(lia) ltac:(lia)) as H0.
    pose proof (GetLineStart_step w Hwf k Hk) as H1.
    pose proof (GetLineStart_mono w Hwf (k + 1) (LineEndsWrapper.length w)
                  ltac:(lia) ltac:(lia)) as H2.
    rewrite GetLineStart_last in H2.
    change (LineEndsWrapper.GetLineStart w 0) with 0 in H0.
    split; [done|]. split; [done|]. split; [done|].
    intros Hnl. destruct Hwf as [[Hb Hs] _].
    unfold LineEndsWrapper.length in *.
    rewrite GetLineStart_succ by lia.
    unfold LineEndsWrapper.GetLineStart, LineEndsWrapper.GetLineEnd,
      LineEndsWrapper.GetPosAfterNewLine.
    set (ends := LineEndsWrapper.ends_array_ w) in *.
    destruct (Z.eqb_spec k (Z.of_nat (length ends))); [lia|].
    destruct (Z.eqb_spec k 0) as [->|Hk0].
    + specialize (Hb (Z.to_nat 0) ltac:(lia)). lia.
    + destruct (Z.eqb_spec (k - 1) (Z.of_nat (length ends))); [lia|].
      specialize (Hs (Z.to_nat (k - 1)) ltac:(lia)).
      replace (S (Z.to_nat (k - 1))) with (Z.to_nat k) in Hs by lia. lia.
Qed.

Lemma LineEndsWrapper_lines_tile_witness :
  let w := LineEndsWrapper.new [97; 10; 98; 99; 10; 100] in
  wf_line_ends w
  /\ LineEndsWrapper.GetLineEnd w (LineEndsWrapper.length w - 1)
     = LineEndsWrapper.string_len_ w.
Proof.
  intros w.
  assert (Hwf : wf_line_ends w).
  { split; [|vm_compute; discriminate].
    split; intros [|[|k]] Hk; vm_compute in Hk |- *;
      try lia; repeat split; discriminate. }
  split; [done|].
  exact (proj1 (proj2 (LineEndsWrapper_lines_tile w Hwf))).
Defined.

Lemma Get_lookup (s : list Z) (i : nat) :
  Get s (Z.of_nat i) = default 0 (s !! i).
Proof. unfold Get. by rewrite Nat2Z.id, nth_lookup. Qed.

(** Two spans of equal length hold the same characters when they agree
    position by position. *)
Lemma span_eq_iff (s1 s2 : list Z) (a b n : nat) :
  (a + n <= length s1)%nat -> (b + n <= length s2)%nat ->
  take n (drop a s1) = take n (drop b s2)
  <-> forall k, 0 <= k < Z.of_nat n ->
        Get s1 (k + Z.of_nat a) = Get s2 (k + Z.of_nat b).
Proof.
  intros Ha Hb. split.
  - intros E k Hk.
    replace (k + Z.of_nat a) with (Z.of_nat (a + Z.to_nat k)) by lia.
    replace (k + Z.of_nat b) with (Z.of_nat (b + Z.to_nat k)) by lia.
    rewrite !Get_lookup.
    rewrite <- (lookup_drop s1 a (Z.to_nat k)).
    rewrite <- (lookup_drop s2 b (Z.to_nat k)).
    rewrite <- (lookup_take_lt (drop a s1) n (Z.to_nat k)) by lia.
    rewrite <- (lookup_take_lt (drop b s2) n (Z.to_nat k)) by lia.
    by rewrite E.
  - intros Hk. apply (list_eq_same_length _ _ n).
    + rewrite length_take, length_drop. lia.
    + rewrite length_take, length_drop. lia.
    + intros i x y Hi Hx Hy.
      rewrite lookup_take_lt in Hx, Hy by lia.
      rewrite (lookup_drop s1 a i) in Hx. rewrite (lookup_drop s2 b i) in Hy.
      specialize (Hk (Z.of_nat i) ltac:(lia)).
      replace (Z.of_nat i + Z.of_nat a) with (Z.of_nat (a + i)) in Hk by lia.
      replace (Z.of_nat i + Z.of_nat b) with (Z.of_nat (b + i)) in Hk by lia.
      rewrite !Get_lookup, Hx, Hy in Hk. done.
Qed.

Lemma CompareSubstrings_loop_false s1 pos1 s2 pos2 n : forall i,
  (forall k, i <= k < i + Z.of_nat n ->
     Get s1 (k + pos1) = Get s2 (k + pos2)) ->
  CompareSubstrings_loop s1 pos1 s2 pos2 n i = true.
Proof.
  induction n as [|n IH]; intros i Hk; simpl; [done|].
  rewrite (Hk i) by lia. rewrite Z.eqb_refl. simpl.
  apply IH. intros k Hr. apply Hk. lia.
Qed.

(** X13. [LineArrayCompareInput::Equals] holds for two lines exactly when
    the lines hold the same characters (terminator included): lines of
    different length are never equal. *)
Theorem line_Equals_iff_same_text (s1 s2 : String) (o1 o2 n1 n2 i j : Z) :
  let le1 := LineEndsWrapper.new s1 in
  let le2 := LineEndsWrapper.new s2 in
  0 <= i + o1 < LineEndsWrapper.length le1 ->
  0 <= j + o2 < LineEndsWrapper.length le2 ->
  (Equals (LineArrayCompareInput.mk s1 s2 le1 le2 o1 o2 n1 n2) i j = true
   <-> line_text s1 le1 (i + o1) = line_text s2 le2 (j + o2)).
Proof.
  intros le1 le2 Hi Hj.
  destruct (LineEndsWrapper_lines_tile le1 (LineEndsWrapper_new_wf s1))
    as (_ & _ & T1).
  destruct (LineEndsWrapper_lines_tile le2 (LineEndsWrapper_new_wf s2))
    as (_ & _ & T2).
  destruct (T1 _ Hi) as (_ & A1 & A2 & A3 & _).
  destruct (T2 _ Hj) as (_ & B1 & B2 & B3 & _).
  unfold line_text. simpl.
  change (LineEndsWrapper.string_len_ le1) with (String_length s1) in A3.
  change (LineEndsWrapper.string_len_ le2) with (String_length s2) in B3.
  unfold String_length in A3, B3.
  set (a := LineEndsWrapper.GetLineStart le1 (i + o1)) in *.
  set (b := LineEndsWrapper.GetLineStart le2 (j + o2)) in *.
  set (e1 := LineEndsWrapper.GetLineEnd le1 (i + o1)) in *.
  set (e2 := LineEndsWrapper.GetLineEnd le2 (j + o2)) in *.
  destruct (Z.eqb_spec (e1 - a) (e2 - b)) as [E|Hne]; simpl.
  - rewrite <- E. unfold CompareSubstrings.
    rewrite (span_eq_iff s1 s2 (Z.to_nat a) (Z.to_nat b)
               (Z.to_nat (e1 - a))) by lia.
    rewrite !Z2Nat.id by lia. split.
    + intros Hl k Hk.
      apply (CompareSubstrings_loop_true _ _ _ _ _ _ Hl). lia.
    + intros Hk. apply CompareSubstrings_loop_false.
      intros k Hr. apply Hk. lia.
  - split; [done|]. intros E. exfalso. apply Hne.
    apply (f_equal length) in E.
    rewrite !length_take, !length_drop in E. lia.
Qed.

Lemma line_Equals_iff_same_text_witness :
  let s1 := [97; 10; 98] in
  let s2 := [120; 10; 97; 10] in
  let le1 := LineEndsWrapper.new s1 in
  let le2 := LineEndsWrapper.new s2 in
  (0 <= 0 + 0 < LineEndsWrapper.length le1
   /\ 0 <= 1 + 0 < LineEndsWrapper.length le2)
  /\ (Equals (LineArrayCompareInput.mk s1 s2 le1 le2 0 0 2 3) 0 1 = true
      <-> line_text s1 le1 (0 + 0) = line_text s2 le2 (1 + 0)).
Proof.
  intros s1 s2 le1 le2.
  assert (H1 : 0 <= 0 + 0 < LineEndsWrapper.length le1)
    by (vm_compute; split; (discriminate || reflexivity)).
  assert (H2 : 0 <= 1 + 0 < LineEndsWrapper.length le2)
    by (vm_compute; split; (discriminate || reflexivity)).
  split; [done|].
  exact (line_Equals_iff_same_text s1 s2 0 0 2 3 0 1 H1 H2).
Defined.

(** ** Decimal output *)

Lemma div10_bound fuel v :
  0 <= v < 2 ^ Z.of_nat (S fuel) -> v / 10 <> 0 ->
  0 <= v / 10 < 2 ^ Z.of_nat fuel /\ fuel <> 0%nat.
Proof.
  intros Hv Hne.
  assert (0 <= v / 10) by (apply Z.div_pos; lia).
  assert (v / 10 <= v / 2)
    by (apply Z.div_le_compat_l; lia).
  assert (v / 2 < 2 ^ Z.of_nat fuel).
  { apply Z.div_lt_upper_bound; [lia|].
    rewrite Nat2Z.inj_succ, Z.pow_succ_r in Hv; lia. }
  split; [lia|]. intros ->. simpl in *. lia.
Qed.

Lemma utoa_count_digits_unfold fuel t n :
  utoa_count_digits (S fuel) t n
  = if negb (t / 10 =? 0) then utoa_count_digits fuel (t / 10) (n + 1)
    else Some (n + 1).
Proof. done. Qed.

Lemma digits_rev_unfold fuel v :
  digits_rev (S fuel) v
  = (48 + v mod 10)
    :: (if v / 10 =? 0 then [] else digits_rev fuel (v / 10)).
Proof. done. Qed.

Lemma utoa_count_digits_spec fuel : forall v n0,
  0 <= v < 2 ^ Z.of_nat (S fuel) ->
  utoa_count_digits (S fuel) v n0
  = Some (n0 + Z.of_nat (length (digits_rev (S fuel) v))).
Proof.
  induction fuel as [|fuel IH]; intros v n0 Hv.
  - simpl. replace (v / 10) with 0; [simpl; f_equal; lia|].
    symmetry. apply Z.div_small. simpl in Hv. lia.
  - rewrite utoa_count_digits_unfold, digits_rev_unfold.
    destruct (Z.eqb_spec (v / 10) 0) as [E|Hne];
      [simpl; f_equal; lia|].
    destruct (div10_bound _ v Hv Hne) as [Hb _].
    cbn [negb]. rewrite IH by done. cbn [length]. f_equal. lia.
Qed.

Lemma digits_rev_range fuel : forall v,
  0 <= v -> Forall (fun d => 48 <= d <= 57) (digits_rev fuel v).
Proof.
  induction fuel as [|fuel IH]; intros v Hv; simpl; [constructor|].
  pose proof (Z.mod_pos_bound v 10 ltac:(lia)).
  constructor; [lia|].
  destruct (v / 10 =? 0); [constructor|].
  apply IH. apply Z.div_pos; lia.
Qed.

Lemma parse_decimal_snoc ds : forall acc d,
  parse_decimal acc (ds ++ [d]) = 10 * parse_decimal acc ds + (d - 48).
Proof. induction ds as [|x ds IH]; intros acc d; simpl; [done|apply IH]. Qed.

Lemma digits_rev_parse fuel : forall v,
  0 <= v < 2 ^ Z.of_nat (S fuel) ->
  parse_decimal 0 (rev (digits_rev (S fuel) v)) = v.
Proof.
  induction fuel as [|fuel IH]; intros v Hv.
  - simpl in *. replace (v / 10) with 0 by (symmetry; apply Z.div_small; lia).
    simpl. rewrite Z.mod_small by lia. lia.
  - rewrite digits_rev_unfold. cbn [rev]. rewrite parse_decimal_snoc.
    pose proof (Z.div_mod v 10 ltac:(lia)) as Hdm.
    destruct (Z.eqb_spec (v / 10) 0) as [E|Hne].
    + simpl. rewrite E in Hdm. lia.
    + destruct (div10_bound _ v Hv Hne) as [Hb _].
      rewrite IH by done. lia.
Qed.

Lemma digits_rev_leading fuel : forall v,
  0 < v < 2 ^ Z.of_nat (S fuel) ->
  last (digits_rev (S fuel) v) <> Some 48.
Proof.
  induction fuel as [|fuel IH]; intros v Hv.
  - simpl in *. replace (v / 10) with 0 by (symmetry; apply Z.div_small; lia).
    simpl. rewrite Z.mod_small by lia. intros [= E]. lia.
  - rewrite digits_rev_unfold.
    pose proof (Z.div_mod v 10 ltac:(lia)) as Hdm.
    destruct (Z.eqb_spec (v / 10) 0) as [E|Hne].
    + simpl. rewrite E in Hdm. intros [= E']. lia.
    + destruct (div10_bound (S fuel) v ltac:(lia) Hne) as [Hb Hf].
      assert (Hl : last (digits_rev (S fuel) (v / 10)) <> Some 48)
        by (apply IH; lia).
      rewrite digits_rev_unfold in *. by rewrite last_cons_cons.
Qed.

(** A value below [10 ^ k] has at most [k] digits, and a value from
    [10 ^ k] on has more. *)
Lemma digits_rev_length fuel : forall v (k : nat),
  0 <= v < 2 ^ Z.of_nat (S fuel) ->
  (v < 10 ^ Z.of_nat (S k) -> (length (digits_rev (S fuel) v) <= S k)%nat)
  /\ (10 ^ Z.of_nat k <= v -> (k < length (digits_rev (S fuel) v))%nat).
Proof.
  induction fuel as [|fuel IH]; intros v k Hv.
  - simpl in Hv. simpl.
    replace (v / 10) with 0 by (symmetry; apply Z.div_small; lia).
    simpl. split; [lia|]. intros Hk.
    destruct k as [|k]; [lia|].
    assert (10 ^ 1 <= 10 ^ Z.of_nat (S k))
      by (apply Z.pow_le_mono_r; lia). lia.
  - rewrite digits_rev_unfold.
    destruct (Z.eqb_spec (v / 10) 0) as [E|Hne].
    + simpl. split; [lia|]. intros Hk.
      destruct k as [|k]; [lia|].
      assert (10 ^ 1 <= 10 ^ Z.of_nat (S k))
        by (apply Z.pow_le_mono_r; lia).
      assert (v < 10); [|lia].
      pose proof (Z.div_mod v 10 ltac:(lia)).
      pose proof (Z.mod_pos_bound v 10 ltac:(lia)). lia.
    + destruct (div10_bound _ v Hv Hne) as [Hb Hf].
      cbn [length]. split.
      * intros Hk. destruct k as [|k].
        { exfalso. apply Hne. apply Z.div_small. simpl in Hk. lia. }
        destruct (IH (v / 10) k Hb) as [IH1 _].
        assert (v / 10 < 10 ^ Z.of_nat (S k)); [|lia].
        apply Z.div_lt_upper_bound; [lia|].
        rewrite (Nat2Z.inj_succ (S k)), Z.pow_succ_r in Hk; lia.
      * intros Hk. destruct k as [|k]; [lia|].
        destruct (IH (v / 10) k Hb) as [_ IH2].
        assert (10 ^ Z.of_nat k <= v / 10); [|lia].
        apply Z.div_le_lower_bound; [lia|].
        rewrite Nat2Z.inj_succ, Z.pow_succ_r in Hk; lia.
Qed.

Lemma utoa_write_digits_unfold fuel v buf p :
  utoa_write_digits (S fuel) v buf p
  = (buffer ← Vector_set buf (p - 1) (48 + v mod 10);
     if negb (v / 10 =? 0)
     then utoa_write_digits fuel (v / 10) buffer (p - 1)
     else Some buffer).
Proof. done. Qed.

Lemma Vector_set_inside (buf : list Z) i c :
  0 <= i < Z.of_nat (length buf) ->
  Vector_set buf i c = Some (<[Z.to_nat i := c]> buf).
Proof.
  intros Hi. unfold Vector_set.
  destruct (Z.ltb_spec i 0); [lia|].
  by destruct (Z.leb_spec (Z.of_nat (length buf)) i); [lia|].
Qed.

Lemma Vector_set_outside (buf : list Z) i c :
  i < 0 \/ Z.of_nat (length buf) <= i -> Vector_set buf i c = None.
Proof.
  intros Hi. unfold Vector_set.
  destruct (Z.ltb_spec i 0); [done|].
  by destruct (Z.leb_spec (Z.of_nat (length buf)) i); [|lia].
Qed.

(** The second loop writes the digits, most significant first, into the
    cells just below the position it starts from. *)
Lemma utoa_write_digits_spec fuel : forall v (buf : list Z) (p : nat),
  0 <= v < 2 ^ Z.of_nat (S fuel) ->
  (length (digits_rev (S fuel) v) <= p <= length buf)%nat ->
  utoa_write_digits (S fuel) v buf (Z.of_nat p)
  = Some (take (p - length (digits_rev (S fuel) v)) buf
          ++ rev (digits_rev (S fuel) v) ++ drop p buf).
Proof.
  induction fuel as [|fuel IH]; intros v buf p Hv Hp.
  - assert (E : v / 10 = 0) by (apply Z.div_small; simpl in Hv; lia).
    rewrite utoa_write_digits_unfold, digits_rev_unfold in *.
    rewrite E in *. simpl in Hp.
    rewrite Vector_set_inside by lia. simpl.
    replace (Z.to_nat (Z.of_nat p - 1)) with (p - 1)%nat by lia.
    rewrite insert_take_drop by lia.
    by replace (S (p - 1)) with p by lia.
  - rewrite utoa_write_digits_unfold.
    rewrite (digits_rev_unfold (S fuel)) in *.
    destruct (Z.eqb_spec (v / 10) 0) as [E|Hne].
    + simpl in Hp. rewrite Vector_set_inside by lia. simpl.
      replace (Z.to_nat (Z.of_nat p - 1)) with (p - 1)%nat by lia.
      rewrite insert_take_drop by lia.
      by replace (S (p - 1)) with p by lia.
    + destruct (div10_bound _ v Hv Hne) as [Hb _].
      cbn [length] in Hp.
      rewrite Vector_set_inside by lia. cbn [mbind option_bind negb].
      replace (Z.of_nat p - 1) with (Z.of_nat (p - 1)) by lia.
      rewrite IH by (rewrite ?length_insert; done || lia).
      rewrite Nat2Z.id. f_equal.
      set (ds := digits_rev (S fuel) (v / 10)) in *.
      rewrite take_insert_ge by lia.
      rewrite insert_take_drop by lia.
      rewrite drop_app_length' by (rewrite length_take; lia).
      cbn [rev length]. rewrite <- app_assoc. cbn [app].
      replace (S (p - 1)) with p by lia.
      by replace (p - 1 - length ds)%nat with (p - S (length ds))%nat by lia.
Qed.

(** Without room for all the digits between the start of the buffer and
    its end, a write falls outside the buffer. *)
Lemma utoa_write_digits_no_room fuel : forall v (buf : list Z) p,
  0 <= v < 2 ^ Z.of_nat (S fuel) ->
  p < Z.of_nat (length (digits_rev (S fuel) v))
  \/ Z.of_nat (length buf) < p ->
  utoa_write_digits (S fuel) v buf p = None.
Proof.
  induction fuel as [|fuel IH]; intros v buf p Hv Hp.
  - assert (E : v / 10 = 0) by (apply Z.div_small; simpl in Hv; lia).
    rewrite utoa_write_digits_unfold, digits_rev_unfold in *.
    rewrite E in *. simpl in Hp.
    by rewrite Vector_set_outside by lia.
  - rewrite utoa_write_digits_unfold.
    rewrite (digits_rev_unfold (S fuel)) in *.
    destruct (Z.eqb_spec (v / 10) 0) as [E|Hne].
    + simpl in Hp. by rewrite Vector_set_outside by lia.
    + destruct (div10_bound _ v Hv Hne) as [Hb _].
      cbn [length] in Hp.
      destruct (decide (0 <= p - 1 < Z.of_nat (length buf))) as [Hi|Hi];
        [|by rewrite Vector_set_outside by lia].
      rewrite Vector_set_inside by lia. cbn [mbind option_bind negb].
      apply IH; [done|]. rewrite length_insert. lia.
Qed.

Lemma head_rev {A} (l : list A) : head (rev l) = last l.
Proof.
  rewrite <- (rev_involutive l) at 2.
  destruct (rev l) as [|x r]; [done|].
  simpl. by rewrite last_snoc.
Qed.

Lemma utoa_impl_room fuel v (buf : list Z) (p : nat) :
  0 <= v < 2 ^ Z.of_nat (S fuel) ->
  (p + length (digits_rev (S fuel) v) <= length buf)%nat ->
  utoa_impl (S fuel) v buf (Z.of_nat p)
  = Some (take p buf ++ rev (digits_rev (S fuel) v)
          ++ drop (p + length (digits_rev (S fuel) v)) buf,
          Z.of_nat p + Z.of_nat (length (digits_rev (S fuel) v))).
Proof.
  intros Hv Hp. unfold utoa_impl.
  rewrite utoa_count_digits_spec by done. cbn [mbind option_bind].
  rewrite Z.add_0_l, <- Nat2Z.inj_add.
  rewrite utoa_write_digits_spec by (done || lia).
  cbn [mbind option_bind].
  by replace (p + length (digits_rev (S fuel) v)
              - length (digits_rev (S fuel) v))%nat with p by lia.
Qed.

Lemma utoa_impl_no_room fuel v (buf : list Z) p :
  0 <= v < 2 ^ Z.of_nat (S fuel) ->
  p < 0 \/ Z.of_nat (length buf)
           < p + Z.of_nat (length (digits_rev (S fuel) v)) ->
  utoa_impl (S fuel) v buf p = None.
Proof.
  intros Hv Hp. unfold utoa_impl.
  rewrite utoa_count_digits_spec by done. cbn [mbind option_bind].
  by rewrite utoa_write_digits_no_room by (done || lia).
Qed.

Lemma digits_rev_nonempty fuel v : digits_rev (S fuel) v <> [].
Proof. by rewrite digits_rev_unfold. Qed.

(** X14. With room for the digits, [utoa_impl] writes the decimal digits
    of the value from [buffer_pos] on, most significant first and with no
    leading zero, leaves the rest of the buffer as it was and returns the
    position after the last digit. *)
Theorem utoa_impl_decimal (bits : nat) (value : Z) (buffer : list Z)
    (buffer_pos : Z) :
  (0 < bits)%nat ->
  0 <= value < 2 ^ Z.of_nat bits ->
  0 <= buffer_pos < Z.of_nat (length buffer) ->
  value < 10 ^ (Z.of_nat (length buffer) - buffer_pos) ->
  exists ds,
    utoa_impl bits value buffer buffer_pos
    = Some (take (Z.to_nat buffer_pos) buffer ++ ds
            ++ drop (Z.to_nat buffer_pos + length ds) buffer,
            buffer_pos + Z.of_nat (length ds))
    /\ Forall (fun d => 48 <= d <= 57) ds
    /\ parse_decimal 0 ds = value
    /\ (ds = [48] \/ head ds <> Some 48).
Proof.
  intros Hbits Hv Hp Hroom.
  destruct bits as [|fuel]; [lia|].
  exists (rev (digits_rev (S fuel) value)).
  assert (Hlen : (length (digits_rev (S fuel) value)
                  <= S (length buffer - Z.to_nat buffer_pos - 1))%nat).
  { apply digits_rev_length; [done|].
    replace (Z.of_nat (S (length buffer - Z.to_nat buffer_pos - 1)))
      with (Z.of_nat (length buffer) - buffer_pos) by lia.
    done. }
  rewrite length_rev.
  split; [|split; [|split]].
  - pose proof (utoa_impl_room fuel value buffer (Z.to_nat buffer_pos) Hv)
      as E.
    rewrite Z2Nat.id in E by lia. apply E. lia.
  - apply Forall_rev, digits_rev_range. lia.
  - by apply digits_rev_parse.
  - destruct (decide (value = 0)) as [->|Hne]; [by left|right].
    rewrite head_rev. apply digits_rev_leading. lia.
Qed.

Lemma utoa_impl_decimal_witness :
  exists ds,
    utoa_impl 32 1905 [1; 2; 3; 4; 5; 6; 7] 2
    = Some (take (Z.to_nat 2) [1; 2; 3; 4; 5; 6; 7] ++ ds
            ++ drop (Z.to_nat 2 + length ds) [1; 2; 3; 4; 5; 6; 7],
            2 + Z.of_nat (length ds))
    /\ Forall (fun d => 48 <= d <= 57) ds
    /\ parse_decimal 0 ds = 1905
    /\ (ds = [48] \/ head ds <> Some 48).
Proof.
  apply (utoa_impl_decimal 32 1905 [1; 2; 3; 4; 5; 6; 7] 2).
  - lia.
  - vm_compute. split; [discriminate|reflexivity].
  - simpl. lia.
  - vm_compute. reflexivity.
Defined.

(** X15. [utoa_impl] stays inside the buffer exactly when [buffer_pos] is
    a position of the buffer and the value has no more digits than the
    cells from [buffer_pos] to the end; the function itself makes no
    bounds check. *)
Theorem utoa_impl_inside_iff (bits : nat) (value : Z) (buffer : list Z)
    (buffer_pos : Z) :
  (0 < bits)%nat ->
  0 <= value < 2 ^ Z.of_nat bits ->
  is_Some (utoa_impl bits value buffer buffer_pos)
  <-> 0 <= buffer_pos < Z.of_nat (length buffer)
      /\ value < 10 ^ (Z.of_nat (length buffer) - buffer_pos).
Proof.
  intros Hbits Hv. destruct bits as [|fuel]; [lia|].
  pose proof (digits_rev_nonempty fuel value) as Hne.
  assert (0 < length (digits_rev (S fuel) value))%nat
    by (destruct (digits_rev (S fuel) value); [done|simpl; lia]).
  split.
  - intros Hs.
    destruct (decide (buffer_pos < 0
                      \/ Z.of_nat (length buffer)
                         < buffer_pos
                           + Z.of_nat (length (digits_rev (S fuel) value))))
      as [Hno|Hyes].
    { rewrite utoa_impl_no_room in Hs by done. by destruct Hs. }
    split; [lia|].
    destruct (Z.lt_ge_cases value
                (10 ^ (Z.of_nat (length buffer) - buffer_pos)))
      as [|Hge]; [done|exfalso].
    destruct (digits_rev_length fuel value
                (length buffer - Z.to_nat buffer_pos) Hv) as [_ Hk].
    assert (length buffer - Z.to_nat buffer_pos
            < length (digits_rev (S fuel) value))%nat; [|lia].
    apply Hk.
    replace (Z.of_nat (length buffer - Z.to_nat buffer_pos))
      with (Z.of_nat (length buffer) - buffer_pos) by lia.
    done.
  - intros [Hp Hroom].
    assert (Hlen : (length (digits_rev (S fuel) value)
                    <= S (length buffer - Z.to_nat buffer_pos - 1))%nat).
    { apply digits_rev_length; [done|].
      replace (Z.of_nat (S (length buffer - Z.to_nat buffer_pos - 1)))
        with (Z.of_nat (length buffer) - buffer_pos) by lia.
      done. }
    pose proof (utoa_impl_room fuel value buffer (Z.to_nat buffer_pos) Hv)
      as E.
    rewrite Z2Nat.id in E by lia. rewrite E by lia. done.
Qed.

Lemma utoa_impl_inside_iff_witness :
  is_Some (utoa_impl 32 1000 [0; 0; 0; 0; 0] 2)
  <-> 0 <= 2 < Z.of_nat (length [0; 0; 0; 0; 0])
      /\ 1000 < 10 ^ (Z.of_nat (length [0; 0; 0; 0; 0]) - 2).
Proof.
  apply (utoa_impl_inside_iff 32 1000 [0; 0; 0; 0; 0] 2).
  - lia.
  - vm_compute. split; [discriminate|reflexivity].
Defined.

Lemma utoa_fits (fuel : nat) (k : nat) (value : Z) (buffer : list Z)
    (buffer_pos : Z) :
  2 ^ Z.of_nat (S fuel) <= 10 ^ Z.of_nat (S k) ->
  0 <= buffer_pos ->
  buffer_pos + Z.of_nat (S k) <= Z.of_nat (length buffer) ->
  exists buffer' result,
    utoa (S fuel) value buffer buffer_pos = Some (buffer', result)
    /\ buffer_pos < result <= buffer_pos + Z.of_nat (S k).
Proof.
  intros Hpow Hp Hroom. unfold utoa.
  set (v := value mod 2 ^ Z.of_nat (S fuel)).
  assert (Hv : 0 <= v < 2 ^ Z.of_nat (S fuel))
    by (apply Z.mod_pos_bound; lia).
  assert (Hlen : (length (digits_rev (S fuel) v) <= S k)%nat)
    by (apply digits_rev_length; [done|lia]).
  pose proof (digits_rev_nonempty fuel v) as Hne.
  assert (0 < length (digits_rev (S fuel) v))%nat
    by (destruct (digits_rev (S fuel) v); [done|simpl; lia]).
  pose proof (utoa_impl_room fuel v buffer (Z.to_nat buffer_pos) Hv) as E.
  rewrite Z2Nat.id in E by lia. rewrite E by lia.
  eexists _, _. split; [done|]. lia.
Qed.

Lemma utoa_all_ones (fuel : nat) (k : nat) (buffer : list Z)
    (buffer_pos : Z) :
  length (digits_rev (S fuel) (2 ^ Z.of_nat (S fuel) - 1)) = k ->
  0 <= buffer_pos ->
  buffer_pos + Z.of_nat k <= Z.of_nat (length buffer) ->
  snd <$> utoa (S fuel) (-1) buffer buffer_pos
  = Some (buffer_pos + Z.of_nat k).
Proof.
  intros Hk Hp Hroom. unfold utoa.
  assert (0 < 2 ^ Z.of_nat (S fuel)) by (apply Z.pow_pos_nonneg; lia).
  replace ((-1) mod 2 ^ Z.of_nat (S fuel))
    with (2 ^ Z.of_nat (S fuel) - 1)
    by (apply (Z.mod_unique_pos _ _ (-1)); lia).
  pose proof (utoa_impl_room fuel (2 ^ Z.of_nat (S fuel) - 1) buffer
                (Z.to_nat buffer_pos) ltac:(lia)) as E.
  rewrite Z2Nat.id, Hk in E by lia. rewrite E by lia. done.
Qed.

(** X16. [MaxDecimalDigitsIn<bytes>::kUnsigned] cells are room enough for
    [utoa] on any value of a [bytes]-byte type, signed or not: the call
    stays inside the buffer and writes between one and [kUnsigned] digits.
    The bound is reached: [-1], converted to the unsigned type, takes
    exactly [kUnsigned] digits. *)
Theorem utoa_fits_MaxDecimalDigits (bytes value : Z) (buffer : list Z)
    (buffer_pos : Z) :
  bytes = 4 \/ bytes = 8 ->
  0 <= buffer_pos ->
  buffer_pos + MaxDecimalDigitsIn_kUnsigned bytes
  <= Z.of_nat (length buffer) ->
  (exists buffer' result,
     utoa (Z.to_nat (8 * bytes)) value buffer buffer_pos
     = Some (buffer', result)
     /\ buffer_pos < result
        <= buffer_pos + MaxDecimalDigitsIn_kUnsigned bytes)
  /\ snd <$> utoa (Z.to_nat (8 * bytes)) (-1) buffer buffer_pos
     = Some (buffer_pos + MaxDecimalDigitsIn_kUnsigned bytes).
Proof.
  intros [-> | ->] Hp Hroom.
  - change (Z.to_nat (8 * 4)) with 32%nat.
    change (MaxDecimalDigitsIn_kUnsigned 4) with (Z.of_nat 10) in *.
    split.
    + apply utoa_fits; [by vm_compute|done|done].
    + apply utoa_all_ones; [by vm_compute|done|done].
  - change (Z.to_nat (8 * 8)) with 64%nat.
    change (MaxDecimalDigitsIn_kUnsigned 8) with (Z.of_nat 20) in *.
    split.
    + apply utoa_fits; [by vm_compute|done|done].
    + apply utoa_all_ones; [by vm_compute|done|done].
Qed.

Lemma utoa_fits_MaxDecimalDigits_witness :
  (exists buffer' result,
     utoa (Z.to_nat (8 * 4)) (-7) (replicate 12 0) 1
     = Some (buffer', result)
     /\ 1 < result <= 1 + MaxDecimalDigitsIn_kUnsigned 4)
  /\ snd <$> utoa (Z.to_nat (8 * 4)) (-1) (replicate 12 0) 1
     = Some (1 + MaxDecimalDigitsIn_kUnsigned 4).
Proof.
  apply (utoa_fits_MaxDecimalDigits 4 (-7) (replicate 12 0) 1).
  - by left.
  - lia.
  - vm_compute. discriminate.
Defined.

(** ** The output stream writer *)

Lemma received_app (a b : list StreamCall) :
  received (a ++ b) = received a ++ received b.
Proof.
  induction a as [|[d|] a IH]; simpl; [done| |done].
  by rewrite IH, app_assoc.
Qed.

Lemma take_take_drop_Z (s : list Z) (i a b : nat) :
  take a (drop i s) ++ take b (drop (i + a) s) = take (a + b) (drop i s).
Proof. by rewrite <- take_take_drop, drop_drop. Qed.

Section Continuing.
Import OutputStreamWriter.
Variable stream_answer : list StreamCall -> list Z -> WriteResult.
Hypothesis stream_continues : forall calls data,
  stream_answer calls data = kContinue.

Lemma MaybeWriteChunk_continues (w : t) :
  loaded w -> aborted_ w = false ->
  full_chunks (chunk_size_ w) (stream_ w) ->
  let w' := MaybeWriteChunk stream_answer w in
  healthy w' /\ aborted_ w' = false
  /\ chunk_size_ w' = chunk_size_ w
  /\ full_chunks (chunk_size_ w') (stream_ w')
  /\ contents w' = contents w.
Proof.
  intros (Hlen & Hpos & Hsize) Hab Hfull. unfold MaybeWriteChunk.
  destruct (Z.eqb_spec (chunk_pos_ w) (chunk_size_ w)) as [E|Hne].
  - unfold WriteChunk. rewrite Hab, stream_continues. simpl.
    unfold healthy, contents, pending. simpl.
    split; [lia|]. split; [done|]. split; [done|]. split.
    + apply Forall_app. split; [done|]. constructor; [|constructor].
      rewrite length_take. lia.
    + rewrite received_app. simpl. by rewrite !app_nil_r.
  - simpl. unfold healthy. split; [lia|]. done.
Qed.

Lemma grows_trans (w w1 w2 : t) (a b : list Z) :
  grows w w1 a -> grows w1 w2 b -> grows w w2 (a ++ b).
Proof.
  intros (_ & Hs1 & Hc1) (Hst & Hs2 & Hc2).
  split; [done|]. split; [congruence|].
  by rewrite Hc2, Hc1, app_assoc.
Qed.

Lemma MaybeWriteChunk_grows (w : t) (chunk : list Z) (pos : Z)
    (added : list Z) :
  steady w ->
  Z.of_nat (length chunk) = chunk_size_ w ->
  0 <= pos <= chunk_size_ w ->
  take (Z.to_nat pos) chunk = pending w ++ added ->
  grows w (MaybeWriteChunk stream_answer
             (mk (stream_ w) (chunk_size_ w) chunk pos (aborted_ w)))
        added.
Proof.
  intros ((Hlen & Hpos) & Hab & Hfull) Hlen' Hpos' Htake.
  destruct (MaybeWriteChunk_continues
              (mk (stream_ w) (chunk_size_ w) chunk pos (aborted_ w)))
    as (Hh & Hab' & Hs & Hf & Hc).
  - unfold loaded. simpl. lia.
  - done.
  - done.
  - split; [done|]. split; [done|].
    rewrite Hc. unfold contents at 1 2, pending at 1. simpl.
    by rewrite Htake, app_assoc.
Qed.

Lemma AddCharacter_grows (w : t) (c : Z) :
  steady w ->
  exists w', AddCharacter stream_answer w c = Some w' /\ grows w w' [c].
Proof.
  intros Hst. pose proof Hst as ((Hlen & Hpos) & Hab & Hfull).
  unfold AddCharacter. rewrite Vector_set_inside by lia.
  cbn [mbind option_bind]. eexists. split; [done|].
  apply MaybeWriteChunk_grows; [done|by rewrite length_insert|lia|].
  unfold pending.
  replace (Z.to_nat (chunk_pos_ w + 1))
    with (S (Z.to_nat (chunk_pos_ w))) by lia.
  rewrite insert_take_drop by lia.
  rewrite cons_middle, app_assoc.
  apply take_app_length'.
  rewrite length_app, length_take. simpl. lia.
Qed.

Lemma MemCopy_inside (chunk : list Z) (pos : Z) (src : list Z) :
  0 <= pos ->
  pos + Z.of_nat (length src) <= Z.of_nat (length chunk) ->
  exists chunk',
    MemCopy chunk pos src = Some chunk'
    /\ length chunk' = length chunk
    /\ take (Z.to_nat (pos + Z.of_nat (length src))) chunk'
       = take (Z.to_nat pos) chunk ++ src.
Proof.
  intros Hpos Hroom. unfold MemCopy.
  destruct (Z.ltb_spec pos 0); [lia|].
  destruct (Z.ltb_spec (Z.of_nat (length chunk))
              (pos + Z.of_nat (length src))); [lia|].
  eexists. split; [done|]. split.
  - rewrite !length_app, length_take, length_drop. lia.
  - rewrite app_assoc. apply take_app_length'.
    rewrite length_app, length_take. lia.
Qed.

Lemma read_bytes_inside (s : list Z) (pos size : Z) :
  0 <= pos -> 0 <= size -> pos + size <= Z.of_nat (length s) ->
  read_bytes s pos size
  = Some (take (Z.to_nat size) (drop (Z.to_nat pos) s))
  /\ length (take (Z.to_nat size) (drop (Z.to_nat pos) s)) = Z.to_nat size.
Proof.
  intros Hpos Hsize Hin. unfold read_bytes.
  destruct (Z.ltb_spec pos 0); [lia|].
  destruct (Z.ltb_spec size 0); [lia|]. simpl.
  destruct (Z.ltb_spec (Z.of_nat (length s)) (pos + size)); [lia|].
  split; [done|]. rewrite length_take, length_drop. lia.
Qed.

Lemma AddSubstring_loop_grows (str : list Z) (s_end : Z) (fuel : nat) :
  forall (w : t) (s : Z),
  steady w ->
  0 <= s -> s <= s_end <= Z.of_nat (length str) ->
  s_end - s < Z.of_nat fuel ->
  exists w',
    AddSubstring_loop stream_answer fuel w str s s_end = Some w'
    /\ grows w w' (take (Z.to_nat (s_end - s)) (drop (Z.to_nat s) str)).
Proof.
  induction fuel as [|fuel IH]; intros w s Hst Hs Hend Hfuel; [lia|].
  pose proof Hst as ((Hlen & Hpos) & Hab & Hfull).
  cbn [AddSubstring_loop].
  destruct (Z.ltb_spec s s_end) as [Hlt|Hge].
  - set (size := Z.min (chunk_size_ w - chunk_pos_ w) (s_end - s)).
    assert (Hsize : 0 < size <= s_end - s /\ size <= chunk_size_ w - chunk_pos_ w)
      by (unfold size; lia).
    destruct (read_bytes_inside str s size) as [-> Hsrc]; [lia..|].
    cbn [mbind option_bind].
    set (src := take (Z.to_nat size) (drop (Z.to_nat s) str)) in *.
    destruct (MemCopy_inside (chunk_ w) (chunk_pos_ w) src)
      as (chunk' & -> & Hlen' & Htake); [lia|lia|].
    cbn [mbind option_bind].
    assert (Hg : grows w
              (MaybeWriteChunk stream_answer
                 (mk (stream_ w) (chunk_size_ w) chunk'
                     (chunk_pos_ w + size) (aborted_ w))) src).
    { apply MaybeWriteChunk_grows; [done|lia|lia|].
      rewrite Hsrc, Z2Nat.id in Htake by lia. done. }
    destruct (IH _ (s + size) (proj1 Hg)) as (w' & -> & Hg');
      [lia|lia|lia|].
    exists w'. split; [done|].
    replace (take (Z.to_nat (s_end - s)) (drop (Z.to_nat s) str))
      with (src ++ take (Z.to_nat (s_end - (s + size)))
                        (drop (Z.to_nat (s + size)) str)).
    { by eapply grows_trans. }
    unfold src.
    replace (Z.to_nat (s + size)) with (Z.to_nat s + Z.to_nat size)%nat
      by lia.
    rewrite take_take_drop_Z. f_equal. lia.
  - exists w. split; [done|].
    replace (Z.to_nat (s_end - s)) with 0%nat by lia.
    rewrite take_0. split; [done|]. split; [done|].
    by rewrite app_nil_r.
Qed.

Lemma AddSubstring_grows (fuel : nat) (w : t) (s : list Z) (n : Z) :
  steady w ->
  n <= Z.of_nat (length s) -> n < Z.of_nat fuel ->
  exists w',
    AddSubstring stream_answer fuel w s n = Some w'
    /\ grows w w' (take (Z.to_nat n) s).
Proof.
  intros Hst Hn Hfuel. unfold AddSubstring.
  destruct (Z.leb_spec n 0) as [Hle|Hgt].
  - exists w. split; [done|].
    replace (Z.to_nat n) with 0%nat by lia.
    split; [done|]. split; [done|]. by rewrite app_nil_r.
  - destruct (AddSubstring_loop_grows s (0 + n) fuel w 0 Hst)
      as (w' & -> & Hg); [lia..|].
    exists w'. split; [done|].
    by replace (0 + n - 0) with n in Hg by lia.
Qed.

Lemma AddString_grows (fuel : nat) (w : t) (s : list Z) :
  steady w -> Z.of_nat (length s) < Z.of_nat fuel ->
  exists w', AddString stream_answer fuel w s = Some w' /\ grows w w' s.
Proof.
  intros Hst Hfuel. unfold AddString.
  destruct (AddSubstring_grows fuel w s (Z.of_nat (length s)) Hst)
    as (w' & -> & Hg); [lia..|].
  exists w'. split; [done|].
  by rewrite Nat2Z.id, firstn_all in Hg.
Qed.

End Continuing.

Lemma full_chunks_data (size : Z) (calls : list StreamCall) :
  full_chunks size calls ->
  exists chunks,
    calls = map WriteAsciiChunk chunks
    /\ Forall (fun chunk => Z.of_nat (length chunk) = size) chunks
    /\ received calls = concat chunks.
Proof.
  induction 1 as [|[d|] calls Hd _ (chunks & -> & Hall & Hr)];
    [by exists []| |done].
  exists (d :: chunks). split; [done|]. split; [by constructor|].
  simpl. by rewrite Hr.
Qed.


Lemma Finalize_chunks stream_answer (w : OutputStreamWriter.t) :
  steady w ->
  exists chunks,
    OutputStreamWriter.stream_ (OutputStreamWriter.Finalize stream_answer w)
    = map WriteAsciiChunk chunks ++ [EndOfStream]
    /\ concat chunks = contents w
    /\ forall (i : nat) chunk, chunks !! i = Some chunk ->
         0 < Z.of_nat (length chunk) <= OutputStreamWriter.chunk_size_ w
         /\ (S i < length chunks ->
             Z.of_nat (length chunk) = OutputStreamWriter.chunk_size_ w)%nat.
Proof.
  intros ((Hlen & Hpos) & Hab & Hfull).
  destruct (full_chunks_data _ _ Hfull) as (full & Hcalls & Hall & Hrec).
  unfold OutputStreamWriter.Finalize. rewrite Hab.
  rewrite Forall_lookup in Hall.
  destruct (Z.eqb_spec (OutputStreamWriter.chunk_pos_ w) 0) as [E|Hne].
  - exists full. cbn [negb OutputStreamWriter.stream_].
    split; [by rewrite Hcalls|]. split.
    + unfold contents, pending. rewrite E, Hrec. simpl.
      by rewrite app_nil_r.
    + intros i chunk Hi. specialize (Hall i chunk Hi). simpl in Hall. lia.
  - exists (full ++ [pending w]).
    unfold OutputStreamWriter.WriteChunk. rewrite Hab.
    cbn [negb OutputStreamWriter.stream_].
    split; [by rewrite Hcalls, map_app|]. split.
    + unfold contents. rewrite Hrec, concat_app. simpl.
      by rewrite app_nil_r.
    + intros i chunk Hi. rewrite length_app. simpl.
      apply lookup_app_Some in Hi as [Hi|[Hge Hi]].
      * specialize (Hall i chunk Hi). simpl in Hall. lia.
      * apply list_lookup_singleton_Some in Hi as [Hi <-].
        unfold pending. rewrite length_take. lia.
Qed.


Lemma received_full_length (size : Z) (calls : list StreamCall) :
  full_chunks size calls ->
  Z.of_nat (length (received calls)) = size * Z.of_nat (length calls).
Proof.
  induction 1 as [|[d|] calls Hd _ IH]; [simpl; lia| |done].
  cbn [received length]. rewrite length_app. lia.
Qed.

Lemma pending_length (w : OutputStreamWriter.t) :
  healthy w ->
  Z.of_nat (length (pending w)) = OutputStreamWriter.chunk_pos_ w.
Proof. intros [Hlen Hpos]. unfold pending. rewrite length_take. lia. Qed.

(** Where the characters added go: how many chunks are handed over and
    how many characters stay behind. *)
Lemma grows_position (w w' : OutputStreamWriter.t) (added : list Z) :
  steady w -> grows w w' added ->
  Z.of_nat (length (OutputStreamWriter.stream_ w'))
  = Z.of_nat (length (OutputStreamWriter.stream_ w))
    + (OutputStreamWriter.chunk_pos_ w + Z.of_nat (length added))
      / OutputStreamWriter.chunk_size_ w
  /\ OutputStreamWriter.chunk_pos_ w'
     = (OutputStreamWriter.chunk_pos_ w + Z.of_nat (length added))
       mod OutputStreamWriter.chunk_size_ w.
Proof.
  intros (Hh & _ & Hfull) ((Hh' & _ & Hfull') & Hsize & Hcont).
  apply (f_equal (fun l => Z.of_nat (length l))) in Hcont.
  unfold contents in Hcont. rewrite !length_app, !Nat2Z.inj_add in Hcont.
  rewrite (pending_length w Hh), (pending_length w' Hh') in Hcont.
  rewrite (received_full_length _ _ Hfull) in Hcont.
  rewrite (received_full_length _ _ Hfull'), Hsize in Hcont.
  destruct Hh' as [_ Hpos']. rewrite Hsize in Hpos'.
  set (total := OutputStreamWriter.chunk_pos_ w + Z.of_nat (length added))
    in *.
  set (size := OutputStreamWriter.chunk_size_ w) in *.
  set (k := Z.of_nat (length (OutputStreamWriter.stream_ w))) in *.
  set (k' := Z.of_nat (length (OutputStreamWriter.stream_ w'))) in *.
  assert (E : total = size * (k' - k) + OutputStreamWriter.chunk_pos_ w')
    by lia.
  split.
  - rewrite <- (Z.div_unique total size (k' - k)
                  (OutputStreamWriter.chunk_pos_ w')); [lia|lia|done].
  - by apply (Z.mod_unique total size (k' - k)); [lia|].
Qed.

(** X17. On a stream that does not abort, [AddCharacter] keeps the writer
    in its resting state (chunk of the right size and not full, only full
    chunks handed over) and adds exactly the character; the stream is
    called exactly when the character fills the chunk, and is then given
    the whole chunk. *)
Theorem AddCharacter_appends
    (stream_answer : list StreamCall -> list Z -> WriteResult)
    (w : OutputStreamWriter.t) (c : Z) :
  (forall calls data, stream_answer calls data = kContinue) ->
  steady w ->
  exists w',
    OutputStreamWriter.AddCharacter stream_answer w c = Some w'
    /\ steady w'
    /\ OutputStreamWriter.chunk_size_ w' = OutputStreamWriter.chunk_size_ w
    /\ contents w' = contents w ++ [c]
    /\ OutputStreamWriter.stream_ w'
       = (if OutputStreamWriter.chunk_pos_ w + 1
             =? OutputStreamWriter.chunk_size_ w
          then OutputStreamWriter.stream_ w
               ++ [WriteAsciiChunk (pending w ++ [c])]
          else OutputStreamWriter.stream_ w).
Proof.
  intros Hc Hst.
  destruct (AddCharacter_grows stream_answer Hc w c Hst)
    as (w' & E & Hst' & Hsize & Hcont).
  exists w'. split; [done|]. split; [done|]. split; [done|].
  split; [done|].
  destruct Hst as ((Hlen & Hpos) & Hab & _).
  unfold OutputStreamWriter.AddCharacter in E.
  rewrite Vector_set_inside in E by lia. injection E as <-.
  unfold OutputStreamWriter.MaybeWriteChunk, OutputStreamWriter.WriteChunk.
  cbn [OutputStreamWriter.chunk_pos_ OutputStreamWriter.chunk_size_
       OutputStreamWriter.aborted_ OutputStreamWriter.stream_
       OutputStreamWriter.chunk_].
  destruct (Z.eqb_spec (OutputStreamWriter.chunk_pos_ w + 1)
              (OutputStreamWriter.chunk_size_ w)) as [Efull|_]; [|done].
  rewrite Hab. cbn [OutputStreamWriter.stream_]. do 3 f_equal.
  unfold pending.
  replace (Z.to_nat (OutputStreamWriter.chunk_pos_ w + 1))
    with (S (Z.to_nat (OutputStreamWriter.chunk_pos_ w))) by lia.
  rewrite insert_take_drop by lia.
  rewrite cons_middle, app_assoc.
  apply take_app_length'.
  rewrite length_app, length_take. simpl. lia.
Qed.

Lemma AddCharacter_appends_witness :
  exists w',
    OutputStreamWriter.AddCharacter (fun _ _ => kContinue)
      (OutputStreamWriter.new 1) 97 = Some w'
    /\ steady w'
    /\ OutputStreamWriter.chunk_size_ w'
       = OutputStreamWriter.chunk_size_ (OutputStreamWriter.new 1)
    /\ contents w' = contents (OutputStreamWriter.new 1) ++ [97]
    /\ OutputStreamWriter.stream_ w'
       = (if OutputStreamWriter.chunk_pos_ (OutputStreamWriter.new 1) + 1
             =? OutputStreamWriter.chunk_size_ (OutputStreamWriter.new 1)
          then OutputStreamWriter.stream_ (OutputStreamWriter.new 1)
               ++ [WriteAsciiChunk
                     (pending (OutputStreamWriter.new 1) ++ [97])]
          else OutputStreamWriter.stream_ (OutputStreamWriter.new 1)).
Proof.
  apply (AddCharacter_appends (fun _ _ => kContinue)
           (OutputStreamWriter.new 1) 97).
  - reflexivity.
  - split; [|split; [reflexivity|constructor]].
    split; simpl; lia.
Defined.

(** X18. On a stream that does not abort, [AddSubstring] returns after at
    most [n] turns of its loop and adds exactly the first [n] characters
    of the string, nothing when [n <= 0]; the writer is left in its
    resting state, having handed over as many full chunks as
    [chunk_pos_ + n] holds and keeping the remainder. *)
Theorem AddSubstring_appends
    (stream_answer : list StreamCall -> list Z -> WriteResult)
    (fuel : nat) (w : OutputStreamWriter.t) (s : list Z) (n : Z) :
  (forall calls data, stream_answer calls data = kContinue) ->
  steady w ->
  n <= Z.of_nat (length s) ->
  n < Z.of_nat fuel ->
  exists w',
    OutputStreamWriter.AddSubstring stream_answer fuel w s n = Some w'
    /\ steady w'
    /\ OutputStreamWriter.chunk_size_ w' = OutputStreamWriter.chunk_size_ w
    /\ contents w' = contents w ++ take (Z.to_nat n) s
    /\ Z.of_nat (length (OutputStreamWriter.stream_ w'))
       = Z.of_nat (length (OutputStreamWriter.stream_ w))
         + (OutputStreamWriter.chunk_pos_ w + Z.max 0 n)
           / OutputStreamWriter.chunk_size_ w
    /\ OutputStreamWriter.chunk_pos_ w'
       = (OutputStreamWriter.chunk_pos_ w + Z.max 0 n)
         mod OutputStreamWriter.chunk_size_ w.
Proof.
  intros Hc Hst Hn Hfuel.
  destruct (AddSubstring_grows stream_answer Hc fuel w s n Hst Hn Hfuel)
    as (w' & E & Hg).
  exists w'. split; [done|].
  destruct (grows_position w w' _ Hst Hg) as [Hcount Hpos].
  rewrite length_take in Hcount, Hpos.
  replace (Z.of_nat (Z.to_nat n `min` length s)) with (Z.max 0 n)
    in Hcount, Hpos by lia.
  destruct Hg as (Hst' & Hsize & Hcont). done.
Qed.

Lemma AddSubstring_appends_witness :
  exists w',
    OutputStreamWriter.AddSubstring (fun _ _ => kContinue) 6
      (OutputStreamWriter.new 2) [97; 98; 99; 100; 101; 102] 5 = Some w'
    /\ steady w'
    /\ OutputStreamWriter.chunk_size_ w'
       = OutputStreamWriter.chunk_size_ (OutputStreamWriter.new 2)
    /\ contents w'
       = contents (OutputStreamWriter.new 2)
         ++ take (Z.to_nat 5) [97; 98; 99; 100; 101; 102]
    /\ Z.of_nat (length (OutputStreamWriter.stream_ w'))
       = Z.of_nat (length (OutputStreamWriter.stream_
                             (OutputStreamWriter.new 2)))
         + (OutputStreamWriter.chunk_pos_ (OutputStreamWriter.new 2)
            + Z.max 0 5)
           / OutputStreamWriter.chunk_size_ (OutputStreamWriter.new 2)
    /\ OutputStreamWriter.chunk_pos_ w'
       = (OutputStreamWriter.chunk_pos_ (OutputStreamWriter.new 2)
          + Z.max 0 5)
         mod OutputStreamWriter.chunk_size_ (OutputStreamWriter.new 2).
Proof.
  apply (AddSubstring_appends (fun _ _ => kContinue) 6
           (OutputStreamWriter.new 2) [97; 98; 99; 100; 101; 102] 5).
  - reflexivity.
  - split; [|split; [reflexivity|constructor]].
    split; simpl; lia.
  - simpl. lia.
  - lia.
Defined.

(** X19. [Finalize] on a writer at rest hands over what is held back as
    one last chunk, if there is any, and then calls [EndOfStream], also
    when the stream answers the last chunk with [kAbort].  The stream has
    then got every character added, in chunks that are all of the chunk
    size except a shorter last one, and none is empty. *)
Theorem Finalize_flushes
    (stream_answer : list StreamCall -> list Z -> WriteResult)
    (w : OutputStreamWriter.t) :
  steady w ->
  OutputStreamWriter.stream_ (OutputStreamWriter.Finalize stream_answer w)
  = OutputStreamWriter.stream_ w
    ++ (if OutputStreamWriter.chunk_pos_ w =? 0 then []
        else [WriteAsciiChunk (pending w)])
    ++ [EndOfStream]
  /\ exists chunks,
    OutputStreamWriter.stream_ (OutputStreamWriter.Finalize stream_answer w)
    = map WriteAsciiChunk chunks ++ [EndOfStream]
    /\ concat chunks = contents w
    /\ forall (i : nat) chunk, chunks !! i = Some chunk ->
         0 < Z.of_nat (length chunk) <= OutputStreamWriter.chunk_size_ w
         /\ (S i < length chunks ->
             Z.of_nat (length chunk) = OutputStreamWriter.chunk_size_ w)%nat.
Proof.
  intros Hst. split; [|by apply Finalize_chunks].
  destruct Hst as (_ & Hab & _).
  unfold OutputStreamWriter.Finalize, OutputStreamWriter.WriteChunk.
  rewrite Hab.
  destruct (OutputStreamWriter.chunk_pos_ w =? 0);
    cbn [negb OutputStreamWriter.stream_]; [done|].
  by rewrite <- app_assoc.
Qed.

Lemma Finalize_flushes_witness :
  let w := OutputStreamWriter.mk [WriteAsciiChunk [97; 98]] 2 [99; 98] 1
             false in
  OutputStreamWriter.stream_
    (OutputStreamWriter.Finalize (fun _ _ => kAbort) w)
  = OutputStreamWriter.stream_ w
    ++ (if OutputStreamWriter.chunk_pos_ w =? 0 then []
        else [WriteAsciiChunk (pending w)])
    ++ [EndOfStream]
  /\ exists chunks,
    OutputStreamWriter.stream_
      (OutputStreamWriter.Finalize (fun _ _ => kAbort) w)
    = map WriteAsciiChunk chunks ++ [EndOfStream]
    /\ concat chunks = contents w
    /\ forall (i : nat) chunk, chunks !! i = Some chunk ->
         0 < Z.of_nat (length chunk) <= OutputStreamWriter.chunk_size_ w
         /\ (S i < length chunks ->
             Z.of_nat (length chunk) = OutputStreamWriter.chunk_size_ w)%nat.
Proof.
  intros w.
  apply (Finalize_flushes (fun _ _ => kAbort) w).
  split; [|split; [reflexivity|]].
  - split; simpl; lia.
  - constructor; [reflexivity|constructor].
Defined.



(** ** The writer after an abort *)

Section Aborted.
Import OutputStreamWriter.
Variable stream_answer : list StreamCall -> list Z -> WriteResult.
Variable Utf8_CalculateValue : list Z -> Z * Z.
Variable Utf8_kBadChar : Z.

Lemma MaybeWriteChunk_aborted (w : t) :
  aborted_ w = true -> MaybeWriteChunk stream_answer w = w.
Proof.
  intros Hab. unfold MaybeWriteChunk, WriteChunk. rewrite Hab.
  by destruct (chunk_pos_ w =? chunk_size_ w).
Qed.

Lemma AddCharacter_aborted (w w' : t) (c : Z) :
  aborted_ w = true ->
  AddCharacter stream_answer w c = Some w' ->
  stream_ w' = stream_ w /\ aborted_ w' = true.
Proof.
  intros Hab. unfold AddCharacter.
  destruct (Vector_set (chunk_ w) (chunk_pos_ w) c) as [chunk|]; [|done].
  cbn [mbind option_bind]. rewrite MaybeWriteChunk_aborted by done.
  by intros [= <-].
Qed.

Lemma AddSubstring_loop_aborted (str : list Z) (s_end : Z) (fuel : nat) :
  forall (w w' : t) (s : Z),
  aborted_ w = true ->
  AddSubstring_loop stream_answer fuel w str s s_end = Some w' ->
  stream_ w' = stream_ w /\ aborted_ w' = true.
Proof.
  induction fuel as [|fuel IH]; intros w w' s Hab; [done|].
  cbn [AddSubstring_loop].
  destruct (s <? s_end); [|by intros [= <-]].
  destruct (read_bytes str s _) as [src|]; [|done].
  cbn [mbind option_bind].
  destruct (MemCopy (chunk_ w) (chunk_pos_ w) src) as [chunk|]; [|done].
  cbn [mbind option_bind]. rewrite MaybeWriteChunk_aborted by done.
  intros E. by apply IH in E.
Qed.

Lemma AddSubstring_aborted (fuel : nat) (w w' : t) (s : list Z) (n : Z) :
  aborted_ w = true ->
  AddSubstring stream_answer fuel w s n = Some w' ->
  stream_ w' = stream_ w /\ aborted_ w' = true.
Proof.
  intros Hab. unfold AddSubstring.
  destruct (n <=? 0); [by intros [= <-]|].
  by apply AddSubstring_loop_aborted.
Qed.

Lemma AddString_aborted (fuel : nat) (w w' : t) (s : list Z) :
  aborted_ w = true ->
  AddString stream_answer fuel w s = Some w' ->
  stream_ w' = stream_ w /\ aborted_ w' = true.
Proof. apply AddSubstring_aborted. Qed.

Lemma AddUChar_aborted (fuel : nat) (w w' : t) (u : Z) :
  aborted_ w = true ->
  AddUChar stream_answer fuel w u = Some w' ->
  stream_ w' = stream_ w /\ aborted_ w' = true.
Proof.
  intros Hab. unfold AddUChar.
  destruct (AddString _ fuel w _) as [w1|] eqn:E1; [|done].
  apply AddString_aborted in E1 as [Hs1 Ha1]; [|done].
  cbn [mbind option_bind].
  destruct (AddCharacter _ w1 _) as [w2|] eqn:E2; [|done].
  apply AddCharacter_aborted in E2 as [Hs2 Ha2]; [|done].
  cbn [mbind option_bind].
  destruct (AddCharacter _ w2 _) as [w3|] eqn:E3; [|done].
  apply AddCharacter_aborted in E3 as [Hs3 Ha3]; [|done].
  cbn [mbind option_bind].
  destruct (AddCharacter _ w3 _) as [w4|] eqn:E4; [|done].
  apply AddCharacter_aborted in E4 as [Hs4 Ha4]; [|done].
  cbn [mbind option_bind]. intros E5.
  apply AddCharacter_aborted in E5 as [Hs5 Ha5]; [|done].
  split; [congruence|done].
Qed.

Lemma bind_aborted (o : option t) (k : t -> option t) (w w' : t) :
  (forall w1, o = Some w1 ->
     stream_ w1 = stream_ w /\ aborted_ w1 = true) ->
  (forall w1 w2, aborted_ w1 = true -> k w1 = Some w2 ->
     stream_ w2 = stream_ w1 /\ aborted_ w2 = true) ->
  o ≫= k = Some w' ->
  stream_ w' = stream_ w /\ aborted_ w' = true.
Proof.
  intros Ho Hk. destruct o as [w1|]; [|done]. cbn [mbind option_bind].
  destruct (Ho w1 eq_refl) as [Hs Ha]. intros E.
  destruct (Hk w1 w' Ha E) as [Hs' Ha']. split; [congruence|done].
Qed.

Lemma SerializeString_loop_aborted (str : list Z) (fuel : nat) :
  forall (w w' : t) (s : Z),
  aborted_ w = true ->
  SerializeString_loop stream_answer Utf8_CalculateValue Utf8_kBadChar
    fuel w str s = Some w' ->
  stream_ w' = stream_ w /\ aborted_ w' = true.
Proof.
  induction fuel as [|fuel IH]; intros w w' s Hab; [done|].
  cbn [SerializeString_loop].
  destruct (char_at str s) as [c|]; [|done]. cbn [mbind option_bind].
  destruct (c =? 0); [by intros [= <-]|].
  repeat
    (match goal with
     | |- context [if ?b then _ else _] => destruct b
     end;
     [apply bind_aborted;
        [intros w1 E1;
         first [ by eapply AddString_aborted
               | by eapply AddCharacter_aborted
               | by eapply AddUChar_aborted ]
        |intros w1 w2 Ha1 E2;
         first [ by eapply IH
               | revert E2; apply bind_aborted;
                 [intros w3 E3; by eapply AddCharacter_aborted
                 |intros w3 w4 Ha3 E4; by eapply IH] ]]
     |]).
  destruct (SerializeString_length 5 str s 1) as [len|]; [|done].
  cbn [mbind option_bind].
  destruct (read_bytes str s len) as [bytes|]; [|done].
  cbn [mbind option_bind].
  destruct (Utf8_CalculateValue bytes) as [u cursor].
  destruct (negb (u =? Utf8_kBadChar)).
  - apply bind_aborted.
    + intros w1 E1. by eapply AddUChar_aborted.
    + intros w1 w2 Ha1 E2. by eapply IH.
  - apply bind_aborted.
    + intros w1 E1. by eapply AddCharacter_aborted.
    + intros w1 w2 Ha1 E2. by eapply IH.
Qed.

Lemma SerializeString_aborted (fuel : nat) (w w' : t) (s : list Z) :
  aborted_ w = true ->
  SerializeString stream_answer Utf8_CalculateValue Utf8_kBadChar
    fuel w s = Some w' ->
  stream_ w' = stream_ w /\ aborted_ w' = true.
Proof.
  intros Hab. unfold SerializeString.
  apply bind_aborted; [intros w1 E1; by eapply AddCharacter_aborted|].
  intros w1 w2 Ha1. apply bind_aborted;
    [intros w3 E3; by eapply AddCharacter_aborted|].
  intros w3 w4 Ha3. apply bind_aborted;
    [intros w5 E5; by eapply SerializeString_loop_aborted|].
  intros w5 w6 Ha5 E6. by eapply AddCharacter_aborted.
Qed.

(** A writer whose chunk is full and whose stream has aborted: the loop
    of [AddSubstring] copies nothing and does not advance. *)
Lemma AddSubstring_loop_stuck (str : list Z) (s_end : Z) (fuel : nat) :
  forall (w : t) (s : Z),
  aborted_ w = true ->
  Z.of_nat (length (chunk_ w)) = chunk_size_ w ->
  chunk_pos_ w = chunk_size_ w ->
  s < s_end ->
  AddSubstring_loop stream_answer fuel w str s s_end = None.
Proof.
  induction fuel as [|fuel IH]; intros w s Hab Hlen Hpos Hlt; [done|].
  cbn [AddSubstring_loop].
  destruct (Z.ltb_spec s s_end); [|lia].
  replace (Z.min (chunk_size_ w - chunk_pos_ w) (s_end - s)) with 0 by lia.
  destruct (read_bytes str s 0) as [src|] eqn:Er; [|done].
  assert (src = []) as ->.
  { unfold read_bytes in Er.
    destruct ((s <? 0) || (0 <? 0)); [done|].
    destruct (Z.of_nat (length str) <? s + 0); [done|].
    by injection Er as <-. }
  cbn [mbind option_bind].
  destruct (MemCopy (chunk_ w) (chunk_pos_ w) []) as [chunk|] eqn:Em;
    [|done].
  cbn [mbind option_bind]. rewrite MaybeWriteChunk_aborted by done.
  apply IH; simpl; [done| |lia|lia].
  unfold MemCopy in Em.
  destruct (chunk_pos_ w <? 0); [done|].
  destruct (_ <? _); [done|]. injection Em as <-.
  simpl. rewrite Nat.add_0_r, take_drop. done.
Qed.

End Aborted.



(** X21. Once the stream has aborted, the writer makes no further call on
    it: whatever [AddCharacter], [AddSubstring] and [SerializeString] do,
    the stream's calls stay as they were and the writer stays aborted, and
    [Finalize] does nothing at all (no last chunk, no [EndOfStream]). *)
Theorem aborted_writer_is_silent
    (stream_answer : list StreamCall -> list Z -> WriteResult)
    (Utf8_CalculateValue : list Z -> Z * Z) (Utf8_kBadChar : Z)
    (w : OutputStreamWriter.t) :
  OutputStreamWriter.aborted_ w = true ->
  (forall c w',
     OutputStreamWriter.AddCharacter stream_answer w c = Some w' ->
     OutputStreamWriter.stream_ w' = OutputStreamWriter.stream_ w
     /\ OutputStreamWriter.aborted_ w' = true)
  /\ (forall fuel s n w',
        OutputStreamWriter.AddSubstring stream_answer fuel w s n = Some w' ->
        OutputStreamWriter.stream_ w' = OutputStreamWriter.stream_ w
        /\ OutputStreamWriter.aborted_ w' = true)
  /\ (forall fuel s w',
        OutputStreamWriter.SerializeString stream_answer
          Utf8_CalculateValue Utf8_kBadChar fuel w s = Some w' ->
        OutputStreamWriter.stream_ w' = OutputStreamWriter.stream_ w
        /\ OutputStreamWriter.aborted_ w' = true)
  /\ OutputStreamWriter.Finalize stream_answer w = w.
Proof.
  intros Hab. split; [|split; [|split]].
  - intros c w'. by apply AddCharacter_aborted.
  - intros fuel s n w'. by apply AddSubstring_aborted.
  - intros fuel s w'. by apply SerializeString_aborted.
  - unfold OutputStreamWriter.Finalize. by rewrite Hab.
Qed.

Lemma aborted_writer_is_silent_witness :
  let w := OutputStreamWriter.mk [WriteAsciiChunk [97; 98]] 2 [97; 98] 0
             true in
  let stream_answer := fun (_ : list StreamCall) (_ : list Z) => kContinue in
  let Utf8_CalculateValue := fun _ : list Z => (65533, 1) in
  (forall c w',
     OutputStreamWriter.AddCharacter stream_answer w c = Some w' ->
     OutputStreamWriter.stream_ w' = OutputStreamWriter.stream_ w
     /\ OutputStreamWriter.aborted_ w' = true)
  /\ (forall fuel s n w',
        OutputStreamWriter.AddSubstring stream_answer fuel w s n = Some w' ->
        OutputStreamWriter.stream_ w' = OutputStreamWriter.stream_ w
        /\ OutputStreamWriter.aborted_ w' = true)
  /\ (forall fuel s w',
        OutputStreamWriter.SerializeString stream_answer
          Utf8_CalculateValue 65533 fuel w s = Some w' ->
        OutputStreamWriter.stream_ w' = OutputStreamWriter.stream_ w
        /\ OutputStreamWriter.aborted_ w' = true)
  /\ OutputStreamWriter.Finalize stream_answer w = w.
Proof.
  intros w stream_answer Utf8_CalculateValue.
  apply (aborted_writer_is_silent stream_answer Utf8_CalculateValue 65533 w).
  reflexivity.
Defined.

(** The loop of [AddSubstring] runs its body turn after turn. *)
Lemma AddSubstring_loop_turn
    (stream_answer : list StreamCall -> list Z -> WriteResult)
    (fuel : nat) (w : OutputStreamWriter.t) (str : list Z) (s s_end : Z) :
  OutputStreamWriter.AddSubstring_loop stream_answer (S fuel) w str s s_end
  = if s <? s_end then
      '(w', s') ← OutputStreamWriter.AddSubstring_turn stream_answer w str
                    s s_end;
      OutputStreamWriter.AddSubstring_loop stream_answer fuel w' str s' s_end
    else Some w.
Proof.
  cbn [OutputStreamWriter.AddSubstring_loop].
  unfold OutputStreamWriter.AddSubstring_turn.
  destruct (s <? s_end); [|done].
  destruct (read_bytes str s _) as [src|]; [|done].
  cbn [mbind option_bind].
  by destruct (MemCopy _ _ src).
Qed.

(** With the chunk full and the stream aborted a turn reads and copies
    nothing, in range, and leaves the writer and [s] as they are. *)
Lemma AddSubstring_turn_stuck
    (stream_answer : list StreamCall -> list Z -> WriteResult)
    (w : OutputStreamWriter.t) (str : list Z) (s s_end : Z) :
  OutputStreamWriter.aborted_ w = true ->
  Z.of_nat (length (OutputStreamWriter.chunk_ w))
  = OutputStreamWriter.chunk_size_ w ->
  OutputStreamWriter.chunk_pos_ w = OutputStreamWriter.chunk_size_ w ->
  0 <= s <= Z.of_nat (length str) -> s < s_end ->
  OutputStreamWriter.AddSubstring_turn stream_answer w str s s_end
  = Some (w, s).
Proof.
  intros Hab Hlen Hpos Hs Hlt.
  unfold OutputStreamWriter.AddSubstring_turn.
  replace (Z.min (OutputStreamWriter.chunk_size_ w
                  - OutputStreamWriter.chunk_pos_ w) (s_end - s))
    with 0 by lia.
  destruct (read_bytes_inside str s 0) as [-> _]; [lia..|].
  cbn [mbind option_bind]. change (Z.to_nat 0) with 0%nat. rewrite take_0.
  unfold MemCopy.
  destruct (Z.ltb_spec (OutputStreamWriter.chunk_pos_ w) 0); [lia|].
  destruct (Z.ltb_spec (Z.of_nat (length (OutputStreamWriter.chunk_ w)))
              (OutputStreamWriter.chunk_pos_ w + Z.of_nat (length (@nil Z))));
    [simpl in *; lia|].
  cbn [mbind option_bind].
  rewrite MaybeWriteChunk_aborted by done.
  simpl. rewrite Nat.add_0_r, take_drop, !Z.add_0_r.
  by destruct w.
Qed.

(** X22. After an abort [WriteChunk] no longer resets [chunk_pos_].  When
    [AddSubstring] is then given more characters than the chunk has room
    for, the first turn of its loop reads and copies in range and fills the
    chunk; from then on a turn reads and copies nothing, still in range,
    and leaves the writer and the position in the string as they are,
    short of the end: the loop does not end, and no number of turns is
    enough for the call to return. *)
Theorem AddSubstring_after_abort_never_returns
    (stream_answer : list StreamCall -> list Z -> WriteResult)
    (w : OutputStreamWriter.t) (s : list Z) (n : Z) :
  healthy w ->
  OutputStreamWriter.aborted_ w = true ->
  OutputStreamWriter.chunk_size_ w - OutputStreamWriter.chunk_pos_ w < n ->
  n <= Z.of_nat (length s) ->
  exists w1 s1,
    OutputStreamWriter.AddSubstring_turn stream_answer w s 0 (0 + n)
    = Some (w1, s1)
    /\ OutputStreamWriter.chunk_pos_ w1 = OutputStreamWriter.chunk_size_ w1
    /\ 0 < s1 < 0 + n
    /\ OutputStreamWriter.AddSubstring_turn stream_answer w1 s s1 (0 + n)
       = Some (w1, s1)
    /\ (forall fuel w' s',
          OutputStreamWriter.AddSubstring_loop stream_answer (S fuel) w' s
            s' (0 + n)
          = if s' <? 0 + n then
              '(w'', s'') ← OutputStreamWriter.AddSubstring_turn
                              stream_answer w' s s' (0 + n);
              OutputStreamWriter.AddSubstring_loop stream_answer fuel w'' s
                s'' (0 + n)
            else Some w')
    /\ forall fuel,
         OutputStreamWriter.AddSubstring stream_answer fuel w s n = None.
Proof.
  intros (Hlen & Hpos) Hab Hroom Hn.
  set (size := OutputStreamWriter.chunk_size_ w
               - OutputStreamWriter.chunk_pos_ w).
  assert (E1 : exists chunk',
            OutputStreamWriter.AddSubstring_turn stream_answer w s 0 (0 + n)
            = Some (OutputStreamWriter.mk (OutputStreamWriter.stream_ w)
                      (OutputStreamWriter.chunk_size_ w) chunk'
                      (OutputStreamWriter.chunk_pos_ w + size) true,
                    0 + size)
            /\ length chunk' = length (OutputStreamWriter.chunk_ w)).
  { unfold OutputStreamWriter.AddSubstring_turn.
    replace (Z.min (OutputStreamWriter.chunk_size_ w
                    - OutputStreamWriter.chunk_pos_ w) (0 + n - 0))
      with size by (unfold size; lia).
    destruct (read_bytes_inside s 0 size) as [-> Hsrc];
      [unfold size; lia..|].
    cbn [mbind option_bind].
    destruct (MemCopy_inside (OutputStreamWriter.chunk_ w)
                (OutputStreamWriter.chunk_pos_ w)
                (take (Z.to_nat size) (drop (Z.to_nat 0) s)))
      as (chunk' & -> & Hlen' & _); [lia|unfold size in *; lia|].
    cbn [mbind option_bind]. exists chunk'.
    rewrite MaybeWriteChunk_aborted by done. by rewrite Hab. }
  destruct E1 as (chunk' & E1 & Hlen').
  set (w1 := OutputStreamWriter.mk (OutputStreamWriter.stream_ w)
               (OutputStreamWriter.chunk_size_ w) chunk'
               (OutputStreamWriter.chunk_pos_ w + size) true) in *.
  assert (E2 : OutputStreamWriter.AddSubstring_turn stream_answer w1 s
                 (0 + size) (0 + n) = Some (w1, 0 + size)).
  { apply AddSubstring_turn_stuck; unfold w1, size; simpl; lia. }
  exists w1, (0 + size).
  split; [done|]. split; [unfold w1, size; simpl; lia|].
  split; [unfold size; lia|]. split; [done|].
  split; [intros; apply AddSubstring_loop_turn|].
  intros fuel. unfold OutputStreamWriter.AddSubstring.
  destruct (Z.leb_spec n 0); [unfold size in *; lia|].
  destruct fuel as [|fuel]; [done|].
  rewrite AddSubstring_loop_turn, E1.
  destruct (Z.ltb_spec 0 (0 + n)); [|lia].
  cbn [mbind option_bind].
  apply AddSubstring_loop_stuck; unfold w1, size; simpl; lia.
Qed.

Lemma AddSubstring_after_abort_never_returns_witness :
  let w := OutputStreamWriter.mk [WriteAsciiChunk [97]] 1 [97] 0 true in
  OutputStreamWriter.AddCharacter (fun _ _ => kAbort)
    (OutputStreamWriter.new 1) 97 = Some w
  /\ exists w1 s1,
       OutputStreamWriter.AddSubstring_turn (fun _ _ => kAbort) w [98; 99]
         0 (0 + 2) = Some (w1, s1)
       /\ OutputStreamWriter.AddSubstring_turn (fun _ _ => kAbort) w1
            [98; 99] s1 (0 + 2) = Some (w1, s1)
       /\ 0 < s1 < 0 + 2
       /\ forall fuel,
            OutputStreamWriter.AddSubstring (fun _ _ => kAbort) fuel w
              [98; 99] 2 = None.
Proof.
  intros w. split; [reflexivity|].
  destruct (AddSubstring_after_abort_never_returns (fun _ _ => kAbort)
              w [98; 99] 2)
    as (w1 & s1 & E1 & _ & Hs & E2 & _ & Hnone).
  - split; simpl; lia.
  - reflexivity.
  - simpl. lia.
  - simpl. lia.
  - by exists w1, s1.
Defined.



(** ** Escaped strings *)

Lemma hex_digit (x : Z) :
  0 <= x < 16 ->
  hex_value (nth (Z.to_nat x) OutputStreamWriter.hex_chars 0) = Some x
  /\ (48 <= nth (Z.to_nat x) OutputStreamWriter.hex_chars 0 <= 57
      \/ 65 <= nth (Z.to_nat x) OutputStreamWriter.hex_chars 0 <= 70).
Proof.
  intros Hx.
  assert (Hcases : x = 0 \/ x = 1 \/ x = 2 \/ x = 3 \/ x = 4 \/ x = 5
                   \/ x = 6 \/ x = 7 \/ x = 8 \/ x = 9 \/ x = 10 \/ x = 11
                   \/ x = 12 \/ x = 13 \/ x = 14 \/ x = 15) by lia.
  repeat (destruct Hcases as [->|Hcases]; [split; [reflexivity|simpl; lia]|]).
  subst. split; [reflexivity|simpl; lia].
Qed.

Lemma land_15 (x : Z) : Z.land x 15 = x mod 16.
Proof. apply (Z.land_ones x 4). lia. Qed.

Lemma nibble_range (u k : Z) : 0 <= Z.land (Z.shiftr u k) 15 < 16.
Proof. rewrite land_15. apply Z.mod_pos_bound. lia. Qed.

Lemma nibbles_value (u : Z) :
  ((Z.land (Z.shiftr u 12) 15 * 16 + Z.land (Z.shiftr u 8) 15) * 16
   + Z.land (Z.shiftr u 4) 15) * 16 + Z.land u 15
  = u mod 65536.
Proof.
  rewrite !land_15, !Z.shiftr_div_pow2 by lia.
  change (2 ^ 12) with 4096. change (2 ^ 8) with 256.
  change (2 ^ 4) with 16.
  pose proof (Z.div_mod u 16 ltac:(lia)).
  pose proof (Z.div_mod (u / 16) 16 ltac:(lia)) as H1.
  pose proof (Z.div_mod (u / 256) 16 ltac:(lia)) as H2.
  pose proof (Z.div_mod (u / 4096) 16 ltac:(lia)) as H3.
  pose proof (Z.div_mod u 65536 ltac:(lia)).
  rewrite Z.div_div in H1, H2, H3 by lia.
  change (16 * 16) with 256 in H1. change (256 * 16) with 4096 in H2.
  change (4096 * 16) with 65536 in H3. lia.
Qed.

Lemma uchar_escape_encodes (u : Z) :
  encodes (uchar_escape u) [u mod 65536].
Proof.
  unfold uchar_escape.
  destruct (hex_digit _ (nibble_range u 12)) as [Ha Ra].
  destruct (hex_digit _ (nibble_range u 8)) as [Hb Rb].
  destruct (hex_digit _ (nibble_range u 4)) as [Hc Rc].
  pose proof (nibble_range u 0) as R0. rewrite Z.shiftr_0_r in R0.
  destruct (hex_digit _ R0) as [Hd Rd].
  split.
  - repeat (constructor; [lia|]). constructor.
  - intros rest. cbn [app unescape]. cbn [Z.eqb Pos.eqb].
    unfold hex4. rewrite Ha, Hb, Hc, Hd. cbn [mbind option_bind].
    by rewrite nibbles_value.
Qed.

Lemma encodes_nil : encodes [] [].
Proof.
  split; [constructor|]. intros rest. simpl. by destruct (unescape rest).
Qed.

Lemma encodes_app (a b x y : list Z) :
  encodes a x -> encodes b y -> encodes (a ++ b) (x ++ y).
Proof.
  intros [Fa Ha] [Fb Hb]. split; [by apply Forall_app|].
  intros rest. rewrite <- app_assoc, Ha, Hb.
  destruct (unescape rest) as [r|]; [|done]. simpl.
  by rewrite app_assoc.
Qed.

Lemma encodes_simple (e v : Z) :
  simple_escape e = Some v -> e <> 117 -> 32 <= e <= 127 ->
  encodes [92; e] [v].
Proof.
  intros He Hne Hr. split; [repeat (constructor; [lia|]); constructor|].
  intros rest. cbn [app unescape]. cbn [Z.eqb Pos.eqb].
  destruct (Z.eqb_spec e 117); [done|]. by rewrite He.
Qed.

Lemma encodes_plain (c : Z) :
  32 <= c <= 127 -> c <> 34 -> c <> 92 -> encodes [c] [c].
Proof.
  intros Hr H34 H92. split; [constructor; [lia|constructor]|].
  intros rest. cbn [app unescape].
  destruct (Z.eqb_spec c 92); [done|].
  destruct (Z.ltb_spec c 32); [lia|].
  destruct (Z.eqb_spec c 34); [done|].
  by destruct (Z.ltb_spec 127 c); [lia|].
Qed.

Lemma char_at_inside (str : list Z) (s c : Z) :
  0 <= s -> str !! Z.to_nat s = Some c -> char_at str s = Some c.
Proof.
  intros Hs Hc. unfold char_at.
  pose proof (lookup_lt_Some _ _ _ Hc).
  destruct (Z.ltb_spec s 0); [lia|].
  by destruct (Z.eqb_spec s (Z.of_nat (length str))); [lia|].
Qed.

Lemma char_at_end (str : list Z) : char_at str (Z.of_nat (length str)) = Some 0.
Proof.
  unfold char_at. destruct (Z.ltb_spec (Z.of_nat (length str)) 0); [lia|].
  by rewrite Z.eqb_refl.
Qed.

(** The look-ahead of [SerializeString] stops after five bytes or at the
    terminator. *)
Lemma SerializeString_length_spec (str : list Z) (s : Z) :
  Forall (fun c => 1 <= c <= 255) str ->
  0 <= s < Z.of_nat (length str) ->
  forall (fuel : nat) (len : Z),
  1 <= len <= Z.min 5 (Z.of_nat (length str) - s) ->
  6 <= Z.of_nat fuel + len ->
  OutputStreamWriter.SerializeString_length fuel str s len
  = Some (Z.min 5 (Z.of_nat (length str) - s)).
Proof.
  intros Hstr Hs. induction fuel as [|fuel IH]; intros len Hlen Hfuel;
    [lia|].
  cbn [OutputStreamWriter.SerializeString_length].
  destruct (Z.leb_spec len 4) as [Hle|Hgt]; [|f_equal; lia].
  destruct (decide (s + len = Z.of_nat (length str))) as [E|Hne].
  - rewrite E, char_at_end. simpl. f_equal. lia.
  - destruct (lookup_lt_is_Some_2 str (Z.to_nat (s + len)) ltac:(lia))
      as [c Hc].
    rewrite (char_at_inside str (s + len) c) by (done || lia).
    cbn [mbind option_bind].
    rewrite Forall_lookup in Hstr. specialize (Hstr _ _ Hc). simpl in Hstr.
    destruct (Z.eqb_spec c 0); [lia|]. simpl. apply IH; lia.
Qed.

Section Serializing.
Import OutputStreamWriter.
Variable stream_answer : list StreamCall -> list Z -> WriteResult.
Hypothesis stream_continues : forall calls data,
  stream_answer calls data = kContinue.
Variable Utf8_CalculateValue : list Z -> Z * Z.
Variable Utf8_kBadChar : Z.

Lemma AddUChar_grows (fuel : nat) (w : t) (u : Z) :
  steady w -> (2 < fuel)%nat ->
  exists w',
    AddUChar stream_answer fuel w u = Some w'
    /\ grows w w' (uchar_escape u).
Proof.
  intros Hst Hfuel. unfold AddUChar.
  destruct (AddString_grows stream_answer stream_continues fuel w [92; 117]
              Hst) as (w1 & -> & Hg1); [simpl; lia|].
  cbn [mbind option_bind].
  destruct (AddCharacter_grows stream_answer stream_continues w1
              (nth (Z.to_nat (Z.land (Z.shiftr u 12) 15)) hex_chars 0)
              (proj1 Hg1)) as (w2 & -> & Hg2).
  cbn [mbind option_bind].
  destruct (AddCharacter_grows stream_answer stream_continues w2
              (nth (Z.to_nat (Z.land (Z.shiftr u 8) 15)) hex_chars 0)
              (proj1 Hg2)) as (w3 & -> & Hg3).
  cbn [mbind option_bind].
  destruct (AddCharacter_grows stream_answer stream_continues w3
              (nth (Z.to_nat (Z.land (Z.shiftr u 4) 15)) hex_chars 0)
              (proj1 Hg3)) as (w4 & -> & Hg4).
  cbn [mbind option_bind].
  destruct (AddCharacter_grows stream_answer stream_continues w4
              (nth (Z.to_nat (Z.land u 15)) hex_chars 0)
              (proj1 Hg4)) as (w5 & -> & Hg5).
  exists w5. split; [done|].
  pose proof (grows_trans _ _ _ _ _
                (grows_trans _ _ _ _ _
                   (grows_trans _ _ _ _ _
                      (grows_trans _ _ _ _ _ Hg1 Hg2) Hg3) Hg4) Hg5) as Hg.
  exact Hg.
Qed.

Lemma serialize_step (str : list Z) (w w1 w' : t)
    (tok body dec : list Z) (v c : Z) (s : nat) :
  grows w w1 tok -> grows w1 w' body ->
  encodes tok [v] -> encodes body dec ->
  str !! s = Some c ->
  (c < 128 ->
   v = c /\ (Forall (fun c => c < 128) (drop (S s) str) ->
             dec = drop (S s) str)) ->
  exists body0 dec0,
    grows w w' body0 /\ encodes body0 dec0
    /\ (Forall (fun c => c < 128) (drop s str) -> dec0 = drop s str).
Proof.
  intros Hg1 Hg2 Htok Hbody Hc Hasc.
  exists (tok ++ body), ([v] ++ dec).
  split; [by eapply grows_trans|]. split; [by apply encodes_app|].
  rewrite (drop_S _ _ _ Hc). intros Hall.
  apply Forall_cons in Hall as [Hlt Hall].
  destruct (Hasc Hlt) as [-> Hdec]. simpl. f_equal. by apply Hdec.
Qed.

Lemma SerializeString_loop_grows (str : list Z) :
  Forall (fun c => 1 <= c <= 255) str ->
  (forall (i : nat) b, str !! i = Some b -> 128 <= b ->
   forall k u cursor,
     (0 < k)%nat ->
     Utf8_CalculateValue (take k (drop i str)) = (u, cursor) ->
     u <> Utf8_kBadChar ->
     1 <= cursor <= Z.of_nat (length (take k (drop i str)))) ->
  forall (fuel : nat) (w : t) (s : Z),
  steady w -> 0 <= s <= Z.of_nat (length str) ->
  Z.of_nat (length str) - s + 3 <= Z.of_nat fuel ->
  exists w' body dec,
    SerializeString_loop stream_answer Utf8_CalculateValue Utf8_kBadChar
      fuel w str s = Some w'
    /\ grows w w' body /\ encodes body dec
    /\ (Forall (fun c => c < 128) (drop (Z.to_nat s) str) ->
        dec = drop (Z.to_nat s) str).
Proof.
  intros Hstr HCV.
  induction fuel as [|fuel IH]; intros w s Hst Hs Hfuel; [lia|].
  cbn [SerializeString_loop].
  destruct (decide (s = Z.of_nat (length str))) as [->|Hne].
  { rewrite char_at_end. simpl. exists w, [], [].
    split; [done|]. split.
    - split; [done|]. split; [done|]. by rewrite app_nil_r.
    - split; [apply encodes_nil|]. intros _.
      by rewrite Nat2Z.id, drop_all. }
  destruct (lookup_lt_is_Some_2 str (Z.to_nat s) ltac:(lia)) as [c Hc].
  rewrite (char_at_inside str s c) by (done || lia).
  cbn [mbind option_bind].
  assert (Hrange : 1 <= c <= 255).
  { rewrite Forall_lookup in Hstr. apply (Hstr _ _ Hc). }
  destruct (Z.eqb_spec c 0); [lia|].
  assert (Hafter : forall w1 tok v (s' : Z),
            grows w w1 tok -> encodes tok [v] ->
            s < s' <= Z.of_nat (length str) ->
            (c < 128 -> v = c /\ s' = s + 1) ->
            exists w' body dec,
              SerializeString_loop stream_answer Utf8_CalculateValue
                Utf8_kBadChar fuel w1 str s' = Some w'
              /\ grows w w' body /\ encodes body dec
              /\ (Forall (fun c => c < 128) (drop (Z.to_nat s) str) ->
                  dec = drop (Z.to_nat s) str)).
  { intros w1 tok v s' Hg1 Htok Hs' Hv.
    destruct (IH w1 s' (proj1 Hg1)) as (w' & body & dec & E & Hg & Henc & Hasc);
      [lia|lia|].
    exists w'.
    destruct (serialize_step str w w1 w' tok body dec v c (Z.to_nat s)
                Hg1 Hg Htok Henc Hc) as (body0 & dec0 & H0).
    - intros Hlt. destruct (Hv Hlt) as [-> ->]. split; [done|].
      by replace (Z.to_nat (s + 1)) with (S (Z.to_nat s)) in Hasc by lia.
    - by exists body0, dec0. }
  assert (Hfuel' : Z.of_nat (length [92; 98]) < Z.of_nat (S fuel))
    by (simpl; lia).
  destruct (Z.eqb_spec c 8) as [->|H8].
  { destruct (AddString_grows stream_answer stream_continues (S fuel) w
                [92; 98] Hst Hfuel') as (w1 & -> & Hg1).
    cbn [mbind option_bind].
    apply (Hafter w1 [92; 98] 8 (s + 1) Hg1); [|lia|done].
    by apply encodes_simple. }
  destruct (Z.eqb_spec c 12) as [->|H12].
  { destruct (AddString_grows stream_answer stream_continues (S fuel) w
                [92; 102] Hst Hfuel') as (w1 & -> & Hg1).
    cbn [mbind option_bind].
    apply (Hafter w1 [92; 102] 12 (s + 1) Hg1); [|lia|done].
    by apply encodes_simple. }
  destruct (Z.eqb_spec c 10) as [->|H10].
  { destruct (AddString_grows stream_answer stream_continues (S fuel) w
                [92; 110] Hst Hfuel') as (w1 & -> & Hg1).
    cbn [mbind option_bind].
    apply (Hafter w1 [92; 110] 10 (s + 1) Hg1); [|lia|done].
    by apply encodes_simple. }
  destruct (Z.eqb_spec c 13) as [->|H13].
  { destruct (AddString_grows stream_answer stream_continues (S fuel) w
                [92; 114] Hst Hfuel') as (w1 & -> & Hg1).
    cbn [mbind option_bind].
    apply (Hafter w1 [92; 114] 13 (s + 1) Hg1); [|lia|done].
    by apply encodes_simple. }
  destruct (Z.eqb_spec c 9) as [->|H9].
  { destruct (AddString_grows stream_answer stream_continues (S fuel) w
                [92; 116] Hst Hfuel') as (w1 & -> & Hg1).
    cbn [mbind option_bind].
    apply (Hafter w1 [92; 116] 9 (s + 1) Hg1); [|lia|done].
    by apply encodes_simple. }
  destruct ((c =? 34) || (c =? 92)) eqn:Equote.
  { destruct (AddCharacter_grows stream_answer stream_continues w 92 Hst)
      as (w1 & -> & Hg1).
    cbn [mbind option_bind].
    destruct (AddCharacter_grows stream_answer stream_continues w1 c
                (proj1 Hg1)) as (w2 & -> & Hg2).
    cbn [mbind option_bind].
    apply (Hafter w2 ([92] ++ [c]) c (s + 1)); [|simpl|lia|done].
    - by eapply grows_trans.
    - apply orb_true_iff in Equote as [E|E]; apply Z.eqb_eq in E;
        subst c; by apply encodes_simple. }
  apply orb_false_iff in Equote as [H34 H92].
  apply Z.eqb_neq in H34, H92.
  destruct ((31 <? c) && (c <? 128)) eqn:Eplain.
  { apply andb_true_iff in Eplain as [E1 E2].
    apply Z.ltb_lt in E1, E2.
    destruct (AddCharacter_grows stream_answer stream_continues w c Hst)
      as (w1 & -> & Hg1).
    cbn [mbind option_bind].
    apply (Hafter w1 [c] c (s + 1) Hg1); [|lia|done].
    apply encodes_plain; lia. }
  destruct (Z.leb_spec c 31) as [Hctl|Hhigh].
  { destruct (AddUChar_grows (S fuel) w c Hst) as (w1 & -> & Hg1); [lia|].
    cbn [mbind option_bind].
    apply (Hafter w1 (uchar_escape c) c (s + 1) Hg1); [|lia|done].
    rewrite <- (Z.mod_small c 65536) at 2 by lia.
    apply uchar_escape_encodes. }
  assert (H128 : 128 <= c).
  { apply andb_false_iff in Eplain as [E|E];
      [apply Z.ltb_ge in E|apply Z.ltb_ge in E]; lia. }
  rewrite (SerializeString_length_spec str s Hstr) by lia.
  cbn [mbind option_bind].
  set (len := Z.min 5 (Z.of_nat (length str) - s)).
  destruct (read_bytes_inside str s len) as [-> Hlen]; [lia..|].
  cbn [mbind option_bind].
  destruct (Utf8_CalculateValue _) as [u cursor] eqn:Ecv.
  destruct (Z.eqb_spec u Utf8_kBadChar) as [Ebad|Hgood]; cbn [negb].
  - destruct (AddCharacter_grows stream_answer stream_continues w 63 Hst)
      as (w1 & -> & Hg1).
    cbn [mbind option_bind].
    apply (Hafter w1 [63] 63 (s + 1) Hg1); [|lia|lia].
    apply encodes_plain; lia.
  - assert (Hk : (0 < Z.to_nat len)%nat) by (unfold len; lia).
    destruct (HCV _ _ Hc H128 (Z.to_nat len) u cursor Hk Ecv Hgood)
      as [Hc1 Hc2].
    rewrite Hlen in Hc2.
    destruct (AddUChar_grows (S fuel) w u Hst) as (w1 & -> & Hg1); [lia|].
    cbn [mbind option_bind].
    apply (Hafter w1 (uchar_escape u) (u mod 65536) (s + (cursor - 1) + 1)
             Hg1); [|lia|lia].
    apply uchar_escape_encodes.
Qed.

Lemma SerializeString_grows (fuel : nat) (w : t) (str : list Z) :
  Forall (fun c => 1 <= c <= 255) str ->
  (forall (i : nat) b, str !! i = Some b -> 128 <= b ->
   forall k u cursor,
     (0 < k)%nat ->
     Utf8_CalculateValue (take k (drop i str)) = (u, cursor) ->
     u <> Utf8_kBadChar ->
     1 <= cursor <= Z.of_nat (length (take k (drop i str)))) ->
  steady w ->
  Z.of_nat (length str) + 3 <= Z.of_nat fuel ->
  exists w' body dec,
    SerializeString stream_answer Utf8_CalculateValue Utf8_kBadChar
      fuel w str = Some w'
    /\ grows w w' ([10; 34] ++ body ++ [34])
    /\ encodes body dec
    /\ (Forall (fun c => c < 128) str -> dec = str).
Proof.
  intros Hstr HCV Hst Hfuel. unfold SerializeString.
  destruct (AddCharacter_grows stream_answer stream_continues w 10 Hst)
    as (w1 & -> & Hg1).
  cbn [mbind option_bind].
  destruct (AddCharacter_grows stream_answer stream_continues w1 34
              (proj1 Hg1)) as (w2 & -> & Hg2).
  cbn [mbind option_bind].
  destruct (SerializeString_loop_grows str Hstr HCV fuel w2 0 (proj1 Hg2))
    as (w3 & body & dec & -> & Hg3 & Henc & Hasc); [lia|lia|].
  cbn [mbind option_bind].
  destruct (AddCharacter_grows stream_answer stream_continues w3 34
              (proj1 Hg3)) as (w4 & -> & Hg4).
  exists w4, body, dec. split; [done|]. split; [|done].
  pose proof (grows_trans _ _ _ _ _
                (grows_trans _ _ _ _ _
                   (grows_trans _ _ _ _ _ Hg1 Hg2) Hg3) Hg4) as Hg.
  by rewrite <- app_assoc in Hg.
Qed.

End Serializing.

(** X24. On a stream that does not abort, [AddUChar] adds a backslash, the
    letter u and four upper-case hexadecimal digits whose value is [u]
    modulo 65536: a code point above 0xFFFF loses its upper bits. *)
Theorem AddUChar_hex
    (stream_answer : list StreamCall -> list Z -> WriteResult)
    (fuel : nat) (w : OutputStreamWriter.t) (u : Z) :
  (forall calls data, stream_answer calls data = kContinue) ->
  steady w ->
  (2 < fuel)%nat ->
  exists w' a b c d,
    OutputStreamWriter.AddUChar stream_answer fuel w u = Some w'
    /\ steady w'
    /\ contents w' = contents w ++ [92; 117; a; b; c; d]
    /\ Forall (fun x => 48 <= x <= 57 \/ 65 <= x <= 70) [a; b; c; d]
    /\ hex4 a b c d = Some (u mod 65536).
Proof.
  intros Hc Hst Hfuel.
  destruct (AddUChar_grows stream_answer Hc fuel w u Hst Hfuel)
    as (w' & E & Hst' & _ & Hcont).
  destruct (hex_digit _ (nibble_range u 12)) as [Ha Ra].
  destruct (hex_digit _ (nibble_range u 8)) as [Hb Rb].
  destruct (hex_digit _ (nibble_range u 4)) as [Hc' Rc].
  pose proof (nibble_range u 0) as R0. rewrite Z.shiftr_0_r in R0.
  destruct (hex_digit _ R0) as [Hd Rd].
  eexists w', _, _, _, _. split; [exact E|]. split; [done|].
  split; [exact Hcont|]. split.
  - repeat (constructor; [done|]). constructor.
  - unfold hex4. rewrite Ha, Hb, Hc', Hd. cbn [mbind option_bind].
    by rewrite nibbles_value.
Qed.

Lemma AddUChar_hex_witness :
  exists w' a b c d,
    OutputStreamWriter.AddUChar (fun _ _ => kContinue) 3
      (OutputStreamWriter.new 4) 128512 = Some w'
    /\ steady w'
    /\ contents w'
       = contents (OutputStreamWriter.new 4) ++ [92; 117; a; b; c; d]
    /\ Forall (fun x => 48 <= x <= 57 \/ 65 <= x <= 70) [a; b; c; d]
    /\ hex4 a b c d = Some (128512 mod 65536).
Proof.
  apply (AddUChar_hex (fun _ _ => kContinue) 3 (OutputStreamWriter.new 4)
           128512).
  - reflexivity.
  - split; [|split; [reflexivity|constructor]].
    split; simpl; lia.
  - lia.
Defined.

(** X25. On a stream that does not abort, [SerializeString] on a string of
    seven-bit characters adds a newline, a quote, a body and a quote, and
    reading the body back as the inside of a JSON string gives exactly the
    string: nothing is lost or changed by the escaping, and
    [Utf8::CalculateValue] plays no part. *)
Theorem SerializeString_ascii_round_trip
    (stream_answer : list StreamCall -> list Z -> WriteResult)
    (Utf8_CalculateValue : list Z -> Z * Z) (Utf8_kBadChar : Z)
    (fuel : nat) (w : OutputStreamWriter.t) (s : list Z) :
  (forall calls data, stream_answer calls data = kContinue) ->
  steady w ->
  Forall (fun c => 1 <= c <= 127) s ->
  Z.of_nat (length s) + 3 <= Z.of_nat fuel ->
  exists w' body,
    OutputStreamWriter.SerializeString stream_answer Utf8_CalculateValue
      Utf8_kBadChar fuel w s = Some w'
    /\ steady w'
    /\ contents w' = contents w ++ [10; 34] ++ body ++ [34]
    /\ unescape body = Some s.
Proof.
  intros Hc Hst Hs Hfuel.
  destruct (SerializeString_grows stream_answer Hc Utf8_CalculateValue
              Utf8_kBadChar fuel w s)
    as (w' & body & dec & E & (Hst' & _ & Hcont) & [_ Henc] & Hasc);
    [| |done|done|].
  - eapply Forall_impl; [exact Hs|]. simpl. lia.
  - intros i b Hi Hb. rewrite Forall_lookup in Hs.
    specialize (Hs _ _ Hi). simpl in Hs. lia.
  - exists w', body. split; [done|]. split; [done|]. split; [done|].
    specialize (Henc []). rewrite app_nil_r in Henc. rewrite Henc. simpl.
    rewrite app_nil_r. f_equal. apply Hasc.
    eapply Forall_impl; [exact Hs|]. simpl. lia.
Qed.

Lemma SerializeString_ascii_round_trip_witness :
  exists w' body,
    OutputStreamWriter.SerializeString (fun _ _ => kContinue)
      (fun _ => (65533, 0)) 65533 8 (OutputStreamWriter.new 3)
      [97; 34; 10; 1; 127] = Some w'
    /\ steady w'
    /\ contents w'
       = contents (OutputStreamWriter.new 3) ++ [10; 34] ++ body ++ [34]
    /\ unescape body = Some [97; 34; 10; 1; 127].
Proof.
  apply (SerializeString_ascii_round_trip (fun _ _ => kContinue)
           (fun _ => (65533, 0)) 65533 8 (OutputStreamWriter.new 3)
           [97; 34; 10; 1; 127]).
  - reflexivity.
  - split; [|split; [reflexivity|constructor]].
    split; simpl; lia.
  - repeat (constructor; [lia|]). constructor.
  - simpl. lia.
Defined.

(** X26. On a stream that does not abort, and with a
    [Utf8::CalculateValue] that consumes at least one and at most the
    bytes it is given whenever it decodes a character, [SerializeString]
    returns for every string of bytes, and what it puts between the quotes
    is the inside of a well-formed JSON string in characters between
    space and 127: no control character, no bare quote, no byte above 127
    reaches the stream. *)
Theorem SerializeString_well_formed
    (stream_answer : list StreamCall -> list Z -> WriteResult)
    (Utf8_CalculateValue : list Z -> Z * Z) (Utf8_kBadChar : Z)
    (fuel : nat) (w : OutputStreamWriter.t) (s : list Z) :
  (forall calls data, stream_answer calls data = kContinue) ->
  (forall bytes u cursor,
     bytes <> [] ->
     Utf8_CalculateValue bytes = (u, cursor) ->
     u <> Utf8_kBadChar ->
     1 <= cursor <= Z.of_nat (length bytes)) ->
  steady w ->
  Forall (fun c => 1 <= c <= 255) s ->
  Z.of_nat (length s) + 3 <= Z.of_nat fuel ->
  exists w' body,
    OutputStreamWriter.SerializeString stream_answer Utf8_CalculateValue
      Utf8_kBadChar fuel w s = Some w'
    /\ steady w'
    /\ contents w' = contents w ++ [10; 34] ++ body ++ [34]
    /\ Forall (fun c => 32 <= c <= 127) body
    /\ is_Some (unescape body).
Proof.
  intros Hc HCV Hst Hs Hfuel.
  destruct (SerializeString_grows stream_answer Hc Utf8_CalculateValue
              Utf8_kBadChar fuel w s)
    as (w' & body & dec & E & (Hst' & _ & Hcont) & [Hrange Henc] & _);
    [done| |done|done|].
  - intros i b Hi Hb k u cursor Hk Ecv Hgood.
    apply (HCV _ u cursor); [|done|done].
    rewrite (drop_S _ _ _ Hi). by destruct k; [lia|].
  - exists w', body. split; [done|]. split; [done|]. split; [done|].
    split; [done|].
    specialize (Henc []). rewrite app_nil_r in Henc. by rewrite Henc.
Qed.

Lemma SerializeString_well_formed_witness :
  let CalculateValue := fun bytes : list Z =>
    if (3 <=? Z.of_nat (length bytes)) then (8364, 3) else (65533, 0) in
  exists w' body,
    OutputStreamWriter.SerializeString (fun _ _ => kContinue)
      CalculateValue 65533 7 (OutputStreamWriter.new 3)
      [226; 130; 172; 200] = Some w'
    /\ steady w'
    /\ contents w'
       = contents (OutputStreamWriter.new 3) ++ [10; 34] ++ body ++ [34]
    /\ Forall (fun c => 32 <= c <= 127) body
    /\ is_Some (unescape body).
Proof.
  intros CalculateValue.
  apply (SerializeString_well_formed (fun _ _ => kContinue)
           CalculateValue 65533 7 (OutputStreamWriter.new 3)
           [226; 130; 172; 200]).
  - reflexivity.
  - intros bytes u cursor _. unfold CalculateValue.
    destruct (Z.leb_spec 3 (Z.of_nat (length bytes)));
      intros [= <- <-] Hu; [lia|done].
  - split; [|split; [reflexivity|constructor]].
    split; simpl; lia.
  - repeat (constructor; [lia|]). constructor.
  - simpl. lia.
Defined.
